(** * ipod: orchestration of iterative precovery and differential correction

    A shallow embedding of [src/ipod/main.py]: the per-chunk worker
    ([ipod_worker], [ipod_worker_remote]) and the top-level driver
    ([iterative_precovery_and_differential_correction]) with its distributed
    and sequential paths.

    Python integers are [Z].  Tables (quivr tables) are lists of rows;
    [qv.concatenate] is list append and [qv.defragment] leaves the rows of a
    table unchanged, so the "concatenate, then defragment when fragmented"
    idiom of the source is list append.  Effects are kept in a small monad
    that threads the Ray object store, appends to a trace of events and
    propagates Python exceptions. *)

From Stdlib Require Import ZArith String Lia.
From stdpp Require Import base list gmap strings.

Local Open Scope Z_scope.

(** ** Exceptions, handles and the external collaborators *)

(** An object reference of the Ray object store. *)
Abbreviation ref := nat.

(** The exceptions that can travel through the driver. *)
Inductive exn : Type :=
| ZeroDivisionError                (* len(orbit_ids) / 0 *)
| ValueError                       (* range() with a zero step *)
| ObjectLostError (r : ref)        (* ray.get of a reference the store does not hold *)
| TypeError (r : ref)              (* the referenced object is not of the expected table type *)
| RefinementError (msg : string).  (* anything the refinement routine raises *)

Inductive result (A : Type) : Type :=
| Ok (a : A)
| Raise (e : exn).
Arguments Ok {A} a.
Arguments Raise {A} e.

(** A [PrecoveryDatabase] opened read-only from a directory. *)
Record PrecoveryDatabase : Type := { db_directory : string }.

(** The collaborators that [main.py] imports: the row types of the quivr
    tables, the columns the driver reads, the table operations of thor,
    adam_core and quivr that prepare observations, and the refinement routine
    [ipod] of [ipod/ipod.py]. *)
Class Externals : Type := {
  OrbitRow : Type;            (* a row of FittedOrbits *)
  MemberRow : Type;           (* a row of FittedOrbitMembers *)
  ObsRow : Type;              (* a row of Observations *)
  ObserverRow : Type;         (* a row of Observers *)
  ODObservations : Type;      (* OrbitDeterminationObservations *)
  CandidateRow : Type;        (* a row of PrecoveryCandidates *)
  SummaryRow : Type;          (* a row of SearchSummary *)
  Params : Type;              (* the keyword arguments handed through to ipod *)
  row_orbit_id : OrbitRow -> string;        (* FittedOrbits.orbit_id *)
  member_orbit_id : MemberRow -> string;    (* FittedOrbitMembers.orbit_id *)
  member_obs_id : MemberRow -> string;      (* FittedOrbitMembers.obs_id *)
  observation_id : ObsRow -> string;        (* Observations.id *)
  sort_observations : list ObsRow -> list ObsRow;
      (* sort_by(time.days, time.nanos, origin.code) *)
  get_observers : list ObsRow -> list ObserverRow;
      (* get_observers().observers *)
  sort_observers : list ObserverRow -> list ObserverRow;
      (* sort_by(time.days, time.nanos, code) *)
  od_from_kwargs : list ObsRow -> list ObserverRow -> ODObservations;
      (* OrbitDeterminationObservations.from_kwargs(id, coordinates, observers) *)
  ipod : list OrbitRow -> option ODObservations -> Params -> PrecoveryDatabase ->
         result (list OrbitRow * list MemberRow * list CandidateRow * list SummaryRow)
}.

(** The runtime the driver runs on. *)
Class Runtime : Type := {
  cpu_count : Z;                        (* mp.cpu_count() *)
  initialize_use_ray : Z -> bool;       (* initialize_use_ray(num_cpus=...) *)
  ray_wait_ready : list (Z * Z) -> nat
      (* which of the outstanding tasks (given by their chunk ranges, in list
         order) ray.wait reports as finished; taken modulo the list length *)
}.

Section Model.
Context `{E : Externals}.

(** ** Tables and the result quadruple *)

Definition FittedOrbits := list OrbitRow.
Definition FittedOrbitMembers := list MemberRow.
Definition Observations := list ObsRow.
Definition PrecoveryCandidates := list CandidateRow.
Definition SearchSummary := list SummaryRow.

Record Quad : Type := mkQuad {
  q_orbits : FittedOrbits;
  q_members : FittedOrbitMembers;
  q_candidates : PrecoveryCandidates;
  q_summary : SearchSummary
}.

(** [FittedOrbits.empty()], ..., [SearchSummary.empty()]. *)
Definition empty_quad : Quad := mkQuad [] [] [] [].

Definition quad_of_tuple
  (t : list OrbitRow * list MemberRow * list CandidateRow * list SummaryRow) : Quad :=
  let '(o, m, c, s) := t in mkQuad o m c s.

(** The four [qv.concatenate([total, chunk])] of the source, each followed by
    a defragmentation that keeps the rows. *)
Definition merge (total chunk : Quad) : Quad :=
  mkQuad (q_orbits total ++ q_orbits chunk)
         (q_members total ++ q_members chunk)
         (q_candidates total ++ q_candidates chunk)
         (q_summary total ++ q_summary chunk).

(** ** The object store, tasks and events *)

Inductive obj : Type :=
| OIds (ids : list string)
| OOrbits (t : FittedOrbits)
| OMembers (t : FittedOrbitMembers)
| OObservations (t : Observations).

(** The arguments of one [ipod_worker_remote.remote(...)] submission. *)
Record Task : Type := mkTask {
  t_orbit_ids_ref : ref;
  t_indices : Z * Z;
  t_orbits_ref : ref;
  t_members_ref : option ref;
  t_observations_ref : option ref;
  t_params : Params;
  t_database_directory : string
}.

Inductive event : Type :=
| EvOpen (dir : string)                 (* PrecoveryDatabase.from_dir(dir, create=False, mode="r") *)
| EvClose (db : PrecoveryDatabase)      (* database.frames.close() *)
| EvWorker (orbit_ids : list string)    (* entry of ipod_worker on a chunk *)
| EvIpod (orbit : FittedOrbits) (obs : option ODObservations)  (* a call of ipod *)
| EvLogError (orbit_id : string) (e : exn)  (* logger.error(f"Error processing orbit ...") *)
| EvPrint (orbit_id : string) (e : exn)     (* print(f"Error processing orbit ...") *)
| EvGet (r : ref)                       (* ray.get(ref) *)
| EvPut (r : ref) (o : obj)             (* ray.put(value), returning r *)
| EvInitRay (num_cpus : Z)              (* initialize_use_ray(num_cpus) *)
| EvSubmit (t : Task)                   (* ipod_worker_remote.remote(...) *)
| EvWait (t : Task)                     (* ray.wait returned t as finished *)
| EvGetResult (t : Task)                (* ray.get(finished[0]) *)
| EvFree (rs : list ref).               (* ray.internal.free(refs) *)


(** ** The effect monad: object store, event trace, exceptions *)

Definition M (A : Type) : Type :=
  gmap ref obj -> gmap ref obj * list event * result A.

Definition ret {A} (a : A) : M A := fun st => (st, [], Ok a).

Definition raise {A} (e : exn) : M A := fun st => (st, [], Raise e).

Definition bind {A B} (m : M A) (f : A -> M B) : M B :=
  fun st =>
    match m st with
    | (st1, tr1, Ok a) =>
        match f a st1 with
        | (st2, tr2, r) => (st2, tr1 ++ tr2, r)
        end
    | (st1, tr1, Raise e) => (st1, tr1, Raise e)
    end.

(** [try: m except Exception as e: h e]. *)
Definition try_except {A} (m : M A) (h : exn -> M A) : M A :=
  fun st =>
    match m st with
    | (st1, tr1, Ok a) => (st1, tr1, Ok a)
    | (st1, tr1, Raise e) =>
        match h e st1 with
        | (st2, tr2, r) => (st2, tr1 ++ tr2, r)
        end
    end.

Definition emit (ev : event) : M unit := fun st => (st, [ev], Ok tt).

Definition lift_result {A} (r : result A) : M A := fun st => (st, [], r).

End Model.

(** The Ray object store. *)
Abbreviation store := (gmap ref obj).

Notation "x <- c1 ;; c2" := (bind c1 (fun x => c2))
  (at level 100, c1 at next level, right associativity).
Notation "c1 ;;; c2" := (bind c1 (fun _ => c2))
  (at level 100, right associativity).

Section Planner.

(** ** Chunk planning *)

(** [range(start, stop, step)] for a positive step: [fuel] bounds the number
    of elements, and [stop - start] of it is always enough. *)
Fixpoint range_up (fuel : nat) (start stop step : Z) : list Z :=
  match fuel with
  | O => []
  | S fuel' =>
      if start <? stop
      then start :: range_up fuel' (start + step) stop step
      else []
  end.

(** [range(start, stop, step)] for a negative step. *)
Fixpoint range_down (fuel : nat) (start stop step : Z) : list Z :=
  match fuel with
  | O => []
  | S fuel' =>
      if stop <? start
      then start :: range_down fuel' (start + step) stop step
      else []
  end.

(** Python's [range(start, stop, step)]; a zero step raises [ValueError]. *)
Definition py_range (start stop step : Z) : result (list Z) :=
  if step =? 0 then Raise ValueError
  else if 0 <? step then Ok (range_up (Z.to_nat (stop - start)) start stop step)
  else Ok (range_down (Z.to_nat (start - stop)) start stop step).

(** Python's [l[a:b]]: negative indices count from the end, and both ends
    are clamped to the sequence. *)
Definition clamp_index (len i : Z) : Z :=
  if i <? 0 then Z.max (i + len) 0 else Z.min i len.

Definition py_slice {A} (l : list A) (a b : Z) : list A :=
  let len := Z.of_nat (length l) in
  let a' := clamp_index len a in
  let b' := clamp_index len b in
  take (Z.to_nat (b' - a')) (drop (Z.to_nat a') l).

(** Modelled from the spec: adam_core's [_iterate_chunk_indices], which is
    imported from [adam_core.propagator.utils] and is not part of the source
    tree; section 4.2 has it yield the contiguous ranges [(c, min(c + size, N))]
    for [c] in [range(0, N, size)]. *)
Definition _iterate_chunk_indices {A} (iterable : list A) (chunk_size : Z)
  : result (list (Z * Z)) :=
  let n := Z.of_nat (length iterable) in
  match py_range 0 n chunk_size with
  | Ok cs => Ok (map (fun c => (c, Z.min (c + chunk_size) n)) cs)
  | Raise e => Raise e
  end.

(** Modelled from the spec: adam_core's [_iterate_chunks], the same ranges
    as slices [iterable[c : c + size]]. *)
Definition _iterate_chunks {A} (iterable : list A) (chunk_size : Z)
  : result (list (list A)) :=
  let n := Z.of_nat (length iterable) in
  match py_range 0 n chunk_size with
  | Ok cs => Ok (map (fun c => py_slice iterable c (c + chunk_size)) cs)
  | Raise e => Raise e
  end.

(** [np.ceil(n / w).astype(int)] for [w <> 0] (true division, then ceiling). *)
Definition ceil_div (n w : Z) : Z := - ((- n) / w).

(** Lines 326-328: [np.minimum(np.ceil(len(orbit_ids) / max_processes).astype(int), chunk_size)];
    the division raises for a zero worker count. *)
Definition effective_chunk_size (n max_processes chunk_size : Z) : result Z :=
  if max_processes =? 0 then Raise ZeroDivisionError
  else Ok (Z.min (ceil_div n max_processes) chunk_size).

End Planner.

Section Worker.
Context `{E : Externals}.

(** ** The per-chunk worker *)

(** [orbits.select("orbit_id", orbit_id)]: quivr's exact-match selection,
    the table of the rows whose column equals the value (empty when there
    is none). *)
Definition select_orbit (orbits : FittedOrbits) (orbit_id : string) : FittedOrbits :=
  filter (fun r => row_orbit_id r = orbit_id) orbits.

(** Lines 67-97: the observations handed to the refinement routine. *)
Definition orbit_observations_for
    (orbit_members : option FittedOrbitMembers) (observations : option Observations)
    (orbit_id : string) : option ODObservations :=
  match orbit_members, observations with
  | Some members, Some obs =>
      let obs_ids :=
        map member_obs_id (filter (fun m => member_orbit_id m = orbit_id) members) in
      let orbit_observations := filter (fun o => observation_id o ∈ obs_ids) obs in
      let orbit_observations := sort_observations orbit_observations in
      let observers := sort_observers (get_observers orbit_observations) in
      Some (od_from_kwargs orbit_observations observers)
  | _, _ => None
  end.

(** The [database] argument of [ipod_worker]: a directory or an open database. *)
Inductive database_arg : Type :=
| DbDirectory (dir : string)
| DbOpen (db : PrecoveryDatabase).

(** [PrecoveryDatabase.from_dir(dir, create=False, mode="r", allow_version_mismatch=True)]. *)
Definition from_dir (dir : string) : M PrecoveryDatabase :=
  emit (EvOpen dir) ;;; ret {| db_directory := dir |}.

(** Lines 99-122: the guarded call of the refinement routine. *)
Definition call_ipod (orbit_id : string) (orbit : FittedOrbits)
    (orbit_observations : option ODObservations) (params : Params)
    (precovery_db : PrecoveryDatabase) : M Quad :=
  try_except
    (emit (EvIpod orbit orbit_observations) ;;;
     r <- lift_result (ipod orbit orbit_observations params precovery_db) ;;
     ret (quad_of_tuple r))
    (fun e =>
       emit (EvLogError orbit_id e) ;;;
       emit (EvPrint orbit_id e) ;;;
       raise e).

(** Lines 63-137: the loop over the identifiers of the chunk. *)
Fixpoint ipod_worker_loop (orbit_ids : list string) (orbits : FittedOrbits)
    (orbit_members : option FittedOrbitMembers) (observations : option Observations)
    (params : Params) (precovery_db : PrecoveryDatabase) (acc : Quad) : M Quad :=
  match orbit_ids with
  | [] => ret acc
  | orbit_id :: rest =>
      let orbit := select_orbit orbits orbit_id in
      let orbit_observations :=
        orbit_observations_for orbit_members observations orbit_id in
      q <- call_ipod orbit_id orbit orbit_observations params precovery_db ;;
      ipod_worker_loop rest orbits orbit_members observations params precovery_db
        (merge acc q)
  end.

Definition ipod_worker (orbit_ids : list string) (orbits : FittedOrbits)
    (orbit_members : option FittedOrbitMembers) (observations : option Observations)
    (params : Params) (database : database_arg) : M Quad :=
  emit (EvWorker orbit_ids) ;;;
  precovery_db <- match database with
                  | DbDirectory dir => from_dir dir
                  | DbOpen db => ret db
                  end ;;
  ipod_worker_loop orbit_ids orbits orbit_members observations params precovery_db
    empty_quad.

Definition ipod_worker_remote (orbit_ids : list string) (orbit_ids_indices : Z * Z)
    (orbits : FittedOrbits) (orbit_members : option FittedOrbitMembers)
    (observations : option Observations) (params : Params)
    (database_directory : string) : M Quad :=
  database <- from_dir database_directory ;;
  let orbit_id_chunk :=
    py_slice orbit_ids (fst orbit_ids_indices) (snd orbit_ids_indices) in
  q <- ipod_worker orbit_id_chunk orbits orbit_members observations params
         (DbOpen database) ;;
  emit (EvClose database) ;;;
  ret q.

End Worker.

Section Driver.
Context `{E : Externals} `{R : Runtime}.

(** ** The Ray boundary *)

(** [ray.put(value)]: the value is stored under a reference the store does
    not hold yet. *)
Definition ray_put (o : obj) : M ref :=
  fun st => let r := fresh (dom st) in (<[r := o]> st, [EvPut r o], Ok r).

(** [ray.get(ref)]. *)
Definition ray_get (r : ref) : M obj :=
  fun st =>
    match st !! r with
    | Some o => (st, [EvGet r], Ok o)
    | None => (st, [EvGet r], Raise (ObjectLostError r))
    end.

(** [ray.internal.free(refs)]. *)
Definition ray_free (rs : list ref) : M unit :=
  fun st => (foldr delete st rs, [EvFree rs], Ok tt).

Definition as_ids (r : ref) (o : obj) : result (list string) :=
  match o with OIds ids => Ok ids | _ => Raise (TypeError r) end.
Definition as_orbits (r : ref) (o : obj) : result FittedOrbits :=
  match o with OOrbits t => Ok t | _ => Raise (TypeError r) end.
Definition as_members (r : ref) (o : obj) : result FittedOrbitMembers :=
  match o with OMembers t => Ok t | _ => Raise (TypeError r) end.
Definition as_observations (r : ref) (o : obj) : result Observations :=
  match o with OObservations t => Ok t | _ => Raise (TypeError r) end.

Definition ray_get_as {A} (cast : ref -> obj -> result A) (r : ref) : M A :=
  o <- ray_get r ;; lift_result (cast r o).

(** An input of the entry point: the table itself or a reference to it. *)
Inductive input (A : Type) : Type :=
| Value (a : A)
| Reference (r : ref).
Global Arguments Value {A} a.
Global Arguments Reference {A} r.

(** Lines 252-257: [if isinstance(orbits, ray.ObjectRef): ... else: orbits_ref = None]. *)
Definition resolve {A} (cast : ref -> obj -> result A) (x : input A)
  : M (option ref * A) :=
  match x with
  | Reference r => v <- ray_get_as cast r ;; ret (Some r, v)
  | Value v => ret (None, v)
  end.

(** Lines 259-271: the same for an optional input. *)
Definition resolve_optional {A} (cast : ref -> obj -> result A)
    (x : option (input A)) : M (option ref * option A) :=
  match x with
  | Some (Reference r) => v <- ray_get_as cast r ;; ret (Some r, Some v)
  | Some (Value v) => ret (None, Some v)
  | None => ret (None, None)
  end.

(** The runtime resolves the references among the arguments of a task, then
    runs [ipod_worker_remote] in a worker process; the events of that
    process and the outcome of the task. *)
Definition resolve_task_argument {A} (cast : ref -> obj -> result A)
    (st : store) (r : option ref) : result (option A) :=
  match r with
  | None => Ok None
  | Some r =>
      match st !! r with
      | None => Raise (ObjectLostError r)
      | Some o => match cast r o with Ok v => Ok (Some v) | Raise e => Raise e end
      end
  end.

Definition run_task (st : store) (t : Task) : list event * result Quad :=
  match resolve_task_argument as_ids st (Some (t_orbit_ids_ref t)),
        resolve_task_argument as_orbits st (Some (t_orbits_ref t)),
        resolve_task_argument as_members st (t_members_ref t),
        resolve_task_argument as_observations st (t_observations_ref t) with
  | Ok (Some ids), Ok (Some orbits), Ok members, Ok observations =>
      match ipod_worker_remote ids (t_indices t) orbits members observations
              (t_params t) (t_database_directory t) st with
      | (_, tr, r) => (tr, r)
      end
  | Raise e, _, _, _ => ([], Raise e)
  | _, Raise e, _, _ => ([], Raise e)
  | _, _, Raise e, _ => ([], Raise e)
  | _, _, _, Raise e => ([], Raise e)
  | _, _, _, _ => ([], Raise ValueError)
  end.

(** [ipod_worker_remote.remote(...)]. *)
Definition submit (t : Task) : M Task := emit (EvSubmit t) ;;; ret t.

(** [ray.wait(futures, num_returns=1)]: one finished task and the others, in
    their order; it raises on an empty list. *)
Definition ray_wait (futures : list Task) : M (Task * list Task) :=
  let i := (ray_wait_ready (map t_indices futures) mod length futures)%nat in
  match futures !! i with
  | Some t => emit (EvWait t) ;;; ret (t, delete i futures)
  | None => raise ValueError
  end.

(** [ray.get(finished[0])]: the result of the task, or its exception. *)
Definition ray_get_result (t : Task) : M Quad :=
  emit (EvGetResult t) ;;; (fun st => (st, [], snd (run_task st t))).

(** Lines 361-387 and 390-416: wait for one task, fetch and merge its result. *)
Definition wait_and_merge (futures : list Task) (totals : Quad)
  : M (list Task * Quad) :=
  w <- ray_wait futures ;;
  q <- ray_get_result (fst w) ;;
  ret (snd w, merge totals q).

(** [len(futures) >= max_processes * 1.5], on integers. *)
Definition at_capacity (futures : list Task) (max_processes : Z) : bool :=
  3 * max_processes <=? 2 * Z.of_nat (length futures).

(** Lines 333-387: the submission loop. *)
Fixpoint submit_loop (chunks : list (Z * Z)) (mk_task : Z * Z -> Task)
    (max_processes : Z) (futures : list Task) (totals : Quad)
  : M (list Task * Quad) :=
  match chunks with
  | [] => ret (futures, totals)
  | orbit_ids_indices :: rest =>
      t <- submit (mk_task orbit_ids_indices) ;;
      let futures := futures ++ [t] in
      if at_capacity futures max_processes then
        s <- wait_and_merge futures totals ;;
        submit_loop rest mk_task max_processes (fst s) (snd s)
      else
        submit_loop rest mk_task max_processes futures totals
  end.

(** Lines 389-416: [while futures: ...]; every round removes one task, so
    [length futures] rounds empty the list. *)
Fixpoint drain_loop (rounds : nat) (futures : list Task) (totals : Quad)
  : M (list Task * Quad) :=
  match rounds, futures with
  | S rounds', _ :: _ =>
      s <- wait_and_merge futures totals ;;
      drain_loop rounds' (fst s) (snd s)
  | _, _ => ret (futures, totals)
  end.

(** Lines 308-324: place an input unless the caller supplied a reference. *)
Definition place {A} (wrap : A -> obj) (cast : ref -> obj -> result A)
    (given : option ref) (value : A) (refs_to_free : list ref)
  : M (ref * A * list ref) :=
  match given with
  | None =>
      r <- ray_put (wrap value) ;;
      v <- ray_get_as cast r ;;
      ret (r, v, refs_to_free ++ [r])
  | Some r => ret (r, value, refs_to_free)
  end.

Definition place_optional {A} (wrap : A -> obj) (cast : ref -> obj -> result A)
    (given : option ref) (value : option A) (refs_to_free : list ref)
  : M (option ref * option A * list ref) :=
  match given, value with
  | None, Some v =>
      r <- ray_put (wrap v) ;;
      v' <- ray_get_as cast r ;;
      ret (Some r, Some v', refs_to_free ++ [r])
  | _, _ => ret (given, value, refs_to_free)
  end.

(** The references the tasks are given, and those this run has to free. *)
Record Placed : Type := mkPlaced {
  p_orbit_ids_ref : ref;
  p_orbit_ids : list string;
  p_orbits_ref : ref;
  p_members_ref : option ref;
  p_observations_ref : option ref;
  p_refs_to_free : list ref
}.

(** Lines 301-324: placement of the shared inputs. *)
Definition place_inputs (orbit_ids : list string)
    (orbits_ref : option ref) (orbits : FittedOrbits)
    (orbit_members_ref : option ref) (orbit_members : option FittedOrbitMembers)
    (observations_ref : option ref) (observations : option Observations)
  : M Placed :=
  orbit_ids_ref <- ray_put (OIds orbit_ids) ;;
  orbit_ids <- ray_get_as as_ids orbit_ids_ref ;;
  let refs_to_free := [orbit_ids_ref] in
  po <- place OOrbits as_orbits orbits_ref orbits refs_to_free ;;
  pm <- place_optional OMembers as_members orbit_members_ref orbit_members (snd po) ;;
  pb <- place_optional OObservations as_observations observations_ref observations
          (snd pm) ;;
  ret (mkPlaced orbit_ids_ref orbit_ids (fst (fst po)) (fst (fst pm)) (fst (fst pb))
         (snd pb)).

Definition mk_task (pl : Placed) (params : Params) (database_directory : string)
    (orbit_ids_indices : Z * Z) : Task :=
  mkTask (p_orbit_ids_ref pl) orbit_ids_indices (p_orbits_ref pl) (p_members_ref pl)
    (p_observations_ref pl) params database_directory.

(** Lines 326-416: chunk planning, submission and draining. *)
Definition dispatch (pl : Placed) (params : Params) (database_directory : string)
    (chunk_size max_processes : Z) : M Quad :=
  chunk_size <- lift_result
    (effective_chunk_size (Z.of_nat (length (p_orbit_ids pl))) max_processes
       chunk_size) ;;
  chunks <- lift_result (_iterate_chunk_indices (p_orbit_ids pl) chunk_size) ;;
  s <- submit_loop chunks (mk_task pl params database_directory) max_processes []
         empty_quad ;;
  d <- drain_loop (length (fst s)) (fst s) (snd s) ;;
  ret (snd d).

(** Lines 418-422: release of the references this run placed. *)
Definition free_placed (refs_to_free : list ref) : M unit :=
  if 0 <? Z.of_nat (length refs_to_free) then ray_free refs_to_free else ret tt.

(** Lines 300-422: the distributed path. *)
Definition distributed_path (orbit_ids : list string)
    (orbits_ref : option ref) (orbits : FittedOrbits)
    (orbit_members_ref : option ref) (orbit_members : option FittedOrbitMembers)
    (observations_ref : option ref) (observations : option Observations)
    (params : Params) (database_directory : string)
    (chunk_size max_processes : Z) : M Quad :=
  pl <- place_inputs orbit_ids orbits_ref orbits orbit_members_ref orbit_members
          observations_ref observations ;;
  q <- dispatch pl params database_directory chunk_size max_processes ;;
  free_placed (p_refs_to_free pl) ;;;
  ret q.

(** Lines 424-468: the sequential path. *)
Fixpoint sequential_loop (chunks : list (list string)) (orbits : FittedOrbits)
    (orbit_members : option FittedOrbitMembers) (observations : option Observations)
    (params : Params) (database_directory : string) (totals : Quad) : M Quad :=
  match chunks with
  | [] => ret totals
  | orbit_ids_chunk :: rest =>
      q <- ipod_worker orbit_ids_chunk orbits orbit_members observations params
             (DbDirectory database_directory) ;;
      sequential_loop rest orbits orbit_members observations params
        database_directory (merge totals q)
  end.

Definition sequential_path (orbit_ids : list string) (orbits : FittedOrbits)
    (orbit_members : option FittedOrbitMembers) (observations : option Observations)
    (params : Params) (database_directory : string) (chunk_size : Z) : M Quad :=
  chunks <- lift_result (_iterate_chunks orbit_ids chunk_size) ;;
  sequential_loop chunks orbits orbit_members observations params
    database_directory empty_quad.

(** Lines 209-478: the entry point. *)
Definition iterative_precovery_and_differential_correction
    (orbits : input FittedOrbits)
    (orbit_members : option (input FittedOrbitMembers))
    (observations : option (input Observations))
    (params : Params) (database_directory : string)
    (chunk_size : Z) (max_processes : option Z) : M Quad :=
  ro <- resolve as_orbits orbits ;;
  rm <- resolve_optional as_members orbit_members ;;
  rb <- resolve_optional as_observations observations ;;
  if (length (snd ro) =? 0)%nat then ret empty_quad
  else
    let orbit_ids := map row_orbit_id (snd ro) in
    let max_processes := default cpu_count max_processes in
    emit (EvInitRay max_processes) ;;;
    if initialize_use_ray max_processes then
      distributed_path orbit_ids (fst ro) (snd ro) (fst rm) (snd rm) (fst rb) (snd rb)
        params database_directory chunk_size max_processes
    else
      sequential_path orbit_ids (snd ro) (snd rm) (snd rb)
        params database_directory chunk_size.

End Driver.

(** ** Vocabulary of the properties *)

Section Vocabulary.
Context `{E : Externals}.

(** The call of the refinement routine that the worker makes for one
    identifier. *)
Definition refine (orbits : FittedOrbits) (orbit_members : option FittedOrbitMembers)
    (observations : option Observations) (params : Params) (db : PrecoveryDatabase)
    (orbit_id : string)
  : result (list OrbitRow * list MemberRow * list CandidateRow * list SummaryRow) :=
  ipod (select_orbit orbits orbit_id)
    (orbit_observations_for orbit_members observations orbit_id) params db.

(** The identifiers on which the refinement routine returns. *)
Definition succeeds (orbits : FittedOrbits) (orbit_members : option FittedOrbitMembers)
    (observations : option Observations) (params : Params) (db : PrecoveryDatabase)
    (orbit_id : string) : Prop :=
  exists t, refine orbits orbit_members observations params db orbit_id = Ok t.

(** The event of that call. *)
Definition ipod_event (orbits : FittedOrbits) (orbit_members : option FittedOrbitMembers)
    (observations : option Observations) (orbit_id : string) : event :=
  EvIpod (select_orbit orbits orbit_id)
    (orbit_observations_for orbit_members observations orbit_id).

(** What the refinement routine returns for an identifier, as a quadruple
    (empty where it raises). *)
Definition refined (orbits : FittedOrbits) (orbit_members : option FittedOrbitMembers)
    (observations : option Observations) (params : Params) (db : PrecoveryDatabase)
    (orbit_id : string) : Quad :=
  match refine orbits orbit_members observations params db orbit_id with
  | Ok t => quad_of_tuple t
  | Raise _ => empty_quad
  end.

(** The results for a sequence of identifiers, concatenated in its order. *)
Definition batch (orbits : FittedOrbits) (orbit_members : option FittedOrbitMembers)
    (observations : option Observations) (params : Params) (db : PrecoveryDatabase)
    (orbit_ids : list string) : Quad :=
  foldr (fun orbit_id q =>
           merge (refined orbits orbit_members observations params db orbit_id) q)
    empty_quad orbit_ids.

(** Equality of two quadruples as unordered multisets, collection by collection. *)
Definition quad_perm (q1 q2 : Quad) : Prop :=
  q_orbits q1 ≡ₚ q_orbits q2 /\ q_members q1 ≡ₚ q_members q2 /\
  q_candidates q1 ≡ₚ q_candidates q2 /\ q_summary q1 ≡ₚ q_summary q2.

(** Classification of events. *)
Definition is_open (e : event) : bool := match e with EvOpen _ => true | _ => false end.
Definition is_close (e : event) : bool := match e with EvClose _ => true | _ => false end.
Definition is_ipod (e : event) : bool := match e with EvIpod _ _ => true | _ => false end.
Definition is_get (e : event) : bool := match e with EvGet _ => true | _ => false end.
Definition is_submit (e : event) : bool := match e with EvSubmit _ => true | _ => false end.
Definition is_wait (e : event) : bool := match e with EvWait _ => true | _ => false end.
Definition is_put_orbits (e : event) : bool :=
  match e with EvPut _ (OOrbits _) => true | _ => false end.
Definition is_put_members (e : event) : bool :=
  match e with EvPut _ (OMembers _) => true | _ => false end.
Definition is_put_observations (e : event) : bool :=
  match e with EvPut _ (OObservations _) => true | _ => false end.

(** How often an event of a kind occurs in a trace. *)
Definition count (p : event -> bool) (tr : list event) : nat :=
  length (List.filter p tr).

Definition worker_chunks (tr : list event) : list (list string) :=
  omap (fun e => match e with EvWorker ids => Some ids | _ => None end) tr.

(** The number of outstanding tasks after a trace: submitted, not yet
    reported finished by [ray.wait]. *)
Definition outstanding (tr : list event) : Z :=
  Z.of_nat (count is_submit tr) - Z.of_nat (count is_wait tr).

(** [ceil(1.5 * w)]. *)
Definition in_flight_cap (w : Z) : Z := (3 * w + 1) / 2.

(** The change an event makes to the number of outstanding tasks. *)
Definition in_flight_delta (ev : event) : Z :=
  if is_submit ev then 1 else if is_wait ev then -1 else 0.



(** Events other than submissions and waits leave the count alone. *)
Definition idle (ev : event) : Prop := is_submit ev = false /\ is_wait ev = false.

(** What the outstanding tasks will contribute to a collection [proj] of the
    totals, when [tq] gives the result of each task. *)
Definition pending {X} (proj : Quad -> list X) (tq : Task -> Quad)
    (futures : list Task) : list X :=
  concat (map (fun t => proj (tq t)) futures).

(** The references a trace placed in the object store, in order. *)
Definition put_refs (tr : list event) : list ref :=
  omap (fun e => match e with EvPut r _ => Some r | _ => None end) tr.

(** The references a trace freed. *)
Definition freed_refs (tr : list event) : list ref :=
  concat (omap (fun e => match e with EvFree rs => Some rs | _ => None end) tr).

(** Events of a worker running in the process that observes the trace. *)
Definition is_worker_event (e : event) : bool :=
  match e with
  | EvWorker _ | EvOpen _ | EvClose _ | EvIpod _ _ | EvLogError _ _ | EvPrint _ _ => true
  | _ => false
  end.

(** Events of the dispatcher loops. *)
Definition is_dispatch_event (e : event) : bool :=
  match e with EvSubmit _ | EvWait _ | EvGetResult _ => true | _ => false end.

(** Events other than [ray.internal.free]. *)
Definition is_not_free (e : event) : bool :=
  match e with EvFree _ => false | _ => true end.

(** Events of the object store that do not free anything. *)
Definition is_store_access (e : event) : bool :=
  match e with EvPut _ _ | EvGet _ => true | _ => false end.

(** What an input stands for in a store: the table itself, or the table the
    store holds under the reference. *)
Definition given_ref {A} (x : input A) : option ref :=
  match x with Reference r => Some r | Value _ => None end.

Definition given_ref_optional {A} (x : option (input A)) : option ref :=
  match x with Some x => given_ref x | None => None end.

Definition holds {A} (wrap : A -> obj) (st : store) (x : input A) (v : A) : Prop :=
  match x with
  | Value a => a = v
  | Reference r => st !! r = Some (wrap v)
  end.

Definition holds_optional {A} (wrap : A -> obj) (st : store) (x : option (input A))
    (v : option A) : Prop :=
  match x, v with
  | None, None => True
  | Some x, Some a => holds wrap st x a
  | _, _ => False
  end.

(** The [ray.get] events of reading an input back. *)
Definition read_back {A} (x : input A) : list event :=
  match x with Reference r => [EvGet r] | Value _ => [] end.

Definition read_back_optional {A} (x : option (input A)) : list event :=
  match x with Some x => read_back x | None => [] end.

(** A task whose result is an exception. *)
Definition fails (st : store) (t : Task) : Prop :=
  exists e, (run_task st t).2 = Raise e.

(** The outcome of the placement of the shared inputs (lines 301-324): the
    store grows by the references placed, which are new and are those
    recorded for release; an input given by reference keeps its reference
    and is not placed; the tasks find their arguments under the references. *)
Record placed_ok (st : store) (orbit_ids : list string)
    (orbits_ref : option ref) (orbits : FittedOrbits)
    (orbit_members_ref : option ref) (orbit_members : option FittedOrbitMembers)
    (observations_ref : option ref) (observations : option Observations)
    (st' : store) (tr : list event) (pl : Placed) : Prop := {
  placed_store : st ⊆ st';
  placed_ids : p_orbit_ids pl = orbit_ids;
  placed_ids_ref : st' !! p_orbit_ids_ref pl = Some (OIds orbit_ids);
  placed_ids_first : exists rest, put_refs tr = p_orbit_ids_ref pl :: rest;
  placed_ids_put : EvPut (p_orbit_ids_ref pl) (OIds orbit_ids) ∈ tr;
  placed_orbits_given : forall r, orbits_ref = Some r -> p_orbits_ref pl = r;
  placed_members_given :
    forall r, orbit_members_ref = Some r -> p_members_ref pl = Some r;
  placed_observations_given :
    forall r, observations_ref = Some r -> p_observations_ref pl = Some r;
  placed_orbits_new :
    orbits_ref = None -> st' !! p_orbits_ref pl = Some (OOrbits orbits);
  placed_members_new :
    orbit_members_ref = None ->
    match p_members_ref pl with
    | Some r => exists v, orbit_members = Some v /\ st' !! r = Some (OMembers v)
    | None => orbit_members = None
    end;
  placed_observations_new :
    observations_ref = None ->
    match p_observations_ref pl with
    | Some r => exists v, observations = Some v /\ st' !! r = Some (OObservations v)
    | None => observations = None
    end;
  placed_events : Forall (fun ev => is_store_access ev = true) tr;
  placed_refs : p_refs_to_free pl = put_refs tr;
  placed_fresh : Forall (fun r => st !! r = None) (put_refs tr);
  placed_count_orbits :
    count is_put_orbits tr = match orbits_ref with Some _ => 0%nat | None => 1%nat end;
  placed_count_members :
    count is_put_members tr =
    match orbit_members_ref, orbit_members with None, Some _ => 1%nat | _, _ => 0%nat end;
  placed_count_observations :
    count is_put_observations tr =
    match observations_ref, observations with None, Some _ => 1%nat | _, _ => 0%nat end
}.

End Vocabulary.

(** ** The runs of the dispatcher loops, as relations *)

Section Runs.
Context `{E : Externals} `{R : Runtime}.
Variables (st : store) (mk : Z * Z -> Task) (w : Z).

(** [submit_run chunks futures totals tr r]: from [futures] and [totals], the
    submission loop over [chunks] emits [tr] and ends in [r]. *)
Inductive submit_run
  : list (Z * Z) -> list Task -> Quad -> list event -> result (list Task * Quad) -> Prop :=
| submit_run_done futures totals :
    submit_run [] futures totals [] (Ok (futures, totals))
| submit_run_below idx rest futures totals tr r :
    at_capacity (futures ++ [mk idx]) w = false ->
    submit_run rest (futures ++ [mk idx]) totals tr r ->
    submit_run (idx :: rest) futures totals (EvSubmit (mk idx) :: tr) r
| submit_run_merge idx rest futures totals i t q tr r :
    at_capacity (futures ++ [mk idx]) w = true ->
    (futures ++ [mk idx]) !! i = Some t ->
    (run_task st t).2 = Ok q ->
    submit_run rest (delete i (futures ++ [mk idx])) (merge totals q) tr r ->
    submit_run (idx :: rest) futures totals
      (EvSubmit (mk idx) :: EvWait t :: EvGetResult t :: tr) r
| submit_run_raise idx rest futures totals i t e :
    at_capacity (futures ++ [mk idx]) w = true ->
    (futures ++ [mk idx]) !! i = Some t ->
    (run_task st t).2 = Raise e ->
    submit_run (idx :: rest) futures totals
      [EvSubmit (mk idx); EvWait t; EvGetResult t] (Raise e).

(** [drain_run futures totals tr r]: the drain loop from [futures]. *)
Inductive drain_run
  : list Task -> Quad -> list event -> result (list Task * Quad) -> Prop :=
| drain_run_done totals :
    drain_run [] totals [] (Ok ([], totals))
| drain_run_merge futures totals i t q tr r :
    futures !! i = Some t ->
    (run_task st t).2 = Ok q ->
    drain_run (delete i futures) (merge totals q) tr r ->
    drain_run futures totals (EvWait t :: EvGetResult t :: tr) r
| drain_run_raise futures totals i t e :
    futures !! i = Some t ->
    (run_task st t).2 = Raise e ->
    drain_run futures totals [EvWait t; EvGetResult t] (Raise e).

End Runs.

Section DispatchRun.
Context `{E : Externals} `{R : Runtime}.
Variables (st : store) (pl : Placed) (params : Params) (database_directory : string)
  (chunk_size max_processes : Z).

(** [dispatch_run tr r]: the runs of lines 326-416. *)
Inductive dispatch_run : list event -> result Quad -> Prop :=
| dispatch_run_no_size e :
    effective_chunk_size (Z.of_nat (length (p_orbit_ids pl))) max_processes chunk_size
      = Raise e ->
    dispatch_run [] (Raise e)
| dispatch_run_no_chunks size e :
    effective_chunk_size (Z.of_nat (length (p_orbit_ids pl))) max_processes chunk_size
      = Ok size ->
    _iterate_chunk_indices (p_orbit_ids pl) size = Raise e ->
    dispatch_run [] (Raise e)
| dispatch_run_submit_raise size chunks tr e :
    effective_chunk_size (Z.of_nat (length (p_orbit_ids pl))) max_processes chunk_size
      = Ok size ->
    _iterate_chunk_indices (p_orbit_ids pl) size = Ok chunks ->
    submit_run st (mk_task pl params database_directory) max_processes chunks []
      empty_quad tr (Raise e) ->
    dispatch_run tr (Raise e)
| dispatch_run_drain size chunks tr1 futures totals tr2 r :
    effective_chunk_size (Z.of_nat (length (p_orbit_ids pl))) max_processes chunk_size
      = Ok size ->
    _iterate_chunk_indices (p_orbit_ids pl) size = Ok chunks ->
    submit_run st (mk_task pl params database_directory) max_processes chunks []
      empty_quad tr1 (Ok (futures, totals)) ->
    drain_run st futures totals tr2 r ->
    dispatch_run (tr1 ++ tr2)
      (match r with Ok d => Ok d.2 | Raise e => Raise e end).

End DispatchRun.

(** ** A small concrete instance, used to run the model *)

Module Demo.

(** Rows are identifiers; the refinement routine hands back the orbit it was
    given and raises on the identifier ["bad"]. *)
Definition demo_ipod (orbit : list string) (obs : option (list string)) (params : unit)
    (db : PrecoveryDatabase)
  : result (list string * list (string * string) * list string * list string) :=
  if decide ("bad"%string ∈ orbit) then Raise (RefinementError "bad orbit")
  else Ok (orbit, [], orbit, orbit).

Definition externals : Externals := {|
  OrbitRow := string;
  MemberRow := string * string;
  ObsRow := string;
  ObserverRow := string;
  ODObservations := list string;
  CandidateRow := string;
  SummaryRow := string;
  Params := unit;
  row_orbit_id := fun r => r;
  member_orbit_id := fst;
  member_obs_id := snd;
  observation_id := fun o => o;
  sort_observations := fun l => l;
  get_observers := fun l => l;
  sort_observers := fun l => l;
  od_from_kwargs := fun obs _ => obs;
  ipod := demo_ipod
|}.

(** A runtime with or without Ray, whose [ray.wait] reports the task at
    position [pick] first. *)
Definition runtime (use_ray : bool) (pick : nat) : Runtime := {|
  cpu_count := 4;
  initialize_use_ray := fun _ => use_ray;
  ray_wait_ready := fun _ => pick
|}.

Definition five : list string := ["a"; "b"; "c"; "d"; "e"]%string.

(** Five orbits, chunks of two, one worker, without Ray. *)
Definition sequential_run :=
  iterative_precovery_and_differential_correction (E := externals)
    (R := runtime false 0) (Value five) None None tt "db" 2 (Some 1) ∅.

(** Five orbits, chunks of two, two workers, on Ray. *)
Definition distributed_run :=
  iterative_precovery_and_differential_correction (E := externals)
    (R := runtime true 1) (Value five) None None tt "db" 2 (Some 2) ∅.

(** A store in which the caller has placed the orbits under reference 7. *)
Definition caller_store : gmap ref (obj (E := externals)) :=
  {[ 7%nat := OOrbits (E := externals) five ]}.

(** The distributed run on the orbits the caller placed. *)
Definition reference_run :=
  iterative_precovery_and_differential_correction (E := externals)
    (R := runtime true 0) (Reference 7%nat) None None tt "db" 2 (Some 2) caller_store.

(** A chunk whose second identifier makes the refinement routine raise. *)
Definition bad_chunk : list string := ["a"; "bad"; "c"]%string.

(** An orbit table of one row. *)
Definition one_orbit : list string := ["a"]%string.




End Demo.

(** ** Vocabulary of the further properties *)

Section TraceVocabulary.
Context `{E : Externals}.

(** The tasks submitted, reported finished by [ray.wait], and fetched with
    [ray.get], in the order of the trace. *)
Definition submitted_tasks (tr : list event) : list Task :=
  omap (fun e => match e with EvSubmit t => Some t | _ => None end) tr.
Definition waited_tasks (tr : list event) : list Task :=
  omap (fun e => match e with EvWait t => Some t | _ => None end) tr.
Definition fetched_tasks (tr : list event) : list Task :=
  omap (fun e => match e with EvGetResult t => Some t | _ => None end) tr.

(** The worker counts that [initialize_use_ray] was called with, in order. *)
Definition init_calls (tr : list event) : list Z :=
  omap (fun e => match e with EvInitRay w => Some w | _ => None end) tr.

(** The calls of the refinement routine in a trace, in order. *)
Definition ipod_calls (tr : list event) : list event := List.filter is_ipod tr.

(** Events that a run makes on either path before it chooses one, or in the
    process of a worker: none of them places, submits, waits or frees. *)
Definition is_local_event (e : event) : bool :=
  match e with
  | EvGet _ | EvInitRay _ | EvWorker _ | EvOpen _ | EvClose _ | EvIpod _ _
  | EvLogError _ _ | EvPrint _ _ => true
  | _ => false
  end.

(** Starting with [n] outstanding tasks, every wait of the trace happens
    with exactly [cap] tasks outstanding. *)
Fixpoint waits_at (cap n : Z) (tr : list event) : Prop :=
  match tr with
  | [] => True
  | ev :: tr' =>
      (is_wait ev = true -> n = cap) /\ waits_at cap (n + in_flight_delta ev) tr'
  end.

(** The same for the waits that are followed by a submission. *)
Fixpoint waits_early_never (cap n : Z) (tr : list event) : Prop :=
  match tr with
  | [] => True
  | ev :: tr' =>
      (is_wait ev = true -> (exists t, EvSubmit t ∈ tr') -> n = cap) /\
      waits_early_never cap (n + in_flight_delta ev) tr'
  end.


(** The observation rows that belong to an identifier: the rows of the
    observation table, in its order, whose id is the [obs_id] of a member row
    of the identifier. *)
Definition observations_of (members : FittedOrbitMembers) (obs : Observations)
    (orbit_id : string) (rows : Observations) : Prop :=
  rows `sublist_of` obs /\
  forall o, o ∈ rows <->
    o ∈ obs /\
    exists m, m ∈ members /\ member_orbit_id m = orbit_id /\
              member_obs_id m = observation_id o.

End TraceVocabulary.


(** * Properties *)

(** ** The chunk planner *)

Section PlannerFacts.
Context {A : Type}.
Implicit Types (l : list A).

Lemma py_slice_inside l a b :
  0 <= a <= Z.of_nat (length l) -> a <= b ->
  py_slice l a b = take (Z.to_nat (b - a)) (drop (Z.to_nat a) l).
Proof.
  intros Ha Hab. unfold py_slice, clamp_index.
  destruct (Z.ltb_spec a 0); [lia|]. destruct (Z.ltb_spec b 0); [lia|].
  rewrite (Z.min_l a) by lia.
  destruct (Z.le_gt_cases b (Z.of_nat (length l))) as [Hb|Hb].
  - by rewrite Z.min_l by lia.
  - rewrite Z.min_r by lia.
    rewrite !take_ge; [done| |]; rewrite length_drop; lia.
Qed.

(** The range of a chunk index pair selects the slice of the chunk. *)
Lemma py_slice_min l c size :
  0 <= c <= Z.of_nat (length l) -> 0 <= size ->
  py_slice l c (Z.min (c + size) (Z.of_nat (length l))) = py_slice l c (c + size).
Proof.
  intros Hc Hs. rewrite !py_slice_inside by lia.
  destruct (Z.le_gt_cases (c + size) (Z.of_nat (length l))) as [Hb|Hb].
  - by rewrite Z.min_l by lia.
  - rewrite Z.min_r by lia.
    rewrite !take_ge; [done| |]; rewrite length_drop; lia.
Qed.

Lemma range_up_bounds fuel start stop step c :
  0 <= step -> c ∈ range_up fuel start stop step -> start <= c < stop.
Proof.
  intros Hstep. revert start. induction fuel as [|fuel IH]; intros start; simpl.
  - by intros ?%elem_of_nil.
  - destruct (Z.ltb_spec start stop); [|by intros ?%elem_of_nil].
    intros [->|Hc%IH]%elem_of_cons; lia.
Qed.

(** With a positive chunk size the slices of the planner, put end to end,
    are the sequence from the first start on. *)
Lemma concat_slices_range_up l size fuel start :
  1 <= size -> 0 <= start ->
  (Z.to_nat (Z.of_nat (length l) - start) <= fuel)%nat ->
  concat (map (fun c => py_slice l c (c + size))
            (range_up fuel start (Z.of_nat (length l)) size))
  = drop (Z.to_nat start) l.
Proof.
  intros Hsize. revert start.
  induction fuel as [|fuel IH]; intros start Hstart Hfuel; simpl.
  - rewrite drop_ge; [done|lia].
  - destruct (Z.ltb_spec start (Z.of_nat (length l))) as [Hlt|Hge].
    + simpl. rewrite IH by lia.
      rewrite py_slice_inside by lia.
      replace (start + size - start) with size by lia.
      replace (Z.to_nat (start + size)) with (Z.to_nat start + Z.to_nat size)%nat by lia.
      rewrite <- drop_drop. apply take_drop.
    + simpl. rewrite drop_ge; [done|lia].
Qed.

Lemma iterate_chunks_concat l size chunks :
  1 <= size -> _iterate_chunks l size = Ok chunks -> concat chunks = l.
Proof.
  intros Hsize. unfold _iterate_chunks, py_range.
  destruct (Z.eqb_spec size 0); [lia|]. destruct (Z.ltb_spec 0 size); [|lia].
  intros [= <-]. rewrite concat_slices_range_up; [done|lia|lia|lia].
Qed.

Lemma iterate_chunks_total l size :
  1 <= size -> exists chunks, _iterate_chunks l size = Ok chunks.
Proof.
  intros Hsize. unfold _iterate_chunks, py_range.
  destruct (Z.eqb_spec size 0); [lia|]. destruct (Z.ltb_spec 0 size); [|lia]. eauto.
Qed.

Lemma iterate_chunk_indices_total l size :
  1 <= size -> exists ranges, _iterate_chunk_indices l size = Ok ranges.
Proof.
  intros Hsize. unfold _iterate_chunk_indices, py_range.
  destruct (Z.eqb_spec size 0); [lia|]. destruct (Z.ltb_spec 0 size); [|lia]. eauto.
Qed.

(** The index ranges of the distributed path cut the same slices as the
    chunks of the sequential path for the same chunk size. *)
Lemma iterate_chunk_indices_slices l size ranges :
  1 <= size -> _iterate_chunk_indices l size = Ok ranges ->
  _iterate_chunks l size = Ok (map (fun idx => py_slice l (fst idx) (snd idx)) ranges).
Proof.
  intros Hsize. unfold _iterate_chunk_indices, _iterate_chunks, py_range.
  destruct (Z.eqb_spec size 0); [lia|]. destruct (Z.ltb_spec 0 size); [|lia].
  intros [= <-]. f_equal. rewrite map_map. apply map_ext_in.
  intros c Hc%list_elem_of_In%range_up_bounds; [|lia]. simpl.
  rewrite py_slice_min; [done|lia|lia].
Qed.

Lemma iterate_chunk_indices_concat l size ranges :
  1 <= size -> _iterate_chunk_indices l size = Ok ranges ->
  concat (map (fun idx => py_slice l (fst idx) (snd idx)) ranges) = l.
Proof.
  intros Hsize Hr. eapply iterate_chunks_concat; [done|].
  by apply iterate_chunk_indices_slices.
Qed.


Lemma ceil_div_pos n w : 1 <= n -> 1 <= w -> 1 <= ceil_div n w.
Proof.
  intros Hn Hw. unfold ceil_div.
  assert (- n / w < 0); [|lia].
  apply Z.div_lt_upper_bound; lia.
Qed.




End PlannerFacts.

(** ** The per-chunk worker *)

Section WorkerFacts.
Context `{E : Externals}.
Implicit Types (orbits : FittedOrbits) (orbit_members : option FittedOrbitMembers)
  (observations : option Observations) (params : Params) (db : PrecoveryDatabase)
  (st : store) (acc : Quad).

Lemma call_ipod_run orbit_id orbit obs params db st :
  call_ipod orbit_id orbit obs params db st =
  match ipod orbit obs params db with
  | Ok t => (st, [EvIpod orbit obs], Ok (quad_of_tuple t))
  | Raise e => (st, [EvIpod orbit obs; EvLogError orbit_id e; EvPrint orbit_id e], Raise e)
  end.
Proof.
  unfold call_ipod, try_except, bind, emit, lift_result, ret, raise.
  by destruct (ipod orbit obs params db).
Qed.

(** One round of the worker loop. *)
Lemma ipod_worker_loop_cons orbit_id rest orbits orbit_members observations params db acc st :
  ipod_worker_loop (orbit_id :: rest) orbits orbit_members observations params db acc st =
  match refine orbits orbit_members observations params db orbit_id with
  | Ok t =>
      match ipod_worker_loop rest orbits orbit_members observations params db
              (merge acc (quad_of_tuple t)) st with
      | (st', tr, r) =>
          (st', ipod_event orbits orbit_members observations orbit_id :: tr, r)
      end
  | Raise e =>
      (st, [ipod_event orbits orbit_members observations orbit_id;
            EvLogError orbit_id e; EvPrint orbit_id e], Raise e)
  end.
Proof.
  simpl. unfold bind at 1. rewrite call_ipod_run. unfold refine, ipod_event.
  destruct (ipod _ _ _ _); [|done].
  by destruct (ipod_worker_loop _ _ _ _ _ _ _ _) as [[??]?].
Qed.

(** The worker does not touch the object store. *)
Lemma ipod_worker_loop_store orbit_ids orbits orbit_members observations params db acc st :
  (ipod_worker_loop orbit_ids orbits orbit_members observations params db acc st).1.1 = st.
Proof.
  revert acc. induction orbit_ids as [|orbit_id rest IH]; intros acc; [done|].
  rewrite ipod_worker_loop_cons. destruct (refine _ _ _ _ _ _) as [t|e]; [|done].
  specialize (IH (merge acc (quad_of_tuple t))).
  by destruct (ipod_worker_loop _ _ _ _ _ _ _ _) as [[??]?].
Qed.

Lemma merge_empty_l acc : merge empty_quad acc = acc.
Proof. by destruct acc. Qed.

Lemma merge_empty_r acc : merge acc empty_quad = acc.
Proof. destruct acc. unfold merge. simpl. by rewrite !app_nil_r. Qed.

Lemma merge_assoc (q1 q2 q3 : Quad) : merge (merge q1 q2) q3 = merge q1 (merge q2 q3).
Proof. unfold merge. simpl. by rewrite <- !app_assoc. Qed.

Lemma batch_app orbits orbit_members observations params db (l1 l2 : list string) :
  batch orbits orbit_members observations params db (l1 ++ l2) =
  merge (batch orbits orbit_members observations params db l1)
        (batch orbits orbit_members observations params db l2).
Proof.
  induction l1 as [|x l1 IH]; simpl.
  - by rewrite merge_empty_l.
  - unfold batch in *. simpl. by rewrite IH, merge_assoc.
Qed.

(** A chunk either succeeds on every identifier or has a first failing one. *)
Lemma first_failure orbits orbit_members observations params db (orbit_ids : list string) :
  Forall (succeeds orbits orbit_members observations params db) orbit_ids \/
  exists pre orbit_id post e,
    orbit_ids = pre ++ orbit_id :: post /\
    Forall (succeeds orbits orbit_members observations params db) pre /\
    refine orbits orbit_members observations params db orbit_id = Raise e.
Proof.
  induction orbit_ids as [|x rest IH]; [by left|].
  destruct (refine orbits orbit_members observations params db x) as [t|e] eqn:Hx.
  - destruct IH as [IH|(pre & y & post & e & -> & Hpre & Hy)].
    + left. constructor; [by exists t|done].
    + right. exists (x :: pre), y, post, e. split_and!; [done| |done].
      constructor; [by exists t|done].
  - right. by exists [], x, rest, e.
Qed.

(** When the refinement routine returns for every identifier, the loop calls
    it once per identifier, in order, and returns the concatenated results. *)
Lemma ipod_worker_loop_ok orbit_ids orbits orbit_members observations params db acc st :
  Forall (succeeds orbits orbit_members observations params db) orbit_ids ->
  ipod_worker_loop orbit_ids orbits orbit_members observations params db acc st =
  (st, map (ipod_event orbits orbit_members observations) orbit_ids,
   Ok (merge acc (batch orbits orbit_members observations params db orbit_ids))).
Proof.
  intros Hok. revert acc. induction Hok as [|x rest [t Hx] _ IH]; intros acc.
  - simpl. unfold ret. by rewrite merge_empty_r.
  - rewrite ipod_worker_loop_cons, Hx, IH. simpl.
    unfold batch at 2, refined. simpl. rewrite Hx. by rewrite merge_assoc.
Qed.

(** At the first identifier for which the refinement routine raises, the
    loop logs and prints the failure with the identifier and raises: no later
    identifier is processed and there is no result. *)
Lemma ipod_worker_loop_raise pre orbit_id post e orbits orbit_members observations
    params db acc st :
  Forall (succeeds orbits orbit_members observations params db) pre ->
  refine orbits orbit_members observations params db orbit_id = Raise e ->
  ipod_worker_loop (pre ++ orbit_id :: post) orbits orbit_members observations params
    db acc st =
  (st, map (ipod_event orbits orbit_members observations) pre ++
       [ipod_event orbits orbit_members observations orbit_id;
        EvLogError orbit_id e; EvPrint orbit_id e],
   Raise e).
Proof.
  intros Hok He. revert acc. induction Hok as [|x rest [t Hx] _ IH]; intros acc.
  - simpl app. by rewrite ipod_worker_loop_cons, He.
  - simpl app. by rewrite ipod_worker_loop_cons, Hx, IH.
Qed.

Lemma ipod_worker_run orbit_ids orbits orbit_members observations params database st :
  ipod_worker orbit_ids orbits orbit_members observations params database st =
  match database with
  | DbDirectory dir =>
      match ipod_worker_loop orbit_ids orbits orbit_members observations params
              {| db_directory := dir |} empty_quad st with
      | (st', tr, r) => (st', EvWorker orbit_ids :: EvOpen dir :: tr, r)
      end
  | DbOpen db =>
      match ipod_worker_loop orbit_ids orbits orbit_members observations params
              db empty_quad st with
      | (st', tr, r) => (st', EvWorker orbit_ids :: tr, r)
      end
  end.
Proof.
  unfold ipod_worker, from_dir, bind, emit, ret.
  destruct database; by destruct (ipod_worker_loop _ _ _ _ _ _ _ _) as [[??][]].
Qed.

Lemma ipod_worker_remote_run orbit_ids idx orbits orbit_members observations params dir st :
  ipod_worker_remote orbit_ids idx orbits orbit_members observations params dir st =
  let chunk := py_slice orbit_ids (fst idx) (snd idx) in
  let db := {| db_directory := dir |} in
  match ipod_worker_loop chunk orbits orbit_members observations params db empty_quad st with
  | (st', tr, Ok q) => (st', EvOpen dir :: EvWorker chunk :: tr ++ [EvClose db], Ok q)
  | (st', tr, Raise e) => (st', EvOpen dir :: EvWorker chunk :: tr, Raise e)
  end.
Proof.
  unfold ipod_worker_remote. unfold bind at 1. unfold from_dir at 1.
  unfold bind at 1, emit at 1, ret at 1. simpl.
  unfold bind at 1. rewrite ipod_worker_run.
  destruct (ipod_worker_loop _ _ _ _ _ _ _ _) as [[st' tr] [q|e]]; [|done].
  unfold bind, emit, ret. by simpl.
Qed.

(** The loop itself neither opens nor closes a database. *)
Lemma ipod_worker_loop_no_handle orbit_ids orbits orbit_members observations params db acc st :
  Forall (fun ev => is_open ev = false /\ is_close ev = false)
    (ipod_worker_loop orbit_ids orbits orbit_members observations params db acc st).1.2.
Proof.
  revert acc. induction orbit_ids as [|x rest IH]; intros acc; [by constructor|].
  rewrite ipod_worker_loop_cons. destruct (refine _ _ _ _ _ _) as [t|e].
  - specialize (IH (merge acc (quad_of_tuple t))).
    destruct (ipod_worker_loop _ _ _ _ _ _ _ _) as [[??]?]. simpl in *.
    by constructor.
  - simpl. by repeat constructor.
Qed.

Lemma count_app p (tr1 tr2 : list event) : count p (tr1 ++ tr2) = (count p tr1 + count p tr2)%nat.
Proof. unfold count. by rewrite List.filter_app, length_app. Qed.

Lemma count_cons p ev (tr : list event) :
  count p (ev :: tr) = ((if p ev then 1 else 0) + count p tr)%nat.
Proof. unfold count. simpl. by destruct (p ev). Qed.

Lemma count_none p (tr : list event) : Forall (fun ev => p ev = false) tr -> count p tr = 0%nat.
Proof.
  induction 1 as [|ev tr Hev _ IH]; [done|]. by rewrite count_cons, Hev, IH.
Qed.

Lemma ipod_worker_loop_handle_counts orbit_ids orbits orbit_members observations params
    db acc st st' tr r :
  ipod_worker_loop orbit_ids orbits orbit_members observations params db acc st
    = (st', tr, r) ->
  count is_open tr = 0%nat /\ count is_close tr = 0%nat.
Proof.
  intros Hrun.
  pose proof (ipod_worker_loop_no_handle orbit_ids orbits orbit_members observations
    params db acc st) as Hloop.
  rewrite Hrun in Hloop. simpl in Hloop.
  split; apply count_none; (eapply Forall_impl; [exact Hloop|]); by intros ? [??].
Qed.

(** On success the remote worker opens the database once and closes it once. *)
Lemma ipod_worker_remote_closes_on_success orbit_ids idx orbits orbit_members
    observations params dir st st' tr q :
  ipod_worker_remote orbit_ids idx orbits orbit_members observations params dir st
    = (st', tr, Ok q) ->
  count is_open tr = 1%nat /\ count is_close tr = 1%nat.
Proof.
  rewrite ipod_worker_remote_run. simpl.
  destruct (ipod_worker_loop _ _ _ _ _ _ _ _) as [[st1 tr1] [q1|e1]] eqn:Hloop; [|done].
  apply ipod_worker_loop_handle_counts in Hloop as [Ho Hc].
  intros [= <- <- <-].
  rewrite !count_cons, !count_app, !count_cons, Ho, Hc. done.
Qed.

(** Called with a directory, as on the sequential path, the worker opens a
    database and never closes it. *)
Lemma ipod_worker_directory_never_closes orbit_ids orbits orbit_members observations
    params dir st :
  let tr := (ipod_worker orbit_ids orbits orbit_members observations params
               (DbDirectory dir) st).1.2 in
  count is_open tr = 1%nat /\ count is_close tr = 0%nat.
Proof.
  rewrite ipod_worker_run.
  destruct (ipod_worker_loop _ _ _ _ _ _ _ _) as [[st1 tr1] r1] eqn:Hloop.
  apply ipod_worker_loop_handle_counts in Hloop as [Ho Hc]. simpl.
  rewrite !count_cons, Ho, Hc. done.
Qed.

(** C2 (the code does not do this): a chunk task opens one read-only handle
    to the precovery index and closes it once on every exit path.  When the
    refinement of an item raises, [ipod_worker_remote] has opened its handle
    once and leaves without closing it: the close after the call of
    [ipod_worker] is not reached. *)
Theorem ipod_worker_remote_leaks_on_failure orbit_ids idx orbits orbit_members
    observations params dir st st' tr e :
  ipod_worker_remote orbit_ids idx orbits orbit_members observations params dir st
    = (st', tr, Raise e) ->
  count is_open tr = 1%nat /\ count is_close tr = 0%nat.
Proof.
  rewrite ipod_worker_remote_run. simpl.
  destruct (ipod_worker_loop _ _ _ _ _ _ _ _) as [[st1 tr1] [q1|e1]] eqn:Hloop; [done|].
  apply ipod_worker_loop_handle_counts in Hloop as [Ho Hc].
  intros [= <- <- <-].
  rewrite !count_cons, Ho, Hc. done.
Qed.

End WorkerFacts.

(** ** The dispatcher *)

Section DispatcherFacts.
Context `{E : Externals} `{R : Runtime}.
Implicit Types (st : store) (futures : list Task) (totals : Quad).

Lemma ray_wait_run futures st :
  futures <> [] ->
  exists i t, futures !! i = Some t /\
    ray_wait futures st = (st, [EvWait t], Ok (t, delete i futures)).
Proof.
  intros Hne. unfold ray_wait.
  set (i := (ray_wait_ready (map t_indices futures) mod length futures)%nat).
  assert (i < length futures)%nat as Hi.
  { apply Nat.mod_upper_bound. by destruct futures. }
  apply lookup_lt_is_Some in Hi as [t Ht]. exists i, t. by rewrite Ht.
Qed.

Lemma wait_and_merge_run futures totals st :
  futures <> [] ->
  exists i t, futures !! i = Some t /\
    wait_and_merge futures totals st =
    (st, [EvWait t; EvGetResult t],
     match (run_task st t).2 with
     | Ok q => Ok (delete i futures, merge totals q)
     | Raise e => Raise e
     end).
Proof.
  intros (i & t & Ht & Hrun)%(ray_wait_run _ st). exists i, t. split; [done|].
  unfold wait_and_merge, bind at 1. rewrite Hrun.
  unfold ray_get_result, bind, emit, ret. simpl.
  by destruct (run_task st t).2.
Qed.

(** Every run of the submission loop is a [submit_run], and leaves the
    object store as it was. *)
Lemma submit_loop_run st mk w chunks futures totals :
  exists tr r,
    submit_loop chunks mk w futures totals st = (st, tr, r) /\
    submit_run st mk w chunks futures totals tr r.
Proof.
  revert futures totals. induction chunks as [|idx rest IH]; intros futures totals.
  - eexists _, _. split; [done|]. constructor.
  - simpl. unfold bind at 1, submit, bind at 1, emit, ret. simpl.
    destruct (at_capacity (futures ++ [mk idx]) w) eqn:Hcap.
    + destruct (wait_and_merge_run (futures ++ [mk idx]) totals st)
        as (i & t & Ht & Hrun); [by destruct futures|].
      unfold bind. rewrite Hrun.
      destruct (run_task st t).2 as [q|e] eqn:Hq; simpl.
      * destruct (IH (delete i (futures ++ [mk idx])) (merge totals q))
          as (tr & r & -> & Hsub).
        eexists _, _. split; [done|]. simpl. by eapply submit_run_merge.
      * eexists _, _. split; [done|]. simpl. by eapply submit_run_raise.
    + destruct (IH (futures ++ [mk idx]) totals) as (tr & r & -> & Hsub).
      eexists _, _. split; [done|]. by eapply submit_run_below.
Qed.

(** Every run of the drain loop with enough rounds is a [drain_run]. *)
Lemma drain_loop_run st rounds futures totals :
  (length futures <= rounds)%nat ->
  exists tr r,
    drain_loop rounds futures totals st = (st, tr, r) /\
    drain_run st futures totals tr r.
Proof.
  revert futures totals. induction rounds as [|rounds IH]; intros futures totals Hlen.
  - destruct futures; [|simpl in Hlen; lia].
    eexists _, _. split; [done|]. constructor.
  - destruct futures as [|t0 futures'].
    { eexists _, _. split; [done|]. constructor. }
    cbn [drain_loop].
    destruct (wait_and_merge_run (t0 :: futures') totals st)
      as (i & t & Ht & Hrun); [done|].
    unfold bind. rewrite Hrun.
    destruct (run_task st t).2 as [q|e] eqn:Hq; simpl.
    + destruct (IH (delete i (t0 :: futures')) (merge totals q))
        as (tr & r & -> & Hsub).
      { rewrite length_delete by (by eexists). simpl in *. lia. }
      eexists _, _. split; [done|]. simpl. by eapply drain_run_merge.
    + eexists _, _. split; [done|]. simpl. by eapply drain_run_raise.
Qed.

(** *** The bound on the outstanding tasks *)

Lemma in_flight_cap_spec (n w : Z) : n < in_flight_cap w <-> 2 * n < 3 * w.
Proof. unfold in_flight_cap. Z.div_mod_to_equations. lia. Qed.

Lemma at_capacity_false futures w :
  at_capacity futures w = false <-> Z.of_nat (length futures) < in_flight_cap w.
Proof.
  rewrite in_flight_cap_spec. unfold at_capacity.
  destruct (Z.leb_spec (3 * w) (2 * Z.of_nat (length futures))); split; (done || lia).
Qed.

Lemma outstanding_nil : outstanding [] = 0.
Proof. done. Qed.

Lemma outstanding_cons ev (tr : list event) :
  outstanding (ev :: tr) = in_flight_delta ev + outstanding tr.
Proof.
  unfold outstanding, in_flight_delta. rewrite !count_cons.
  destruct ev; simpl; lia.
Qed.







Lemma outstanding_idle (tr : list event) : Forall idle tr -> outstanding tr = 0.
Proof.
  induction 1 as [|ev tr [Hs Hw] _ IH]; [done|].
  rewrite outstanding_cons, IH. unfold in_flight_delta. by rewrite Hs, Hw.
Qed.






(** *** The events of the loops *)

Lemma submit_run_events st mk w chunks futures totals tr r :
  submit_run st mk w chunks futures totals tr r ->
  Forall (fun ev => (exists idx, idx ∈ chunks /\ ev = EvSubmit (mk idx)) \/
                    (exists t, ev = EvWait t) \/ (exists t, ev = EvGetResult t)) tr.
Proof.
  induction 1 as [futures totals
                 |idx rest futures totals tr r Hcap _ IH
                 |idx rest futures totals i t q tr r Hcap Ht Hq _ IH
                 |idx rest futures totals i t e Hcap Ht Hq].
  - constructor.
  - constructor; [left; exists idx; split; [by left|done]|].
    eapply Forall_impl; [exact IH|]. intros ev [(j & Hj & ->)|Hev]; [|by right].
    left. exists j. split; [by right|done].
  - constructor; [left; exists idx; split; [by left|done]|].
    constructor; [right; left; eauto|]. constructor; [right; right; eauto|].
    eapply Forall_impl; [exact IH|]. intros ev [(j & Hj & ->)|Hev]; [|by right].
    left. exists j. split; [by right|done].
  - constructor; [left; exists idx; split; [by left|done]|].
    constructor; [right; left; eauto|]. constructor; [right; right; eauto|].
    constructor.
Qed.

Lemma drain_run_events st futures totals tr r :
  drain_run st futures totals tr r ->
  Forall (fun ev => (exists t, ev = EvWait t) \/ (exists t, ev = EvGetResult t)) tr.
Proof.
  induction 1; repeat (constructor; eauto).
Qed.



End DispatcherFacts.

(** ** The object store: reading inputs back and placing them *)

Section StoreFacts.
Context `{E : Externals}.
Implicit Types (st : store).

Lemma bind_run {A B} (m : M A) (f : A -> M B) st :
  bind m f st =
  match m st with
  | (st1, tr1, Ok a) =>
      match f a st1 with
      | (st2, tr2, r) => (st2, tr1 ++ tr2, r)
      end
  | (st1, tr1, Raise e) => (st1, tr1, Raise e)
  end.
Proof. done. Qed.

Lemma ray_put_run o st :
  ray_put o st = (<[fresh (dom st) := o]> st, [EvPut (fresh (dom st)) o],
                  Ok (fresh (dom st))).
Proof. done. Qed.

Lemma fresh_not_in_store st : st !! fresh (dom st) = None.
Proof. apply not_elem_of_dom, is_fresh. Qed.

Lemma lookup_foldr_delete st (rs : list ref) r :
  r ∉ rs -> foldr delete st rs !! r = st !! r.
Proof.
  induction rs as [|r' rs IH]; [done|]. intros Hr. simpl.
  rewrite lookup_delete_ne by set_solver. apply IH. set_solver.
Qed.

Section Codec.
Context {A : Type} (wrap : A -> obj) (cast : ref -> obj -> result A).
Hypothesis cast_wrap : forall r v, cast r (wrap v) = Ok v.
Hypothesis cast_inv : forall r o v, cast r o = Ok v -> o = wrap v.

Lemma ray_get_as_run st r v :
  st !! r = Some (wrap v) -> ray_get_as cast r st = (st, [EvGet r], Ok v).
Proof.
  intros Hr. unfold ray_get_as, bind, ray_get, lift_result. rewrite Hr.
  by rewrite cast_wrap.
Qed.

(** Reading an input back leaves the store alone and emits at most the
    [ray.get] of the reference; it raises unless the reference holds a table
    of the right kind. *)
Lemma resolve_run st (x : input A) :
  (exists v, holds wrap st x v /\
     resolve cast x st = (st, read_back x, Ok (given_ref x, v))) \/
  (exists e, (forall v, ~ holds wrap st x v) /\
     resolve cast x st = (st, read_back x, Raise e)).
Proof.
  destruct x as [a|r]; simpl.
  - left. by exists a.
  - unfold bind, ray_get_as, bind, ray_get, lift_result, ret.
    destruct (st !! r) as [o|] eqn:Hr; [|right; eexists; split; [|done]; congruence].
    destruct (cast r o) as [v|e] eqn:Hc.
    + left. exists v. by rewrite (cast_inv _ _ _ Hc).
    + right. eexists. split; [|done]. intros v [= ->]. rewrite cast_wrap in Hc. done.
Qed.

Lemma resolve_optional_run st (x : option (input A)) :
  (exists v, holds_optional wrap st x v /\
     resolve_optional cast x st
     = (st, read_back_optional x, Ok (given_ref_optional x, v))) \/
  (exists e, (forall v, ~ holds_optional wrap st x v) /\
     resolve_optional cast x st = (st, read_back_optional x, Raise e)).
Proof.
  destruct x as [[a|r]|]; simpl.
  - left. by exists (Some a).
  - unfold bind, ray_get_as, bind, ray_get, lift_result, ret.
    destruct (st !! r) as [o|] eqn:Hr.
    2:{ right. eexists. split; [|done]. intros [v|]; simpl; [congruence|tauto]. }
    destruct (cast r o) as [v|e] eqn:Hc.
    + left. exists (Some v). by rewrite (cast_inv _ _ _ Hc).
    + right. eexists. split; [|done]. intros [v|]; simpl; [|tauto].
      intros [= ->]. rewrite cast_wrap in Hc. done.
  - left. by exists None.
Qed.

Lemma resolve_ok st (x : input A) v :
  holds wrap st x v -> resolve cast x st = (st, read_back x, Ok (given_ref x, v)).
Proof.
  destruct x as [a|r]; simpl; [by intros ->|]. intros Hr.
  rewrite bind_run, (ray_get_as_run _ _ v) by done. done.
Qed.

Lemma resolve_optional_ok st (x : option (input A)) v :
  holds_optional wrap st x v ->
  resolve_optional cast x st
  = (st, read_back_optional x, Ok (given_ref_optional x, v)).
Proof.
  destruct x as [[a|r]|], v as [b|]; simpl; try done; [by intros ->|]. intros Hr.
  rewrite bind_run, (ray_get_as_run _ _ b) by done. done.
Qed.

Lemma holds_given st (x : input A) v r :
  holds wrap st x v -> given_ref x = Some r -> st !! r = Some (wrap v).
Proof. destruct x; simpl; [done|]. by intros ? [= ->]. Qed.

Lemma holds_optional_given st (x : option (input A)) v r :
  holds_optional wrap st x v -> given_ref_optional x = Some r ->
  exists a, v = Some a /\ st !! r = Some (wrap a).
Proof.
  destruct x as [[a|r']|], v as [b|]; simpl; try done.
  intros ? [= ->]. eauto.
Qed.

Lemma place_run given v refs st :
  place wrap cast given v refs st =
  match given with
  | None =>
      let r := fresh (dom st) in
      (<[r := wrap v]> st, [EvPut r (wrap v); EvGet r], Ok (r, v, refs ++ [r]))
  | Some r => (st, [], Ok (r, v, refs))
  end.
Proof.
  destruct given as [r|]; [done|]. unfold place, bind at 1. rewrite ray_put_run.
  unfold bind. rewrite (ray_get_as_run _ _ v) by apply lookup_insert_eq. done.
Qed.

Lemma place_optional_run given v refs st :
  place_optional wrap cast given v refs st =
  match given, v with
  | None, Some a =>
      let r := fresh (dom st) in
      (<[r := wrap a]> st, [EvPut r (wrap a); EvGet r], Ok (Some r, Some a, refs ++ [r]))
  | _, _ => (st, [], Ok (given, v, refs))
  end.
Proof.
  destruct given as [r|], v as [a|]; try done.
  unfold place_optional, bind at 1. rewrite ray_put_run.
  unfold bind. rewrite (ray_get_as_run _ _ a) by apply lookup_insert_eq. done.
Qed.

End Codec.

Lemma as_ids_wrap r v : as_ids r (OIds v) = Ok v.
Proof. done. Qed.
Lemma as_orbits_wrap r v : as_orbits r (OOrbits v) = Ok v.
Proof. done. Qed.
Lemma as_members_wrap r v : as_members r (OMembers v) = Ok v.
Proof. done. Qed.
Lemma as_observations_wrap r v : as_observations r (OObservations v) = Ok v.
Proof. done. Qed.
Lemma as_orbits_inv r o v : as_orbits r o = Ok v -> o = OOrbits v.
Proof. destruct o; simpl; congruence. Qed.
Lemma as_members_inv r o v : as_members r o = Ok v -> o = OMembers v.
Proof. destruct o; simpl; congruence. Qed.
Lemma as_observations_inv r o v : as_observations r o = Ok v -> o = OObservations v.
Proof. destruct o; simpl; congruence. Qed.

Local Ltac fresh_facts :=
  repeat match goal with
  | H : <[_ := _]> _ !! _ = None |- _ => apply lookup_insert_None in H as [? ?]
  end.

Local Ltac store_lookup :=
  repeat first
    [ rewrite lookup_insert_eq
    | rewrite lookup_insert_ne by congruence ];
  try done.

Local Ltac store_grows :=
  repeat first
    [ reflexivity
    | (etrans; [|apply insert_subseteq; fresh_facts; store_lookup]) ].

Lemma place_inputs_run orbit_ids orbits_ref orbits orbit_members_ref orbit_members
    observations_ref observations st :
  exists st' tr pl,
    place_inputs orbit_ids orbits_ref orbits orbit_members_ref orbit_members
      observations_ref observations st = (st', tr, Ok pl) /\
    placed_ok st orbit_ids orbits_ref orbits orbit_members_ref orbit_members
      observations_ref observations st' tr pl.
Proof.
  unfold place_inputs. unfold bind at 1. rewrite ray_put_run.
  pose proof (fresh_not_in_store st) as H0. revert H0.
  generalize (fresh (dom st)). intros r0 H0.
  unfold bind at 1.
  rewrite (ray_get_as_run OIds as_ids as_ids_wrap _ r0 orbit_ids)
    by apply lookup_insert_eq.
  unfold bind at 1. rewrite (place_run OOrbits as_orbits as_orbits_wrap).
  set (st0 := <[r0 := OIds orbit_ids]> st) in *.
  destruct orbits_ref as [ro|]; cbn zeta.
  - unfold bind at 1. rewrite (place_optional_run OMembers as_members as_members_wrap).
    destruct orbit_members_ref as [rm|], orbit_members as [vm|]; cbn zeta;
      try (pose proof (fresh_not_in_store st0) as H1; revert H1;
           generalize (fresh (dom st0)); intros r1 H1);
      (unfold bind at 1;
       rewrite (place_optional_run OObservations as_observations as_observations_wrap);
       destruct observations_ref as [rb|], observations as [vb|]; cbn zeta;
       try match goal with
           | |- context [fresh (dom ?m)] =>
               let H := fresh "H2" in
               pose proof (fresh_not_in_store m) as H; revert H;
               generalize (fresh (dom m)); intros r2 H
           end);
      unfold ret; simpl; subst st0;
      (eexists _, _, _; split; [reflexivity|]);
      (split; simpl; try done; try congruence; eauto;
       try (fresh_facts; store_lookup; fail);
       try (by repeat constructor);
       try (by store_grows);
       try (by left);
       try (repeat constructor; fresh_facts; done);
       try (intros _; eexists; split; [done|]; fresh_facts; store_lookup; fail)).
  - pose proof (fresh_not_in_store st0) as Ho. revert Ho.
    generalize (fresh (dom st0)). intros ro Ho.
    set (st1 := <[ro := OOrbits orbits]> st0) in *.
    unfold bind at 1. rewrite (place_optional_run OMembers as_members as_members_wrap).
    destruct orbit_members_ref as [rm|], orbit_members as [vm|]; cbn zeta;
      try (pose proof (fresh_not_in_store st1) as H1; revert H1;
           generalize (fresh (dom st1)); intros r1 H1);
      (unfold bind at 1;
       rewrite (place_optional_run OObservations as_observations as_observations_wrap);
       destruct observations_ref as [rb|], observations as [vb|]; cbn zeta;
       try match goal with
           | |- context [fresh (dom ?m)] =>
               let H := fresh "H2" in
               pose proof (fresh_not_in_store m) as H; revert H;
               generalize (fresh (dom m)); intros r2 H
           end);
      unfold ret; simpl; subst st1 st0;
      (eexists _, _, _; split; [reflexivity|]);
      (split; simpl; try done; try congruence; eauto;
       try (fresh_facts; store_lookup; fail);
       try (by repeat constructor);
       try (by store_grows);
       try (by left);
       try (repeat constructor; fresh_facts; done);
       try (intros _; eexists; split; [done|]; fresh_facts; store_lookup; fail)).
Qed.

End StoreFacts.

(** ** The two paths of the driver *)

Section PathFacts.
Context `{E : Externals} `{R : Runtime}.
Implicit Types (st : store).

Lemma dispatch_loop_run st pl params dir chunk_size max_processes :
  exists tr r,
    dispatch pl params dir chunk_size max_processes st = (st, tr, r) /\
    dispatch_run st pl params dir chunk_size max_processes tr r.
Proof.
  unfold dispatch. unfold bind at 1, lift_result at 1.
  destruct (effective_chunk_size _ _ _) as [size|e] eqn:Hsize.
  2:{ eexists _, _. split; [done|]. by apply dispatch_run_no_size. }
  unfold bind at 1, lift_result at 1.
  destruct (_iterate_chunk_indices _ _) as [chunks|e] eqn:Hchunks.
  2:{ eexists _, _. split; [done|]. by eapply dispatch_run_no_chunks. }
  destruct (submit_loop_run st (mk_task pl params dir) max_processes chunks []
              empty_quad) as (tr1 & r1 & Hrun1 & Hsub).
  unfold bind at 1. rewrite Hrun1. destruct r1 as [[futures totals]|e].
  2:{ eexists _, _. split; [done|]. simpl. by eapply dispatch_run_submit_raise. }
  destruct (drain_loop_run st (length futures) futures totals)
    as (tr2 & r2 & Hrun2 & Hdrain); [done|].
  unfold bind at 1. simpl. rewrite Hrun2.
  eexists _, _. split; [|by eapply dispatch_run_drain].
  unfold ret. destruct r2 as [[??]|?]; simpl; by rewrite ?app_nil_r.
Qed.

(** The distributed path: placement, dispatch, and the release of what was
    placed when the dispatch returns. *)
Lemma distributed_path_run orbit_ids orbits_ref orbits orbit_members_ref orbit_members
    observations_ref observations params dir chunk_size max_processes st :
  exists st1 tr1 pl tr2 r,
    placed_ok st orbit_ids orbits_ref orbits orbit_members_ref orbit_members
      observations_ref observations st1 tr1 pl /\
    dispatch_run st1 pl params dir chunk_size max_processes tr2 r /\
    distributed_path orbit_ids orbits_ref orbits orbit_members_ref orbit_members
      observations_ref observations params dir chunk_size max_processes st =
    match r with
    | Ok q => (foldr delete st1 (p_refs_to_free pl),
               tr1 ++ tr2 ++ [EvFree (p_refs_to_free pl)], Ok q)
    | Raise e => (st1, tr1 ++ tr2, Raise e)
    end.
Proof.
  destruct (place_inputs_run orbit_ids orbits_ref orbits orbit_members_ref
              orbit_members observations_ref observations st)
    as (st1 & tr1 & pl & Hplace & Hok).
  destruct (dispatch_loop_run st1 pl params dir chunk_size max_processes)
    as (tr2 & r & Hdispatch & Hrun).
  exists st1, tr1, pl, tr2, r. split_and!; [done..|].
  unfold distributed_path. unfold bind at 1. rewrite Hplace.
  unfold bind at 1. rewrite Hdispatch. destruct r as [q|e]; [|done].
  unfold bind, free_placed, ray_free, ret.
  destruct (placed_ids_first _ _ _ _ _ _ _ _ _ _ _ Hok) as [rest Hrest].
  rewrite (placed_refs _ _ _ _ _ _ _ _ _ _ _ Hok), Hrest. by simpl.
Qed.

Lemma ipod_worker_loop_events orbit_ids orbits orbit_members observations params db
    acc st :
  Forall (fun ev => is_worker_event ev = true)
    (ipod_worker_loop orbit_ids orbits orbit_members observations params db acc st).1.2.
Proof.
  revert acc. induction orbit_ids as [|x rest IH]; intros acc; [by constructor|].
  rewrite ipod_worker_loop_cons. destruct (refine _ _ _ _ _ _) as [t|e].
  - specialize (IH (merge acc (quad_of_tuple t))).
    destruct (ipod_worker_loop _ _ _ _ _ _ _ _) as [[??]?]. simpl in *.
    by constructor.
  - simpl. by repeat constructor.
Qed.

(** One round of the sequential loop. *)
Lemma sequential_loop_cons chunk rest orbits orbit_members observations params dir
    totals st :
  sequential_loop (chunk :: rest) orbits orbit_members observations params dir totals st =
  match ipod_worker_loop chunk orbits orbit_members observations params
          {| db_directory := dir |} empty_quad st with
  | (_, tr, Ok q) =>
      match sequential_loop rest orbits orbit_members observations params dir
              (merge totals q) st with
      | (st', tr', r) => (st', EvWorker chunk :: EvOpen dir :: tr ++ tr', r)
      end
  | (_, tr, Raise e) => (st, EvWorker chunk :: EvOpen dir :: tr, Raise e)
  end.
Proof.
  cbn [sequential_loop]. unfold bind at 1. rewrite ipod_worker_run.
  pose proof (ipod_worker_loop_store chunk orbits orbit_members observations params
    {| db_directory := dir |} empty_quad st) as Hst.
  destruct (ipod_worker_loop _ _ _ _ _ _ _ _) as [[st1 tr] [q|e]]; simpl in Hst;
    subst st1; [|done].
  by destruct (sequential_loop _ _ _ _ _ _ _ _) as [[??]?].
Qed.

Lemma sequential_loop_store chunks orbits orbit_members observations params dir totals st :
  (sequential_loop chunks orbits orbit_members observations params dir totals st).1.1 = st.
Proof.
  revert totals. induction chunks as [|chunk rest IH]; intros totals; [done|].
  rewrite sequential_loop_cons.
  destruct (ipod_worker_loop _ _ _ _ _ _ _ _) as [[st1 tr] [q|e]]; [|done].
  specialize (IH (merge totals q)).
  by destruct (sequential_loop _ _ _ _ _ _ _ _) as [[??]?].
Qed.

Lemma sequential_loop_events chunks orbits orbit_members observations params dir totals st :
  Forall (fun ev => is_worker_event ev = true)
    (sequential_loop chunks orbits orbit_members observations params dir totals st).1.2.
Proof.
  revert totals. induction chunks as [|chunk rest IH]; intros totals; [by constructor|].
  rewrite sequential_loop_cons.
  pose proof (ipod_worker_loop_events chunk orbits orbit_members observations params
    {| db_directory := dir |} empty_quad st) as Hev.
  destruct (ipod_worker_loop _ _ _ _ _ _ _ _) as [[st1 tr] [q|e]]; simpl in Hev.
  - specialize (IH (merge totals q)).
    destruct (sequential_loop _ _ _ _ _ _ _ _) as [[??]?]. simpl in *.
    repeat (constructor; [done|]). by apply Forall_app.
  - simpl. by repeat (constructor; [done|]).
Qed.

Lemma worker_chunks_worker_loop orbit_ids orbits orbit_members observations params db
    acc st :
  worker_chunks
    (ipod_worker_loop orbit_ids orbits orbit_members observations params db acc st).1.2
  = [].
Proof.
  revert acc. induction orbit_ids as [|x rest IH]; intros acc; [done|].
  rewrite ipod_worker_loop_cons. destruct (refine _ _ _ _ _ _) as [t|e]; [|done].
  specialize (IH (merge acc (quad_of_tuple t))).
  by destruct (ipod_worker_loop _ _ _ _ _ _ _ _) as [[??]?].
Qed.

Lemma worker_chunks_app (tr1 tr2 : list event) :
  worker_chunks (tr1 ++ tr2) = worker_chunks tr1 ++ worker_chunks tr2.
Proof. apply omap_app. Qed.

(** A sequential loop that comes to its end has entered the worker once per
    chunk, in order. *)
Lemma sequential_loop_chunks chunks orbits orbit_members observations params dir totals
    st st' tr q :
  sequential_loop chunks orbits orbit_members observations params dir totals st
    = (st', tr, Ok q) ->
  worker_chunks tr = chunks.
Proof.
  revert totals tr. induction chunks as [|chunk rest IH]; intros totals tr.
  - by intros [= <- <- <-].
  - rewrite sequential_loop_cons.
    pose proof (worker_chunks_worker_loop chunk orbits orbit_members observations params
      {| db_directory := dir |} empty_quad st) as Hw.
    destruct (ipod_worker_loop _ _ _ _ _ _ _ _) as [[st1 tr1] [q1|e]]; [|done].
    destruct (sequential_loop _ _ _ _ _ _ _ _) as [[st2 tr2] r2] eqn:Hrest.
    intros [= <- <- ->]. apply IH in Hrest. simpl in *.
    by rewrite worker_chunks_app, Hw, Hrest.
Qed.

(** The entry point up to the choice of the path: it reads the inputs back,
    one after the other, and raises at the first that cannot be read;
    it returns at once on an empty orbit table; otherwise it initialises the
    runtime and takes one of the two paths. *)
Lemma entry_point_run orbits orbit_members observations params dir chunk_size
    max_processes st :
  let run := iterative_precovery_and_differential_correction orbits orbit_members
               observations params dir chunk_size max_processes st in
  (exists e, (forall vo, ~ holds OOrbits st orbits vo) /\
     run = (st, read_back orbits, Raise e)) \/
  (exists e, (forall vm, ~ holds_optional OMembers st orbit_members vm) /\
     run = (st, read_back orbits ++ read_back_optional orbit_members, Raise e)) \/
  (exists e, (forall vb, ~ holds_optional OObservations st observations vb) /\
     run = (st, read_back orbits ++ read_back_optional orbit_members ++
                read_back_optional observations, Raise e)) \/
  (exists vo vm vb,
     holds OOrbits st orbits vo /\
     holds_optional OMembers st orbit_members vm /\
     holds_optional OObservations st observations vb /\
     let tr0 := read_back orbits ++ read_back_optional orbit_members ++
                read_back_optional observations in
     if (length vo =? 0)%nat then run = (st, tr0, Ok empty_quad)
     else
       let w := default cpu_count max_processes in
       exists st' tr r,
         run = (st', tr0 ++ EvInitRay w :: tr, r) /\
         (if initialize_use_ray w
          then distributed_path (map row_orbit_id vo) (given_ref orbits) vo
                 (given_ref_optional orbit_members) vm
                 (given_ref_optional observations) vb
                 params dir chunk_size w st
          else sequential_path (map row_orbit_id vo) vo vm vb params dir chunk_size st)
         = (st', tr, r)).
Proof.
  intros run. subst run. unfold iterative_precovery_and_differential_correction.
  rewrite bind_run.
  destruct (resolve_run OOrbits as_orbits as_orbits_wrap as_orbits_inv st orbits)
    as [(vo & Hvo & Hr)|(e & Hno & Hr)]; rewrite Hr.
  2:{ left. by exists e. }
  rewrite bind_run.
  destruct (resolve_optional_run OMembers as_members as_members_wrap as_members_inv
              st orbit_members) as [(vm & Hvm & Hr')|(e & Hno & Hr')]; rewrite Hr'.
  2:{ right. left. by exists e. }
  rewrite bind_run.
  destruct (resolve_optional_run OObservations as_observations as_observations_wrap
              as_observations_inv st observations)
    as [(vb & Hvb & Hr'')|(e & Hno & Hr'')]; rewrite Hr''.
  2:{ right. right. left. by exists e. }
  right. right. right. exists vo, vm, vb. split_and!; [done..|]. cbn [fst snd].
  destruct (length vo =? 0)%nat.
  - unfold ret. by rewrite !app_nil_r.
  - rewrite bind_run. unfold emit.
    match goal with
    | |- context [if ?b then ?x else ?y] =>
        destruct ((if b then x else y) st) as [[st' tr] r] eqn:Hpath
    end.
    exists st', tr, r. split; [|by destruct (initialize_use_ray _)].
    simpl. by rewrite <- !app_assoc.
Qed.

(** What is read back is read with [ray.get]. *)
Lemma read_back_events {A B C} (x : input A) (y : option (input B)) (z : option (input C)) :
  Forall (fun ev => is_get ev = true) (read_back x) /\
  Forall (fun ev => is_get ev = true) (read_back x ++ read_back_optional y) /\
  Forall (fun ev => is_get ev = true)
    (read_back x ++ read_back_optional y ++ read_back_optional z).
Proof. destruct x, y as [[]|], z as [[]|]; by repeat constructor. Qed.

End PathFacts.

(** ** The claims about the worker *)

Section WorkerClaims.
Context `{E : Externals}.

Lemma ipod_calls_app (tr1 tr2 : list event) :
  ipod_calls (tr1 ++ tr2) = ipod_calls tr1 ++ ipod_calls tr2.
Proof. apply List.filter_app. Qed.

Lemma ipod_calls_events orbits orbit_members observations (orbit_ids : list string) :
  ipod_calls (map (ipod_event orbits orbit_members observations) orbit_ids)
  = map (ipod_event orbits orbit_members observations) orbit_ids.
Proof. induction orbit_ids as [|x l IH]; [done|]. unfold ipod_calls in *. simpl. by rewrite IH. Qed.

Lemma ipod_calls_none (tr : list event) :
  Forall (fun ev => is_ipod ev = false) tr -> ipod_calls tr = [].
Proof.
  induction 1 as [|ev tr Hev _ IH]; [done|]. unfold ipod_calls in *. simpl.
  by rewrite Hev.
Qed.

(** The calls of the worker, from those of its loop. *)
Lemma ipod_worker_calls orbit_ids orbits orbit_members observations params database st :
  let db := match database with
            | DbDirectory dir => {| db_directory := dir |}
            | DbOpen db => db
            end in
  ipod_calls
    (ipod_worker orbit_ids orbits orbit_members observations params database st).1.2
  = ipod_calls
      (ipod_worker_loop orbit_ids orbits orbit_members observations params db
         empty_quad st).1.2 /\
  (ipod_worker orbit_ids orbits orbit_members observations params database st).2
  = (ipod_worker_loop orbit_ids orbits orbit_members observations params db
       empty_quad st).2.
Proof.
  cbv zeta. rewrite ipod_worker_run. destruct database as [dir|db];
    by destruct (ipod_worker_loop _ _ _ _ _ _ _ _) as [[??]?].
Qed.

(** The calls of the loop: one per identifier, in order, up to and with the
    first identifier for which the refinement routine raises. *)
Lemma ipod_worker_loop_calls orbit_ids orbits orbit_members observations params db acc
    st :
  let out := ipod_worker_loop orbit_ids orbits orbit_members observations params db
               acc st in
  exists processed rest,
    orbit_ids = processed ++ rest /\
    ipod_calls out.1.2 = map (ipod_event orbits orbit_members observations) processed /\
    (forall q, out.2 = Ok q -> rest = []) /\
    (forall e, out.2 = Raise e ->
       exists pre orbit_id,
         processed = pre ++ [orbit_id] /\
         Forall (succeeds orbits orbit_members observations params db) pre /\
         refine orbits orbit_members observations params db orbit_id = Raise e).
Proof.
  cbv zeta.
  destruct (first_failure orbits orbit_members observations params db orbit_ids)
    as [Hall|(pre & x & post & e & -> & Hpre & Hx)].
  - rewrite (ipod_worker_loop_ok _ _ _ _ _ _ _ _ Hall). cbn [fst snd].
    exists orbit_ids, []. rewrite app_nil_r, ipod_calls_events.
    split_and!; [done..|]. by intros e [=].
  - rewrite (ipod_worker_loop_raise _ _ _ _ _ _ _ _ _ _ _ Hpre Hx). cbn [fst snd].
    exists (pre ++ [x]), post. split_and!.
    + by rewrite <- app_assoc.
    + rewrite ipod_calls_app, ipod_calls_events, map_app. done.
    + by intros q [=].
    + intros e' [= <-]. by exists pre, x.
Qed.

Lemma calls_without_observations orbit_ids orbits orbit_members observations params
    database st :
  orbit_members = None \/ observations = None ->
  Forall (fun ev => forall orbit obs, ev = EvIpod orbit obs -> obs = None)
    (ipod_worker orbit_ids orbits orbit_members observations params database st).1.2.
Proof.
  intros Hnone.
  assert (forall orbit_id,
            orbit_observations_for orbit_members observations orbit_id = None) as Hobs.
  { intros orbit_id. destruct Hnone as [-> | ->]; [done|]. by destruct orbit_members. }
  assert (forall db acc,
    Forall (fun ev => forall orbit obs, ev = EvIpod orbit obs -> obs = None)
      (ipod_worker_loop orbit_ids orbits orbit_members observations params db acc st).1.2)
    as Hloop.
  { intros db. induction orbit_ids as [|x rest IH]; intros acc; [by constructor|].
    rewrite ipod_worker_loop_cons. unfold ipod_event. rewrite Hobs.
    destruct (refine _ _ _ _ _ _) as [t|e].
    - specialize (IH (merge acc (quad_of_tuple t))).
      destruct (ipod_worker_loop _ _ _ _ _ _ _ _) as [[??]?]. simpl in *.
      constructor; [by intros ?? [= _ <-]|done].
    - simpl. repeat constructor; by intros ?? [=]. }
  rewrite ipod_worker_run. destruct database as [dir|db].
  - specialize (Hloop {| db_directory := dir |} empty_quad).
    destruct (ipod_worker_loop _ _ _ _ _ _ _ _) as [[??]?]. simpl in *.
    repeat (constructor; [by intros ?? [=]|]). done.
  - specialize (Hloop db empty_quad).
    destruct (ipod_worker_loop _ _ _ _ _ _ _ _) as [[??]?]. simpl in *.
    repeat (constructor; [by intros ?? [=]|]). done.
Qed.

(** C6: when the membership table comes without the observation table, or
    the observation table without the membership table, the worker invokes
    the refinement routine with no observations for every identifier it
    processes: its calls are, in the order of the chunk, one call for each
    processed identifier with the rows selected for it and [None] for the
    observations.  The processed identifiers are all of the chunk when the
    worker returns, and those up to and with the one for which the routine
    raised when it raises; no call of the trace has observations. *)
Theorem co_occurrence_degradation orbit_ids orbits orbit_members observations params
    database st :
  orbit_members = None \/ observations = None ->
  let out := ipod_worker orbit_ids orbits orbit_members observations params database
               st in
  let db := match database with
            | DbDirectory dir => {| db_directory := dir |}
            | DbOpen db => db
            end in
  (exists processed rest,
     orbit_ids = processed ++ rest /\
     ipod_calls out.1.2
     = map (fun orbit_id => EvIpod (select_orbit orbits orbit_id) None) processed /\
     (forall q, out.2 = Ok q -> rest = []) /\
     (forall e, out.2 = Raise e ->
        exists pre orbit_id,
          processed = pre ++ [orbit_id] /\
          ipod (select_orbit orbits orbit_id) None params db = Raise e)) /\
  Forall (fun ev => forall orbit obs, ev = EvIpod orbit obs -> obs = None) out.1.2.
Proof.
  intros Hnone out db. subst out. split.
  2:{ by apply calls_without_observations. }
  assert (forall orbit_id,
            orbit_observations_for orbit_members observations orbit_id = None) as Hobs.
  { intros orbit_id. destruct Hnone as [-> | ->]; [done|]. by destruct orbit_members. }
  destruct (ipod_worker_calls orbit_ids orbits orbit_members observations params
              database st) as [-> ->]. fold db.
  destruct (ipod_worker_loop_calls orbit_ids orbits orbit_members observations params
              db empty_quad st)
    as (processed & rest & Hsplit & Hcalls & Hok & Hraise).
  exists processed, rest. split_and!; [done| |done|].
  - rewrite Hcalls. apply map_ext. intros orbit_id. unfold ipod_event.
    by rewrite Hobs.
  - intros e He. destruct (Hraise e He) as (pre & orbit_id & Hpre & _ & Hx).
    exists pre, orbit_id. split; [done|]. unfold refine in Hx. by rewrite Hobs in Hx.
Qed.

(** An identifier without a row in the candidate-orbit table is not an error
    of the worker's own.  The selection is empty, the refinement routine is
    called with it, and the loop is left exactly when that call raises; when
    it returns, the loop goes on to the next identifier with the returned
    pieces merged. *)
Lemma missing_row_reaches_refinement orbit_id rest orbits orbit_members observations
    params db acc st :
  (forall row, row ∈ orbits -> row_orbit_id row <> orbit_id) ->
  select_orbit orbits orbit_id = [] /\
  ipod_worker_loop (orbit_id :: rest) orbits orbit_members observations params db acc st =
  let obs := orbit_observations_for orbit_members observations orbit_id in
  match ipod [] obs params db with
  | Ok t =>
      match ipod_worker_loop rest orbits orbit_members observations params db
              (merge acc (quad_of_tuple t)) st with
      | (st', tr, r) => (st', EvIpod [] obs :: tr, r)
      end
  | Raise e => (st, [EvIpod [] obs; EvLogError orbit_id e; EvPrint orbit_id e], Raise e)
  end.
Proof.
  intros Hmissing.
  assert (select_orbit orbits orbit_id = []) as Hsel.
  { apply elem_of_nil_inv. intros row [Hid Hrow]%list_elem_of_filter.
    by apply (Hmissing row). }
  split; [done|].
  rewrite ipod_worker_loop_cons. unfold refine, ipod_event. by rewrite Hsel.
Qed.


End WorkerClaims.

(** ** The claims about the driver *)

Section DriverFacts.
Context `{E : Externals} `{R : Runtime}.
Implicit Types (st : store).

Local Ltac of_class H := eapply Forall_impl; [exact H|]; by intros [].

Lemma sequential_path_run orbit_ids orbits orbit_members observations params dir
    chunk_size st :
  sequential_path orbit_ids orbits orbit_members observations params dir chunk_size st =
  match _iterate_chunks orbit_ids chunk_size with
  | Ok chunks =>
      sequential_loop chunks orbits orbit_members observations params dir empty_quad st
  | Raise e => (st, [], Raise e)
  end.
Proof.
  unfold sequential_path. rewrite bind_run. unfold lift_result.
  destruct (_iterate_chunks orbit_ids chunk_size); [|done].
  by destruct (sequential_loop _ _ _ _ _ _ _ _) as [[??]?].
Qed.

Lemma sequential_path_events orbit_ids orbits orbit_members observations params dir
    chunk_size st :
  Forall (fun ev => is_worker_event ev = true)
    (sequential_path orbit_ids orbits orbit_members observations params dir
       chunk_size st).1.2.
Proof.
  rewrite sequential_path_run. destruct (_iterate_chunks _ _); [|by constructor].
  apply sequential_loop_events.
Qed.

Lemma sequential_path_store orbit_ids orbits orbit_members observations params dir
    chunk_size st :
  (sequential_path orbit_ids orbits orbit_members observations params dir
     chunk_size st).1.1 = st.
Proof.
  rewrite sequential_path_run. destruct (_iterate_chunks _ _); [|done].
  apply sequential_loop_store.
Qed.

Lemma dispatch_run_events st pl params dir chunk_size w tr r :
  dispatch_run st pl params dir chunk_size w tr r ->
  Forall (fun ev => is_dispatch_event ev = true) tr.
Proof.
  destruct 1 as [e He|size e Hsize He|size chunks tr e Hsize Hchunks Hs
                |size chunks tr1 futures totals tr2 r Hsize Hchunks Hs Hd];
    try by constructor.
  - apply submit_run_events in Hs. eapply Forall_impl; [exact Hs|].
    by intros ev [(?&?&->)|[[? ->]|[? ->]]].
  - apply submit_run_events in Hs. apply drain_run_events in Hd.
    apply Forall_app. split; (eapply Forall_impl; [eassumption|]).
    + by intros ev [(?&?&->)|[[? ->]|[? ->]]].
    + by intros ev [[? ->]|[? ->]].
Qed.

Lemma dispatch_run_submits st pl params dir chunk_size w tr r t :
  dispatch_run st pl params dir chunk_size w tr r ->
  EvSubmit t ∈ tr -> exists idx, t = mk_task pl params dir idx.
Proof.
  assert (forall chunks futures totals trs rs,
            submit_run st (mk_task pl params dir) w chunks futures totals trs rs ->
            EvSubmit t ∈ trs -> exists idx, t = mk_task pl params dir idx) as Hsub.
  { intros chunks futures totals trs rs Hs%submit_run_events Hin.
    rewrite Forall_forall in Hs.
    destruct (Hs _ Hin) as [(idx & _ & [= ->])|[[? [=]]|[? [=]]]]. eauto. }
  destruct 1 as [e He|size e Hsize He|size chunks tr e Hsize Hchunks Hs
                |size chunks tr1 futures totals tr2 r Hsize Hchunks Hs Hd].
  - by intros ?%elem_of_nil.
  - by intros ?%elem_of_nil.
  - by eapply Hsub.
  - intros [Hin|Hin]%elem_of_app; [by eapply Hsub|].
    apply drain_run_events in Hd. rewrite Forall_forall in Hd.
    by destruct (Hd _ Hin) as [[? [=]]|[? [=]]].
Qed.






End DriverFacts.

Section TraceFacts.
Context `{E : Externals}.

Lemma count_class (p q : event -> bool) (tr : list event) :
  (forall ev, q ev = true -> p ev = false) ->
  Forall (fun ev => q ev = true) tr -> count p tr = 0%nat.
Proof.
  intros Hpq Hq. apply count_none. eapply Forall_impl; [exact Hq|]. exact Hpq.
Qed.


Lemma put_refs_app (tr1 tr2 : list event) :
  put_refs (tr1 ++ tr2) = put_refs tr1 ++ put_refs tr2.
Proof. apply omap_app. Qed.

Lemma freed_refs_app (tr1 tr2 : list event) :
  freed_refs (tr1 ++ tr2) = freed_refs tr1 ++ freed_refs tr2.
Proof. unfold freed_refs. by rewrite omap_app, concat_app. Qed.



Lemma put_refs_none (tr : list event) :
  Forall (fun ev => is_store_access ev = false) tr -> put_refs tr = [].
Proof.
  induction 1 as [|ev tr Hev _ IH]; [done|]. by destruct ev.
Qed.

Lemma put_refs_gets (tr : list event) :
  Forall (fun ev => is_get ev = true) tr -> put_refs tr = [].
Proof.
  induction 1 as [|ev tr Hev _ IH]; [done|]. by destruct ev.
Qed.

Lemma freed_refs_none (tr : list event) :
  Forall (fun ev => is_not_free ev = true) tr -> freed_refs tr = [].
Proof.
  induction 1 as [|ev tr Hev _ IH]; [done|]. by destruct ev.
Qed.

Lemma not_freed_of_class (tr : list event) rs :
  Forall (fun ev => is_not_free ev = true) tr -> EvFree rs ∉ tr.
Proof.
  intros Htr Hin. rewrite Forall_forall in Htr. by specialize (Htr _ Hin).
Qed.

Lemma elem_of_put_refs (tr : list event) r :
  r ∈ put_refs tr <-> exists o, EvPut r o ∈ tr.
Proof.
  unfold put_refs. rewrite list_elem_of_omap. split.
  - intros ([] & Hin & Heq); simplify_eq. eauto.
  - intros [o Hin]. by exists (EvPut r o).
Qed.





Lemma not_submitted_of_class (q : event -> bool) (tr : list event) t :
  (forall ev, q ev = true -> is_submit ev = false) ->
  Forall (fun ev => q ev = true) tr -> EvSubmit t ∉ tr.
Proof.
  intros Hq Htr Hin. rewrite Forall_forall in Htr.
  specialize (Hq _ (Htr _ Hin)). done.
Qed.

Lemma cons_as_app {A} (x : A) (l : list A) : x :: l = [x] ++ l.
Proof. done. Qed.

Lemma holds_orbits_inj (st : store) (x : input FittedOrbits) v v' :
  holds OOrbits st x v -> holds OOrbits st x v' -> v = v'.
Proof. destruct x; simpl; congruence. Qed.


End TraceFacts.

(** ** The results of the two paths *)

Section ResultFacts.
Context `{E : Externals} `{R : Runtime}.
Implicit Types (st : store).

Lemma py_slice_subseteq {A} (l : list A) a b : py_slice l a b ⊆ l.
Proof.
  unfold py_slice. etrans; [apply subseteq_take|apply subseteq_drop].
Qed.

Lemma elem_of_concat {A} (x : A) (ls : list (list A)) :
  x ∈ concat ls <-> exists l, l ∈ ls /\ x ∈ l.
Proof.
  induction ls as [|l ls IH]; simpl.
  - split; [by intros ?%elem_of_nil|by intros (? & ?%elem_of_nil & _)].
  - rewrite elem_of_app, IH. split.
    + intros [Hx|(l' & Hl' & Hx)]; [exists l; split; [by left|done]|].
      exists l'. split; [by right|done].
    + intros (l' & [->|Hl']%elem_of_cons & Hx); [by left|]. right. eauto.
Qed.

(** The result of the worker loop on a chunk: the concatenated results when
    the refinement routine returns for every identifier, and otherwise what
    it raised for one of them. *)
Lemma ipod_worker_loop_result chunk orbits orbit_members observations params db st :
  let r := (ipod_worker_loop chunk orbits orbit_members observations params db
              empty_quad st).2 in
  (Forall (succeeds orbits orbit_members observations params db) chunk /\
   r = Ok (batch orbits orbit_members observations params db chunk)) \/
  (exists orbit_id e, orbit_id ∈ chunk /\
     refine orbits orbit_members observations params db orbit_id = Raise e /\
     r = Raise e).
Proof.
  intros r. subst r.
  destruct (first_failure orbits orbit_members observations params db chunk)
    as [Hok|(pre & orbit_id & post & e & -> & Hpre & He)].
  - left. split; [done|]. rewrite ipod_worker_loop_ok by done.
    simpl. by rewrite merge_empty_l.
  - right. exists orbit_id, e. split_and!; [|done|].
    + apply elem_of_app. right. by left.
    + by rewrite (ipod_worker_loop_raise _ _ _ e).
Qed.

(** A task placed by this run finds its arguments in the store, so its
    result is that of the worker loop on its chunk. *)
Lemma task_result st orbit_ids orbits_ref orbits orbit_members_ref orbit_members
    observations_ref observations st1 tra pl params dir idx :
  placed_ok st orbit_ids orbits_ref orbits orbit_members_ref orbit_members
    observations_ref observations st1 tra pl ->
  (forall r, orbits_ref = Some r -> st !! r = Some (OOrbits orbits)) ->
  (forall r, orbit_members_ref = Some r ->
     exists a, orbit_members = Some a /\ st !! r = Some (OMembers a)) ->
  (forall r, observations_ref = Some r ->
     exists a, observations = Some a /\ st !! r = Some (OObservations a)) ->
  (run_task st1 (mk_task pl params dir idx)).2 =
  (ipod_worker_loop (py_slice orbit_ids idx.1 idx.2) orbits orbit_members observations
     params {| db_directory := dir |} empty_quad st1).2.
Proof.
  intros Hok Ho Hm Hb.
  pose proof (placed_store _ _ _ _ _ _ _ _ _ _ _ Hok) as Hsub.
  assert (st1 !! p_orbits_ref pl = Some (OOrbits orbits)) as Ho1.
  { destruct orbits_ref as [r|].
    - rewrite (placed_orbits_given _ _ _ _ _ _ _ _ _ _ _ Hok r eq_refl).
      eapply lookup_weaken; [by apply Ho|done].
    - by apply (placed_orbits_new _ _ _ _ _ _ _ _ _ _ _ Hok). }
  assert (resolve_task_argument as_members st1 (p_members_ref pl) = Ok orbit_members)
    as Hm1.
  { destruct orbit_members_ref as [r|].
    - rewrite (placed_members_given _ _ _ _ _ _ _ _ _ _ _ Hok r eq_refl).
      destruct (Hm r eq_refl) as (a & -> & Ha). simpl.
      by rewrite (lookup_weaken _ _ _ _ Ha Hsub).
    - pose proof (placed_members_new _ _ _ _ _ _ _ _ _ _ _ Hok eq_refl) as Hnew.
      destruct (p_members_ref pl) as [r|]; simpl.
      + destruct Hnew as (a & -> & ->). done.
      + by rewrite Hnew. }
  assert (resolve_task_argument as_observations st1 (p_observations_ref pl)
          = Ok observations) as Hb1.
  { destruct observations_ref as [r|].
    - rewrite (placed_observations_given _ _ _ _ _ _ _ _ _ _ _ Hok r eq_refl).
      destruct (Hb r eq_refl) as (a & -> & Ha). simpl.
      by rewrite (lookup_weaken _ _ _ _ Ha Hsub).
    - pose proof (placed_observations_new _ _ _ _ _ _ _ _ _ _ _ Hok eq_refl) as Hnew.
      destruct (p_observations_ref pl) as [r|]; simpl.
      + destruct Hnew as (a & -> & ->). done.
      + by rewrite Hnew. }
  unfold run_task. cbn [mk_task t_orbit_ids_ref t_orbits_ref t_members_ref
    t_observations_ref t_indices t_params t_database_directory].
  rewrite Hm1, Hb1. cbn [resolve_task_argument].
  rewrite (placed_ids_ref _ _ _ _ _ _ _ _ _ _ _ Hok), Ho1. cbn [as_ids as_orbits].
  rewrite ipod_worker_remote_run. cbv zeta.
  by destruct (ipod_worker_loop _ _ _ _ _ _ _ _) as [[??][|]].
Qed.

(** *** Merging in any order of completion *)

Lemma concat_map_delete {X Y} (f : X -> list Y) (l : list X) i x :
  l !! i = Some x -> concat (map f l) ≡ₚ f x ++ concat (map f (delete i l)).
Proof.
  revert i. induction l as [|a l IH]; intros [|i]; simpl; try done.
  - by intros [= ->].
  - intros Hi. rewrite (IH _ Hi). apply Permutation_app_swap_app.
Qed.

Lemma elem_of_delete_or {X} (l : list X) i x y :
  l !! i = Some x -> y ∈ l -> y = x \/ y ∈ delete i l.
Proof.
  intros Hi Hy. rewrite (delete_Permutation _ _ _ Hi) in Hy.
  by apply elem_of_cons in Hy.
Qed.

Lemma elem_of_snoc_app {X} (l : list X) x rest y :
  y ∈ l ++ [x] -> y ∈ l ++ x :: rest.
Proof.
  intros [?|Hy%list_elem_of_singleton]%elem_of_app; apply elem_of_app; [by left|].
  right. subst. by left.
Qed.

Section Projection.
Context {X : Type} (proj : Quad -> list X).
Hypothesis proj_merge : forall a b, proj (merge a b) = proj a ++ proj b.
Hypothesis proj_empty : proj empty_quad = [].
Variables (st : store) (mk : Z * Z -> Task) (w : Z) (tq : Task -> Quad).

Lemma submit_run_ok chunks futures totals tr r :
  submit_run st mk w chunks futures totals tr r ->
  (forall t, t ∈ futures ++ map mk chunks -> (run_task st t).2 = Ok (tq t)) ->
  exists futures' totals',
    r = Ok (futures', totals') /\
    (forall t, t ∈ futures' -> t ∈ futures ++ map mk chunks) /\
    proj totals' ++ pending proj tq futures'
    ≡ₚ proj totals ++ pending proj tq futures ++ pending proj tq (map mk chunks).
Proof.
  induction 1 as [futures totals
                 |idx rest futures totals tr r Hcap _ IH
                 |idx rest futures totals i t q tr r Hcap Ht Hq _ IH
                 |idx rest futures totals i t e Hcap Ht Hq]; intros Hall.
  - exists futures, totals. split_and!; [done| |].
    + intros t Ht. apply elem_of_app. by left.
    + unfold pending. simpl. by rewrite app_nil_r.
  - destruct IH as (futures' & totals' & -> & Hsub & Hperm).
    { intros t Ht. apply Hall. rewrite <- app_assoc in Ht. exact Ht. }
    exists futures', totals'. split_and!; [done| |].
    + intros t Ht. apply Hsub in Ht. by rewrite <- app_assoc in Ht.
    + rewrite Hperm. unfold pending. rewrite map_app, concat_app. simpl.
      by rewrite app_nil_r, <- !app_assoc.
  - assert (t ∈ futures ++ map mk (idx :: rest)) as Hin.
    { apply list_elem_of_lookup_2 in Ht. simpl. by apply elem_of_snoc_app. }
    rewrite (Hall t Hin) in Hq. injection Hq as <-.
    destruct IH as (futures' & totals' & -> & Hsub & Hperm).
    { intros t' Ht'. apply Hall. apply elem_of_app in Ht' as [Ht'|Ht'].
      - apply list_elem_of_delete_inv in Ht'. simpl. by apply elem_of_snoc_app.
      - apply elem_of_app. right. by right. }
    exists futures', totals'. split_and!; [done| |].
    + intros t' Ht'. apply Hsub in Ht'. apply elem_of_app in Ht' as [Ht'|Ht'].
      * apply list_elem_of_delete_inv in Ht'. simpl. by apply elem_of_snoc_app.
      * apply elem_of_app. right. by right.
    + transitivity (proj totals ++ pending proj tq (futures ++ [mk idx]) ++
                    pending proj tq (map mk rest)).
      * rewrite Hperm, proj_merge. unfold pending at 3.
        rewrite (concat_map_delete (fun t => proj (tq t)) _ _ _ Ht).
        unfold pending. by rewrite <- !app_assoc.
      * unfold pending. rewrite map_app, concat_app. simpl.
        by rewrite app_nil_r, <- !app_assoc.
  - exfalso.
    assert (t ∈ futures ++ map mk (idx :: rest)) as Hin.
    { apply list_elem_of_lookup_2 in Ht. simpl. by apply elem_of_snoc_app. }
    by rewrite (Hall t Hin) in Hq.
Qed.

Lemma drain_run_ok futures totals tr r :
  drain_run st futures totals tr r ->
  (forall t, t ∈ futures -> (run_task st t).2 = Ok (tq t)) ->
  exists totals',
    r = Ok ([], totals') /\ proj totals' ≡ₚ proj totals ++ pending proj tq futures.
Proof.
  induction 1 as [totals
                 |futures totals i t q tr r Ht Hq _ IH
                 |futures totals i t e Ht Hq]; intros Hall.
  - exists totals. split; [done|]. unfold pending. simpl. by rewrite app_nil_r.
  - rewrite (Hall t (list_elem_of_lookup_2 _ _ _ Ht)) in Hq. injection Hq as <-.
    destruct IH as (totals' & -> & Hperm).
    { intros t' Ht'%list_elem_of_delete_inv. by apply Hall. }
    exists totals'. split; [done|]. rewrite Hperm, proj_merge. unfold pending.
    rewrite (concat_map_delete (fun t => proj (tq t)) futures _ _ Ht).
    by rewrite <- app_assoc.
  - exfalso. by rewrite (Hall t (list_elem_of_lookup_2 _ _ _ Ht)) in Hq.
Qed.

End Projection.

(** *** A failing task *)

Section Failure.
Variables (st : store) (mk : Z * Z -> Task) (w : Z).

Lemma drain_run_fails futures totals tr r :
  drain_run st futures totals tr r ->
  (exists t, t ∈ futures /\ fails st t) ->
  exists t e, t ∈ futures /\ (run_task st t).2 = Raise e /\ r = Raise e.
Proof.
  induction 1 as [totals
                 |futures totals i t q tr r Ht Hq _ IH
                 |futures totals i t e Ht Hq]; intros (t0 & Hin & [e0 He0]).
  - by apply elem_of_nil in Hin.
  - destruct (elem_of_delete_or _ _ _ _ Ht Hin) as [->|Hin']; [congruence|].
    destruct IH as (t' & e' & Hin'' & He' & ->); [exists t0; split; [done|by exists e0]|].
    exists t', e'. split_and!; [|done..]. by eapply list_elem_of_delete_inv.
  - exists t, e. split_and!; [|done..]. by eapply list_elem_of_lookup_2.
Qed.

Lemma submit_run_fails chunks futures totals tr r :
  submit_run st mk w chunks futures totals tr r ->
  (exists t, t ∈ futures ++ map mk chunks /\ fails st t) ->
  (exists t e, t ∈ futures ++ map mk chunks /\ (run_task st t).2 = Raise e /\
     r = Raise e) \/
  (exists futures' totals', r = Ok (futures', totals') /\
     (forall t, t ∈ futures' -> t ∈ futures ++ map mk chunks) /\
     exists t, t ∈ futures' /\ fails st t).
Proof.
  assert (forall (l : list Task) x rest, (l ++ [x]) ++ rest = l ++ x :: rest) as Happ
    by (intros; by rewrite <- app_assoc).
  induction 1 as [futures totals
                 |idx rest futures totals tr r Hcap _ IH
                 |idx rest futures totals i t q tr r Hcap Ht Hq _ IH
                 |idx rest futures totals i t e Hcap Ht Hq]; intros (t0 & Hin & Hfail).
  - right. exists futures, totals. split_and!; [done| |].
    + intros t Ht. apply elem_of_app. by left.
    + exists t0. split; [|done]. simpl in Hin. by rewrite app_nil_r in Hin.
  - simpl in Hin. rewrite <- Happ in Hin.
    destruct IH as [(t' & e' & Hin' & He' & ->)
                   |(futures' & totals' & -> & Hsub & Hfail')]; [by exists t0|..].
    + left. exists t', e'. rewrite Happ in Hin'. done.
    + right. exists futures', totals'. split_and!; [done| |done].
      intros t Ht. apply Hsub in Ht. by rewrite Happ in Ht.
  - simpl in Hin. rewrite <- Happ in Hin.
    assert (t0 ∈ delete i (futures ++ [mk idx]) ++ map mk rest) as Hin0.
    { apply elem_of_app in Hin as [Hin|Hin]; apply elem_of_app; [|by right].
      destruct (elem_of_delete_or _ _ _ _ Ht Hin) as [->|?]; [|by left].
      destruct Hfail as [e0 He0]. congruence. }
    assert (forall t', t' ∈ delete i (futures ++ [mk idx]) ++ map mk rest ->
              t' ∈ futures ++ map mk (idx :: rest)) as Hback.
    { intros t' Ht'. simpl. rewrite <- Happ.
      apply elem_of_app in Ht' as [Ht'|Ht']; apply elem_of_app; [left|by right].
      by eapply list_elem_of_delete_inv. }
    destruct IH as [(t' & e' & Hin' & He' & ->)
                   |(futures' & totals' & -> & Hsub & Hfail')]; [by exists t0|..].
    + left. exists t', e'. split_and!; [by apply Hback|done..].
    + right. exists futures', totals'. split_and!; [done| |done].
      intros t' Ht'. by apply Hback, Hsub.
  - left. exists t, e. split_and!; [|done..].
    simpl. rewrite <- Happ. apply elem_of_app. left. by eapply list_elem_of_lookup_2.
Qed.

End Failure.

(** *** The sequential path *)

Lemma sequential_loop_ok chunks orbits orbit_members observations params dir totals st :
  Forall (succeeds orbits orbit_members observations params {| db_directory := dir |})
    (concat chunks) ->
  exists tr,
    sequential_loop chunks orbits orbit_members observations params dir totals st =
    (st, tr, Ok (merge totals
                   (batch orbits orbit_members observations params
                      {| db_directory := dir |} (concat chunks)))).
Proof.
  revert totals. induction chunks as [|chunk rest IH]; intros totals Hok.
  - exists []. simpl. unfold ret. by rewrite merge_empty_r.
  - simpl in Hok. apply Forall_app in Hok as [Hchunk Hrest].
    rewrite sequential_loop_cons, ipod_worker_loop_ok by done.
    rewrite merge_empty_l.
    destruct (IH (merge totals (batch orbits orbit_members observations params
                                  {| db_directory := dir |} chunk)) Hrest)
      as [tr ->].
    eexists. simpl. by rewrite batch_app, merge_assoc.
Qed.

Lemma sequential_loop_fails chunks orbits orbit_members observations params dir totals
    st orbit_id e :
  orbit_id ∈ concat chunks ->
  refine orbits orbit_members observations params {| db_directory := dir |} orbit_id
    = Raise e ->
  exists tr orbit_id' e',
    sequential_loop chunks orbits orbit_members observations params dir totals st
      = (st, tr, Raise e') /\
    orbit_id' ∈ concat chunks /\
    refine orbits orbit_members observations params {| db_directory := dir |} orbit_id'
      = Raise e'.
Proof.
  revert totals. induction chunks as [|chunk rest IH]; intros totals Hin He.
  - by apply elem_of_nil in Hin.
  - rewrite sequential_loop_cons.
    pose proof (ipod_worker_loop_result chunk orbits orbit_members observations params
      {| db_directory := dir |} st) as Hres.
    destruct (ipod_worker_loop _ _ _ _ _ _ _ _) as [[st1 tr1] r1]. simpl in Hres.
    destruct Hres as [[Hok ->]|(id1 & e1 & Hin1 & He1 & ->)].
    + simpl in Hin. apply elem_of_app in Hin as [Hin|Hin].
      { rewrite Forall_forall in Hok. destruct (Hok _ Hin) as [t Ht]. congruence. }
      destruct (IH (merge totals (batch orbits orbit_members observations params
                                    {| db_directory := dir |} chunk)) Hin He)
        as (tr & id' & e' & -> & Hin' & He').
      eexists _, id', e'. split_and!; [done| |done].
      simpl. apply elem_of_app. by right.
    + eexists _, id1, e1. split_and!; [done| |done].
      simpl. apply elem_of_app. by left.
Qed.

(** *** The distributed path *)

Section Dispatch.
Variables (st st1 : store) (orbit_ids : list string)
  (orbits_ref : option ref) (orbits : FittedOrbits)
  (orbit_members_ref : option ref) (orbit_members : option FittedOrbitMembers)
  (observations_ref : option ref) (observations : option Observations)
  (tra : list event) (pl : Placed) (params : Params) (dir : string)
  (chunk_size w : Z).
Hypothesis placed :
  placed_ok st orbit_ids orbits_ref orbits orbit_members_ref orbit_members
    observations_ref observations st1 tra pl.
Hypothesis orbits_valid :
  forall r, orbits_ref = Some r -> st !! r = Some (OOrbits orbits).
Hypothesis members_valid :
  forall r, orbit_members_ref = Some r ->
    exists a, orbit_members = Some a /\ st !! r = Some (OMembers a).
Hypothesis observations_valid :
  forall r, observations_ref = Some r ->
    exists a, observations = Some a /\ st !! r = Some (OObservations a).
Hypothesis workers : 1 <= w.
Hypothesis size : 1 <= chunk_size.
Hypothesis nonempty : orbit_ids <> [].

Let db := {| db_directory := dir |}.
Let chunk_of (idx : Z * Z) : list string := py_slice orbit_ids idx.1 idx.2.

(** With at least one worker and a positive nominal size there is a plan,
    and its chunks cover the identifiers. *)
Lemma dispatch_plan :
  exists size chunks,
    effective_chunk_size (Z.of_nat (length (p_orbit_ids pl))) w chunk_size = Ok size /\
    _iterate_chunk_indices (p_orbit_ids pl) size = Ok chunks /\
    concat (map chunk_of chunks) = orbit_ids.
Proof.
  rewrite (placed_ids _ _ _ _ _ _ _ _ _ _ _ placed).
  unfold effective_chunk_size. destruct (Z.eqb_spec w 0); [lia|].
  assert (1 <= Z.of_nat (length orbit_ids)).
  { destruct orbit_ids; [done|]. simpl. lia. }
  pose proof (ceil_div_pos (Z.of_nat (length orbit_ids)) w).
  destruct (iterate_chunk_indices_total orbit_ids
              (Z.min (ceil_div (Z.of_nat (length orbit_ids)) w) chunk_size))
    as [chunks Hchunks]; [lia|].
  eexists _, chunks. split_and!; [done..|].
  eapply iterate_chunk_indices_concat; [|done]. lia.
Qed.

Lemma task_result_cases idx :
  let r := (run_task st1 (mk_task pl params dir idx)).2 in
  (Forall (succeeds orbits orbit_members observations params db) (chunk_of idx) /\
   r = Ok (batch orbits orbit_members observations params db (chunk_of idx))) \/
  (exists orbit_id e, orbit_id ∈ chunk_of idx /\
     refine orbits orbit_members observations params db orbit_id = Raise e /\
     r = Raise e).
Proof.
  cbv zeta.
  rewrite (task_result _ _ _ _ _ _ _ _ _ _ _ _ _ idx placed orbits_valid
             members_valid observations_valid).
  apply ipod_worker_loop_result.
Qed.

(** A failing identifier makes the dispatch raise what the refinement
    routine raised for an identifier of the run. *)
Lemma dispatch_run_fails tr r orbit_id e :
  dispatch_run st1 pl params dir chunk_size w tr r ->
  orbit_id ∈ orbit_ids ->
  refine orbits orbit_members observations params db orbit_id = Raise e ->
  exists orbit_id' e',
    r = Raise e' /\ orbit_id' ∈ orbit_ids /\
    refine orbits orbit_members observations params db orbit_id' = Raise e'.
Proof.
  intros Hrun Hin He.
  destruct dispatch_plan as (size' & chunks & Hsize & Hchunks & Hcover).
  assert (forall t e', t ∈ map (mk_task pl params dir) chunks ->
            (run_task st1 t).2 = Raise e' ->
            exists orbit_id', orbit_id' ∈ orbit_ids /\
              refine orbits orbit_members observations params db orbit_id'
                = Raise e') as Hback.
  { intros t e' (idx & -> & Hidx)%list_elem_of_fmap Ht.
    destruct (task_result_cases idx) as [[_ Hr]|(id' & e'' & Hin' & He' & Hr)];
      rewrite Hr in Ht; [done|]. injection Ht as <-.
    exists id'. split; [|done]. by eapply py_slice_subseteq. }
  assert (exists t, t ∈ [] ++ map (mk_task pl params dir) chunks /\ fails st1 t)
    as Hfail.
  { rewrite <- Hcover in Hin. apply elem_of_concat in Hin as (l & Hl & Hin).
    apply list_elem_of_fmap in Hl as (idx & -> & Hidx).
    exists (mk_task pl params dir idx). split.
    - simpl. apply list_elem_of_fmap. by exists idx.
    - destruct (task_result_cases idx) as [[Hok _]|(id' & e' & _ & _ & Hr)].
      + rewrite Forall_forall in Hok. destruct (Hok _ Hin) as [t Ht]. congruence.
      + by exists e'. }
  destruct Hrun as [e0 He0|size0 e0 Hs0 He0|size0 chunks0 tr0 e0 Hs0 Hc0 Hsub
                   |size0 chunks0 tr1 futures totals tr2 r2 Hs0 Hc0 Hsub Hdrain];
    try congruence.
  - rewrite Hsize in Hs0. injection Hs0 as <-. rewrite Hchunks in Hc0.
    injection Hc0 as <-.
    destruct (submit_run_fails _ _ _ _ _ _ _ _ Hsub Hfail)
      as [(t' & e' & Ht' & He' & [= ->])|(? & ? & [=] & _)].
    destruct (Hback t' e' Ht' He') as (id' & Hid' & Hr'). by exists id', e'.
  - rewrite Hsize in Hs0. injection Hs0 as <-. rewrite Hchunks in Hc0.
    injection Hc0 as <-.
    destruct (submit_run_fails _ _ _ _ _ _ _ _ Hsub Hfail)
      as [(? & ? & _ & _ & [=])|(futures' & totals' & [= <- <-] & Hsubset & Hfail')].
    destruct (drain_run_fails _ _ _ _ _ Hdrain Hfail') as (t' & e' & Ht' & He' & ->).
    destruct (Hback t' e' (Hsubset _ Ht') He') as (id' & Hid' & Hr'). by exists id', e'.
Qed.

(** When the refinement routine returns for every identifier, the dispatch
    returns, and each collection of its result is a permutation of the
    results in the order of the identifiers. *)
Lemma dispatch_run_ok {X} (proj : Quad -> list X) tr r :
  (forall a b, proj (merge a b) = proj a ++ proj b) ->
  proj empty_quad = [] ->
  dispatch_run st1 pl params dir chunk_size w tr r ->
  Forall (succeeds orbits orbit_members observations params db) orbit_ids ->
  exists q, r = Ok q /\
    proj q ≡ₚ proj (batch orbits orbit_members observations params db orbit_ids).
Proof.
  intros Hmerge Hempty Hrun Hok.
  destruct dispatch_plan as (size' & chunks & Hsize & Hchunks & Hcover).
  set (tq := fun t : Task =>
         batch orbits orbit_members observations params db (chunk_of (t_indices t))).
  assert (forall t, t ∈ [] ++ map (mk_task pl params dir) chunks ->
            (run_task st1 t).2 = Ok (tq t)) as Hall.
  { intros t (idx & -> & Hidx)%list_elem_of_fmap.
    destruct (task_result_cases idx) as [[_ Hr]|(id' & e' & Hin' & He' & _)]; [done|].
    apply py_slice_subseteq in Hin'. rewrite Forall_forall in Hok.
    destruct (Hok _ Hin') as [t Ht]. congruence. }
  assert (pending proj tq (map (mk_task pl params dir) chunks)
          = proj (batch orbits orbit_members observations params db orbit_ids))
    as Hpending.
  { rewrite <- Hcover. unfold pending. clear Hcover Hchunks Hall.
    induction chunks as [|idx rest IH].
    - simpl. by rewrite Hempty.
    - simpl. by rewrite batch_app, Hmerge, IH. }
  destruct Hrun as [e0 He0|size0 e0 Hs0 He0|size0 chunks0 tr0 e0 Hs0 Hc0 Hsub
                   |size0 chunks0 tr1 futures totals tr2 r2 Hs0 Hc0 Hsub Hdrain];
    try congruence.
  - rewrite Hsize in Hs0. injection Hs0 as <-. rewrite Hchunks in Hc0.
    injection Hc0 as <-.
    by destruct (submit_run_ok proj Hmerge _ _ _ tq _ _ _ _ _ Hsub Hall)
      as (? & ? & [=] & _).
  - rewrite Hsize in Hs0. injection Hs0 as <-. rewrite Hchunks in Hc0.
    injection Hc0 as <-.
    destruct (submit_run_ok proj Hmerge _ _ _ tq _ _ _ _ _ Hsub Hall)
      as (futures' & totals' & [= <- <-] & Hsubset & Hperm).
    destruct (drain_run_ok proj Hmerge _ tq _ _ _ _ Hdrain) as (q & -> & Hq).
    { intros t Ht. apply Hall. by apply Hsubset. }
    exists q. split; [done|]. rewrite Hq, Hperm, Hempty, Hpending. done.
Qed.

End Dispatch.

(** *** The whole run on readable inputs *)

Lemma entry_point_valid orbits orbit_members observations params dir chunk_size
    max_processes st vo vm vb :
  holds OOrbits st orbits vo ->
  holds_optional OMembers st orbit_members vm ->
  holds_optional OObservations st observations vb ->
  let tr0 := read_back orbits ++ read_back_optional orbit_members ++
             read_back_optional observations in
  let w := default cpu_count max_processes in
  iterative_precovery_and_differential_correction orbits orbit_members observations
    params dir chunk_size max_processes st =
  if (length vo =? 0)%nat then (st, tr0, Ok empty_quad)
  else
    match
      (if initialize_use_ray w
       then distributed_path (map row_orbit_id vo) (given_ref orbits) vo
              (given_ref_optional orbit_members) vm
              (given_ref_optional observations) vb params dir chunk_size w st
       else sequential_path (map row_orbit_id vo) vo vm vb params dir chunk_size st)
    with
    | (st', tr, r) => (st', tr0 ++ EvInitRay w :: tr, r)
    end.
Proof.
  intros Hvo Hvm Hvb tr0 w. subst tr0 w.
  unfold iterative_precovery_and_differential_correction.
  rewrite bind_run, (resolve_ok OOrbits as_orbits as_orbits_wrap _ _ vo) by done.
  rewrite bind_run,
    (resolve_optional_ok OMembers as_members as_members_wrap _ _ vm) by done.
  rewrite bind_run,
    (resolve_optional_ok OObservations as_observations as_observations_wrap _ _ vb)
    by done.
  cbn [fst snd]. destruct (length vo =? 0)%nat.
  - unfold ret. by rewrite !app_nil_r.
  - rewrite bind_run. unfold emit.
    destruct (initialize_use_ray _);
      match goal with
      | |- context [?f st] =>
          match f with
          | distributed_path _ _ _ _ _ _ _ _ _ _ _ => idtac
          | sequential_path _ _ _ _ _ _ _ => idtac
          end;
          destruct (f st) as [[st' tr] r]
      end; simpl; by rewrite <- !app_assoc.
Qed.

Lemma sequential_path_ok orbit_ids orbits orbit_members observations params dir
    chunk_size st :
  1 <= chunk_size ->
  Forall (succeeds orbits orbit_members observations params {| db_directory := dir |})
    orbit_ids ->
  exists tr,
    sequential_path orbit_ids orbits orbit_members observations params dir chunk_size st
    = (st, tr, Ok (batch orbits orbit_members observations params
                     {| db_directory := dir |} orbit_ids)).
Proof.
  intros Hsize Hok. rewrite sequential_path_run.
  destruct (iterate_chunks_total orbit_ids chunk_size Hsize) as [chunks Hchunks].
  rewrite Hchunks. pose proof (iterate_chunks_concat _ _ _ Hsize Hchunks) as Hcover.
  rewrite <- Hcover in Hok.
  destruct (sequential_loop_ok chunks orbits orbit_members observations params dir
              empty_quad st Hok) as [tr ->].
  exists tr. by rewrite merge_empty_l, Hcover.
Qed.

Lemma sequential_path_fails orbit_ids orbits orbit_members observations params dir
    chunk_size st orbit_id e :
  1 <= chunk_size ->
  orbit_id ∈ orbit_ids ->
  refine orbits orbit_members observations params {| db_directory := dir |} orbit_id
    = Raise e ->
  exists tr orbit_id' e',
    sequential_path orbit_ids orbits orbit_members observations params dir chunk_size st
      = (st, tr, Raise e') /\
    orbit_id' ∈ orbit_ids /\
    refine orbits orbit_members observations params {| db_directory := dir |} orbit_id'
      = Raise e'.
Proof.
  intros Hsize Hin He. rewrite sequential_path_run.
  destruct (iterate_chunks_total orbit_ids chunk_size Hsize) as [chunks Hchunks].
  rewrite Hchunks. pose proof (iterate_chunks_concat _ _ _ Hsize Hchunks) as Hcover.
  rewrite <- Hcover in Hin |- *.
  by apply sequential_loop_fails with (orbit_id := orbit_id) (e := e).
Qed.

Lemma distributed_path_fails orbit_ids orbits_ref orbits orbit_members_ref orbit_members
    observations_ref observations params dir chunk_size w st orbit_id e :
  (forall r, orbits_ref = Some r -> st !! r = Some (OOrbits orbits)) ->
  (forall r, orbit_members_ref = Some r ->
     exists a, orbit_members = Some a /\ st !! r = Some (OMembers a)) ->
  (forall r, observations_ref = Some r ->
     exists a, observations = Some a /\ st !! r = Some (OObservations a)) ->
  1 <= w -> 1 <= chunk_size ->
  orbit_id ∈ orbit_ids ->
  refine orbits orbit_members observations params {| db_directory := dir |} orbit_id
    = Raise e ->
  exists st' tr orbit_id' e',
    distributed_path orbit_ids orbits_ref orbits orbit_members_ref orbit_members
      observations_ref observations params dir chunk_size w st = (st', tr, Raise e') /\
    orbit_id' ∈ orbit_ids /\
    refine orbits orbit_members observations params {| db_directory := dir |} orbit_id'
      = Raise e'.
Proof.
  intros Ho Hm Hb Hw Hsize Hin He.
  destruct (distributed_path_run orbit_ids orbits_ref orbits orbit_members_ref
              orbit_members observations_ref observations params dir chunk_size w st)
    as (st1 & tra & pl & trb & r & Hok & Hdisp & ->).
  assert (orbit_ids <> []) as Hne by (intros ->; by apply elem_of_nil in Hin).
  destruct (dispatch_run_fails st st1 orbit_ids orbits_ref orbits orbit_members_ref
              orbit_members observations_ref observations tra pl params dir chunk_size
              w Hok Ho Hm Hb Hw Hsize Hne trb r orbit_id e Hdisp Hin He)
    as (id' & e' & -> & Hin' & He').
  by eexists _, _, id', e'.
Qed.

Lemma distributed_path_ok orbit_ids orbits_ref orbits orbit_members_ref orbit_members
    observations_ref observations params dir chunk_size w st :
  (forall r, orbits_ref = Some r -> st !! r = Some (OOrbits orbits)) ->
  (forall r, orbit_members_ref = Some r ->
     exists a, orbit_members = Some a /\ st !! r = Some (OMembers a)) ->
  (forall r, observations_ref = Some r ->
     exists a, observations = Some a /\ st !! r = Some (OObservations a)) ->
  1 <= w -> 1 <= chunk_size -> orbit_ids <> [] ->
  Forall (succeeds orbits orbit_members observations params {| db_directory := dir |})
    orbit_ids ->
  exists st' tr q,
    distributed_path orbit_ids orbits_ref orbits orbit_members_ref orbit_members
      observations_ref observations params dir chunk_size w st = (st', tr, Ok q) /\
    quad_perm q (batch orbits orbit_members observations params
                   {| db_directory := dir |} orbit_ids).
Proof.
  intros Ho Hm Hb Hw Hsize Hne Hall.
  destruct (distributed_path_run orbit_ids orbits_ref orbits orbit_members_ref
              orbit_members observations_ref observations params dir chunk_size w st)
    as (st1 & tra & pl & trb & r & Hok & Hdisp & ->).
  pose proof (fun X (proj : Quad -> list X) H1 H2 =>
    dispatch_run_ok st st1 orbit_ids orbits_ref orbits orbit_members_ref
      orbit_members observations_ref observations tra pl params dir chunk_size
      w Hok Ho Hm Hb Hw Hsize Hne proj trb r H1 H2 Hdisp Hall) as Hproj.
  destruct (Hproj _ q_orbits) as (q & -> & Hq1); [done..|].
  destruct (Hproj _ q_members) as (? & [= <-] & Hq2); [done..|].
  destruct (Hproj _ q_candidates) as (? & [= <-] & Hq3); [done..|].
  destruct (Hproj _ q_summary) as (? & [= <-] & Hq4); [done..|].
  by eexists _, _, q.
Qed.

End ResultFacts.

Section DriverClaims.
Context `{E : Externals} `{R : Runtime}.
Implicit Types (st : store).


Local Ltac of_class H := eapply Forall_impl; [exact H|]; by intros [].

(** C5: when the orbit table is empty (and the optional inputs can be read),
    the entry point returns the four empty collections; it has only read its
    inputs back: the refinement routine is not called and no task is
    submitted. *)
Theorem empty_input_returns_empty orbits orbit_members observations params dir
    chunk_size max_processes st vm vb :
  holds OOrbits st orbits [] ->
  holds_optional OMembers st orbit_members vm ->
  holds_optional OObservations st observations vb ->
  exists tr,
    iterative_precovery_and_differential_correction orbits orbit_members observations
      params dir chunk_size max_processes st = (st, tr, Ok empty_quad) /\
    Forall (fun ev => is_get ev = true) tr /\
    count is_ipod tr = 0%nat /\ count is_submit tr = 0%nat.
Proof.
  intros Hvo Hvm Hvb.
  exists (read_back orbits ++ read_back_optional orbit_members ++
          read_back_optional observations).
  destruct (read_back_events orbits orbit_members observations) as (_ & _ & Hget).
  split_and!; [|done|..].
  - unfold iterative_precovery_and_differential_correction.
    rewrite bind_run, (resolve_ok OOrbits as_orbits as_orbits_wrap _ _ [])  by done.
    rewrite bind_run,
      (resolve_optional_ok OMembers as_members as_members_wrap _ _ vm) by done.
    rewrite bind_run,
      (resolve_optional_ok OObservations as_observations as_observations_wrap _ _ vb)
      by done.
    simpl. unfold ret. by rewrite !app_nil_r.
  - apply (count_class _ is_get); [by intros []|done].
  - apply (count_class _ is_get); [by intros []|done].
Qed.


(** The placements and submissions of a run are those of its distributed
    path: elsewhere the run reads inputs back, initialises the runtime, runs
    workers or frees references. *)
Lemma run_placements orbits orbit_members observations params dir chunk_size
    max_processes st :
  let tr := (iterative_precovery_and_differential_correction orbits orbit_members
               observations params dir chunk_size max_processes st).1.2 in
  (count is_put_orbits tr = 0 /\ count is_put_members tr = 0 /\
   count is_put_observations tr = 0 /\ forall t, EvSubmit t ∉ tr)%nat \/
  (exists vo vm vb st1 tra pl,
     holds OOrbits st orbits vo /\
     placed_ok st (map row_orbit_id vo) (given_ref orbits) vo
       (given_ref_optional orbit_members) vm (given_ref_optional observations) vb
       st1 tra pl /\
     count is_put_orbits tr = count is_put_orbits tra /\
     count is_put_members tr = count is_put_members tra /\
     count is_put_observations tr = count is_put_observations tra /\
     forall t, EvSubmit t ∈ tr -> exists idx, t = mk_task pl params dir idx).
Proof.
  intros tr. subst tr.
  destruct (read_back_events orbits orbit_members observations) as (Hg1 & Hg2 & Hg3).
  assert (forall tr : list event, Forall (fun ev => is_get ev = true) tr ->
            (count is_put_orbits tr = 0 /\ count is_put_members tr = 0 /\
             count is_put_observations tr = 0 /\ forall t, EvSubmit t ∉ tr)%nat)
    as Hgets.
  { intros tr Hg. split_and!; try (apply (count_class _ is_get); [by intros []|done]).
    intros t. apply (not_submitted_of_class is_get); [by intros []|done]. }
  destruct (entry_point_run orbits orbit_members observations params dir chunk_size
              max_processes st)
    as [(e & _ & ->)|[(e & _ & ->)|[(e & _ & ->)
       |(vo & vm & vb & Hvo & Hvm & Hvb & Hshape)]]]; try (left; by apply Hgets).
  cbv zeta in Hshape.
  remember (read_back orbits ++ read_back_optional orbit_members ++
            read_back_optional observations) as tr0 eqn:Htr0. clear Htr0.
  destruct (length vo =? 0)%nat.
  { rewrite Hshape. left. by apply Hgets. }
  destruct Hshape as (st' & tr & r & -> & Hpath). cbn [fst snd].
  rewrite (cons_as_app (EvInitRay _)).
  destruct (Hgets _ Hg3) as (Hc1 & Hc2 & Hc3 & Hc4).
  destruct (initialize_use_ray _).
  - destruct (distributed_path_run (map row_orbit_id vo) (given_ref orbits) vo
                (given_ref_optional orbit_members) vm
                (given_ref_optional observations) vb params dir chunk_size
                (default cpu_count max_processes) st)
      as (st1 & tra & pl & trb & r' & Hok & Hdisp & Heq).
    rewrite Hpath in Heq.
    pose proof (dispatch_run_events _ _ _ _ _ _ _ _ Hdisp) as Hdev.
    assert (exists tail, tr = tra ++ trb ++ tail /\
              (tail = [] \/ exists rs, tail = [EvFree rs])) as (tail & -> & Htail).
    { destruct r'; injection Heq as -> -> ->.
      - eexists. split; [done|]. right. by eexists.
      - exists []. rewrite app_nil_r. split; [done|]. by left. }
    assert (forall p, (forall ev, is_dispatch_event ev = true -> p ev = false) ->
              (forall rs, p (EvFree rs) = false) ->
              count p (trb ++ tail) = 0%nat) as Hrest.
    { intros p Hp Hfree. rewrite count_app.
      rewrite (count_class p is_dispatch_event) by done.
      destruct Htail as [->|[rs ->]]; [done|]. by rewrite count_cons, Hfree. }
    right. exists vo, vm, vb, st1, tra, pl. split_and!; [done..| | | |].
    + rewrite !count_app, Hc1. simpl.
      rewrite <- count_app, Hrest; [lia|by intros []|done].
    + rewrite !count_app, Hc2. simpl.
      rewrite <- count_app, Hrest; [lia|by intros []|done].
    + rewrite !count_app, Hc3. simpl.
      rewrite <- count_app, Hrest; [lia|by intros []|done].
    + intros t. rewrite !elem_of_app.
      intros [Hin|[Hin|[Hin|[Hin|Hin]]]].
      * by apply Hc4 in Hin.
      * by apply list_elem_of_singleton in Hin.
      * exfalso. revert Hin. apply (not_submitted_of_class is_store_access);
          [by intros []|]. exact (placed_events _ _ _ _ _ _ _ _ _ _ _ Hok).
      * by eapply dispatch_run_submits.
      * exfalso. destruct Htail as [->|[rs ->]].
        -- by apply elem_of_nil in Hin.
        -- by apply list_elem_of_singleton in Hin.
  - pose proof (sequential_path_events (map row_orbit_id vo) vo vm vb params dir
      chunk_size st) as Hev. rewrite Hpath in Hev. simpl in Hev.
    left. split_and!.
    + rewrite !count_app, Hc1. simpl.
      rewrite (count_class _ is_worker_event); [done|by intros []|done].
    + rewrite !count_app, Hc2. simpl.
      rewrite (count_class _ is_worker_event); [done|by intros []|done].
    + rewrite !count_app, Hc3. simpl.
      rewrite (count_class _ is_worker_event); [done|by intros []|done].
    + intros t. rewrite !elem_of_app. intros [Hin|[Hin|Hin]].
      * by apply Hc4 in Hin.
      * by apply list_elem_of_singleton in Hin.
      * revert Hin. apply (not_submitted_of_class is_worker_event);
          [by intros []|done].
Qed.

(** A run begins by reading its inputs back, as far as they can be read. *)
Lemma run_reads_back orbits orbit_members observations params dir chunk_size
    max_processes st :
  let tr := (iterative_precovery_and_differential_correction orbits orbit_members
               observations params dir chunk_size max_processes st).1.2 in
  (exists k, tr = read_back orbits ++ k) /\
  ((exists vo, holds OOrbits st orbits vo) ->
   exists k, tr = read_back orbits ++ read_back_optional orbit_members ++ k) /\
  ((exists vo, holds OOrbits st orbits vo) ->
   (exists vm, holds_optional OMembers st orbit_members vm) ->
   exists k, tr = read_back orbits ++ read_back_optional orbit_members ++
                  read_back_optional observations ++ k).
Proof.
  intros tr. subst tr.
  destruct (entry_point_run orbits orbit_members observations params dir chunk_size
              max_processes st)
    as [(e & Hno & ->)|[(e & Hno & ->)|[(e & Hno & ->)
       |(vo & vm & vb & Hvo & Hvm & Hvb & Hshape)]]]; cbn [fst snd].
  - split_and!.
    + exists []. by rewrite app_nil_r.
    + intros [vo Hvo]. by destruct (Hno vo).
    + intros [vo Hvo]. by destruct (Hno vo).
  - split_and!.
    + eexists. done.
    + intros _. exists []. by rewrite app_nil_r.
    + intros _ [vm Hvm]. by destruct (Hno vm).
  - split_and!.
    + eexists. done.
    + eexists. done.
    + intros _ _. exists []. by rewrite app_nil_r.
  - cbv zeta in Hshape. destruct (length vo =? 0)%nat.
    + rewrite Hshape. cbn [fst snd]. split_and!.
      * eexists. done.
      * eexists. done.
      * intros _ _. exists []. by rewrite app_nil_r.
    + destruct Hshape as (st' & tr & r & -> & _). cbn [fst snd]. split_and!.
      * eexists. by rewrite <- app_assoc.
      * eexists. by rewrite <- !app_assoc.
      * eexists. by rewrite <- !app_assoc.
Qed.

(** C8: each of the shared inputs (orbits, orbit members, observations) is
    placed in the object store at most once in a run.  An input that the
    caller supplied as a reference is not placed at all, its reference is
    read back with [ray.get] (once the inputs before it have been read), and
    every submitted task is given that very reference. *)
Theorem placement_at_most_once orbits orbit_members observations params dir chunk_size
    max_processes st :
  let tr := (iterative_precovery_and_differential_correction orbits orbit_members
               observations params dir chunk_size max_processes st).1.2 in
  (count is_put_orbits tr <= 1 /\ count is_put_members tr <= 1 /\
   count is_put_observations tr <= 1)%nat /\
  (forall r, orbits = Reference r ->
     count is_put_orbits tr = 0%nat /\ EvGet r ∈ tr /\
     forall t, EvSubmit t ∈ tr -> t_orbits_ref t = r) /\
  (forall r, orbit_members = Some (Reference r) ->
     count is_put_members tr = 0%nat /\
     ((exists vo, holds OOrbits st orbits vo) -> EvGet r ∈ tr) /\
     forall t, EvSubmit t ∈ tr -> t_members_ref t = Some r) /\
  (forall r, observations = Some (Reference r) ->
     count is_put_observations tr = 0%nat /\
     ((exists vo, holds OOrbits st orbits vo) ->
      (exists vm, holds_optional OMembers st orbit_members vm) -> EvGet r ∈ tr) /\
     forall t, EvSubmit t ∈ tr -> t_observations_ref t = Some r).
Proof.
  intros tr.
  destruct (run_reads_back orbits orbit_members observations params dir chunk_size
              max_processes st) as (Hr1 & Hr2 & Hr3). fold tr in Hr1, Hr2, Hr3.
  destruct (run_placements orbits orbit_members observations params dir chunk_size
              max_processes st)
    as [(Hc1 & Hc2 & Hc3 & Hsub)
       |(vo & vm & vb & st1 & tra & pl & Hvo & Hok & Hc1 & Hc2 & Hc3 & Hsub)];
    fold tr in Hc1, Hc2, Hc3, Hsub.
  - split_and!; try lia.
    + intros r ->. split_and!; [done| |by intros t ?%Hsub].
      destruct Hr1 as [k ->]. by left.
    + intros r ->. split_and!; [done| |by intros t ?%Hsub].
      intros Hvo. destruct (Hr2 Hvo) as [k ->]. apply elem_of_app. right. by left.
    + intros r ->. split_and!; [done| |by intros t ?%Hsub].
      intros Hvo Hvm. destruct (Hr3 Hvo Hvm) as [k ->].
      apply elem_of_app. right. apply elem_of_app. right. by left.
  - pose proof (placed_count_orbits _ _ _ _ _ _ _ _ _ _ _ Hok) as Ho.
    pose proof (placed_count_members _ _ _ _ _ _ _ _ _ _ _ Hok) as Hm.
    pose proof (placed_count_observations _ _ _ _ _ _ _ _ _ _ _ Hok) as Hb.
    rewrite <- Hc1 in Ho. rewrite <- Hc2 in Hm. rewrite <- Hc3 in Hb.
    split_and!.
    + rewrite Ho. destruct (given_ref orbits); lia.
    + rewrite Hm. destruct (given_ref_optional orbit_members), vm; lia.
    + rewrite Hb. destruct (given_ref_optional observations), vb; lia.
    + intros r ->. split_and!; [done| |].
      * destruct Hr1 as [k ->]. by left.
      * intros t [idx ->]%Hsub. simpl.
        by apply (placed_orbits_given _ _ _ _ _ _ _ _ _ _ _ Hok).
    + intros r ->. split_and!; [done| |].
      * intros Hvo'. destruct (Hr2 Hvo') as [k ->]. apply elem_of_app. right. by left.
      * intros t [idx ->]%Hsub. simpl.
        by apply (placed_members_given _ _ _ _ _ _ _ _ _ _ _ Hok).
    + intros r ->. split_and!; [done| |].
      * intros Hvo' Hvm'. destruct (Hr3 Hvo' Hvm') as [k ->].
        apply elem_of_app. right. apply elem_of_app. right. by left.
      * intros t [idx ->]%Hsub. simpl.
        by apply (placed_observations_given _ _ _ _ _ _ _ _ _ _ _ Hok).
Qed.

(** Either a run frees nothing and keeps what the store held, or it is a
    distributed run that returned: then it frees, in one call at its end,
    the references recorded while it placed its inputs. *)
Lemma run_frees orbits orbit_members observations params dir chunk_size
    max_processes st :
  let out := iterative_precovery_and_differential_correction orbits orbit_members
               observations params dir chunk_size max_processes st in
  (st ⊆ out.1.1 /\ Forall (fun ev => is_not_free ev = true) out.1.2) \/
  (exists vo vm vb st1 tra pl k,
     holds OOrbits st orbits vo /\
     holds_optional OMembers st orbit_members vm /\
     holds_optional OObservations st observations vb /\
     placed_ok st (map row_orbit_id vo) (given_ref orbits) vo
       (given_ref_optional orbit_members) vm (given_ref_optional observations) vb
       st1 tra pl /\
     out.1.1 = foldr delete st1 (p_refs_to_free pl) /\
     out.1.2 = k ++ [EvFree (p_refs_to_free pl)] /\
     Forall (fun ev => is_not_free ev = true) k /\
     (forall ev, ev ∈ tra -> ev ∈ k)).
Proof.
  intros out. subst out.
  destruct (read_back_events orbits orbit_members observations) as (Hg1 & Hg2 & Hg3).
  destruct (entry_point_run orbits orbit_members observations params dir chunk_size
              max_processes st)
    as [(e & _ & ->)|[(e & _ & ->)|[(e & _ & ->)
       |(vo & vm & vb & Hvo & Hvm & Hvb & Hshape)]]]; cbn [fst snd].
  1-3: left; split; [done|].
  { of_class Hg1. } { of_class Hg2. } { of_class Hg3. }
  cbv zeta in Hshape.
  remember (read_back orbits ++ read_back_optional orbit_members ++
            read_back_optional observations) as tr0 eqn:Htr0. clear Htr0.
  destruct (length vo =? 0)%nat.
  { rewrite Hshape. left. split; [done|]. of_class Hg3. }
  destruct Hshape as (st' & tr & r & -> & Hpath). cbn [fst snd].
  rewrite (cons_as_app (EvInitRay _)).
  assert (Forall (fun ev => is_not_free ev = true) tr0) as Hnf0 by of_class Hg3.
  destruct (initialize_use_ray _).
  - destruct (distributed_path_run (map row_orbit_id vo) (given_ref orbits) vo
                (given_ref_optional orbit_members) vm
                (given_ref_optional observations) vb params dir chunk_size
                (default cpu_count max_processes) st)
      as (st1 & tra & pl & trb & r' & Hok & Hdisp & Heq).
    rewrite Hpath in Heq.
    pose proof (dispatch_run_events _ _ _ _ _ _ _ _ Hdisp) as Hdev.
    pose proof (placed_events _ _ _ _ _ _ _ _ _ _ _ Hok) as Hacc.
    assert (Forall (fun ev => is_not_free ev = true)
              (tr0 ++ [EvInitRay (default cpu_count max_processes)] ++ tra ++ trb))
      as Hnf.
    { repeat (apply Forall_app; split); [done|by repeat constructor|..].
      - of_class Hacc.
      - of_class Hdev. }
    destruct r' as [q|e]; injection Heq as -> -> ->.
    + right. exists vo, vm, vb, st1, tra, pl.
      exists (tr0 ++ [EvInitRay (default cpu_count max_processes)] ++ tra ++ trb).
      split_and!; [done..|by rewrite <- !app_assoc|done|].
      intros ev Hin. rewrite !elem_of_app. auto.
    + left. split; [exact (placed_store _ _ _ _ _ _ _ _ _ _ _ Hok)|done].
  - pose proof (sequential_path_events (map row_orbit_id vo) vo vm vb params dir
      chunk_size st) as Hev.
    pose proof (sequential_path_store (map row_orbit_id vo) vo vm vb params dir
      chunk_size st) as Hst.
    rewrite Hpath in Hev, Hst. simpl in Hev, Hst. subst st'.
    left. split; [done|].
    repeat (apply Forall_app; split); [done|by repeat constructor|]. of_class Hev.
Qed.

(** C10: the run frees only references that it placed itself, all of them
    new to the store, and the reference of the orbit identifiers is always
    among them.  So a reference supplied by the caller is never freed, and
    whatever the store held before the run is still there afterwards. *)
Theorem caller_references_survive orbits orbit_members observations params dir
    chunk_size max_processes st :
  let out := iterative_precovery_and_differential_correction orbits orbit_members
               observations params dir chunk_size max_processes st in
  (forall r o, st !! r = Some o -> out.1.1 !! r = Some o) /\
  (forall r, r ∈ freed_refs out.1.2 -> r ∈ put_refs out.1.2 /\ st !! r = None) /\
  (forall r,
     given_ref orbits = Some r \/ given_ref_optional orbit_members = Some r \/
     given_ref_optional observations = Some r ->
     r ∉ freed_refs out.1.2) /\
  (forall rs, EvFree rs ∈ out.1.2 ->
     exists r ids, r ∈ rs /\ EvPut r (OIds ids) ∈ out.1.2).
Proof.
  intros out. subst out.
  destruct (run_frees orbits orbit_members observations params dir chunk_size
              max_processes st)
    as [[Hst Hnf]
       |(vo & vm & vb & st1 & tra & pl & k & Hvo & Hvm & Hvb & Hok & Hst & Htr
         & Hnf & Hk)].
  - rewrite (freed_refs_none _ Hnf). split_and!.
    + intros r o Hr. by eapply lookup_weaken.
    + by intros r ?%elem_of_nil.
    + by intros r _ ?%elem_of_nil.
    + intros rs Hin. by apply not_freed_of_class in Hin.
  - rewrite Hst, Htr.
    pose proof (placed_fresh _ _ _ _ _ _ _ _ _ _ _ Hok) as Hfresh.
    pose proof (placed_refs _ _ _ _ _ _ _ _ _ _ _ Hok) as Hrefs.
    rewrite Forall_forall in Hfresh.
    assert (freed_refs (k ++ [EvFree (p_refs_to_free pl)]) = put_refs tra) as Hfreed.
    { rewrite freed_refs_app, (freed_refs_none _ Hnf). unfold freed_refs. simpl.
      by rewrite app_nil_r. }
    rewrite Hfreed.
    assert (forall r, r ∈ put_refs tra -> r ∈ put_refs (k ++ [EvFree (p_refs_to_free pl)]))
      as Hput.
    { intros r [o Hin]%elem_of_put_refs. apply elem_of_put_refs. exists o.
      apply elem_of_app. left. by apply Hk. }
    split_and!.
    + intros r o Hr. rewrite lookup_foldr_delete.
      * eapply lookup_weaken; [exact Hr|].
        exact (placed_store _ _ _ _ _ _ _ _ _ _ _ Hok).
      * rewrite Hrefs. intros Hin. apply Hfresh in Hin. congruence.
    + intros r Hin. split; [by apply Hput|by apply Hfresh].
    + intros r Hgiven Hin. apply Hfresh in Hin.
      destruct Hgiven as [Hg|[Hg|Hg]].
      * pose proof (holds_given _ _ _ _ _ Hvo Hg). congruence.
      * destruct (holds_optional_given _ _ _ _ _ Hvm Hg) as (a & _ & Ha). congruence.
      * destruct (holds_optional_given _ _ _ _ _ Hvb Hg) as (a & _ & Ha). congruence.
    + intros rs [Hin|Hin]%elem_of_app.
      * by apply not_freed_of_class in Hin.
      * apply list_elem_of_singleton in Hin as [= ->].
        exists (p_orbit_ids_ref pl), (map row_orbit_id vo). split.
        -- rewrite Hrefs.
           destruct (placed_ids_first _ _ _ _ _ _ _ _ _ _ _ Hok) as [rest ->]. by left.
        -- apply elem_of_app. left. apply Hk.
           exact (placed_ids_put _ _ _ _ _ _ _ _ _ _ _ Hok).
Qed.

End DriverClaims.

Section RunClaims.
Context `{E : Externals}.

(** C3: when the refinement routine raises for an identifier of a chunk (the
    identifiers before it having succeeded), the worker has called the
    routine for the identifiers up to that one and for no later one, logs and
    prints the error with the identifier, and raises it: the chunk task has
    no result.  A run over readable inputs in which the routine raises for
    one of its identifiers returns nothing either: it raises what the routine
    raised for an identifier of the run, which is that very error when the
    routine raises for no other identifier. *)
Theorem refinement_failure_aborts `{R : Runtime} orbits orbit_members observations
    params dir chunk_size max_processes st vo vm vb pre orbit_id post e :
  let db := {| db_directory := dir |} in
  let chunk := pre ++ orbit_id :: post in
  let calls := map (ipod_event vo vm vb) pre ++
               [ipod_event vo vm vb orbit_id; EvLogError orbit_id e;
                EvPrint orbit_id e] in
  Forall (succeeds vo vm vb params db) pre ->
  refine vo vm vb params db orbit_id = Raise e ->
  (forall st0,
     ipod_worker chunk vo vm vb params (DbDirectory dir) st0
     = (st0, EvWorker chunk :: EvOpen dir :: calls, Raise e)) /\
  (forall st0,
     ipod_worker chunk vo vm vb params (DbOpen db) st0
     = (st0, EvWorker chunk :: calls, Raise e)) /\
  (forall orbit_ids idx st0,
     py_slice orbit_ids idx.1 idx.2 = chunk ->
     ipod_worker_remote orbit_ids idx vo vm vb params dir st0
     = (st0, EvOpen dir :: EvWorker chunk :: calls, Raise e)) /\
  (holds OOrbits st orbits vo ->
   holds_optional OMembers st orbit_members vm ->
   holds_optional OObservations st observations vb ->
   1 <= chunk_size -> 1 <= default cpu_count max_processes ->
   orbit_id ∈ map row_orbit_id vo ->
   exists st' tr orbit_id' e',
     iterative_precovery_and_differential_correction orbits orbit_members observations
       params dir chunk_size max_processes st = (st', tr, Raise e') /\
     orbit_id' ∈ map row_orbit_id vo /\
     refine vo vm vb params db orbit_id' = Raise e' /\
     ((forall x, x ∈ map row_orbit_id vo -> x <> orbit_id ->
         succeeds vo vm vb params db x) ->
      e' = e)).
Proof.
  intros db chunk calls Hpre He. split_and!.
  - intros st0. rewrite ipod_worker_run.
    unfold chunk. by rewrite (ipod_worker_loop_raise _ _ _ e).
  - intros st0. rewrite ipod_worker_run.
    unfold chunk. by rewrite (ipod_worker_loop_raise _ _ _ e).
  - intros orbit_ids idx st0 Hslice. rewrite ipod_worker_remote_run. cbv zeta.
    rewrite Hslice. unfold chunk. by rewrite (ipod_worker_loop_raise _ _ _ e).
  - intros Hvo Hvm Hvb Hsize Hw Hin.
    assert (forall orbit_id' e',
              refine vo vm vb params db orbit_id' = Raise e' ->
              (forall x, x ∈ map row_orbit_id vo -> x <> orbit_id ->
                 succeeds vo vm vb params db x) ->
              orbit_id' ∈ map row_orbit_id vo -> e' = e) as Hsame.
    { intros id' e' He' Hothers Hin'.
      destruct (decide (id' = orbit_id)) as [->|Hne]; [congruence|].
      destruct (Hothers id' Hin' Hne) as [t Ht]. congruence. }
    rewrite (entry_point_valid _ _ _ _ _ _ _ _ vo vm vb) by done. cbv zeta.
    destruct (Nat.eqb_spec (length vo) 0) as [Hlen|_].
    { destruct vo; [by apply elem_of_nil in Hin|done]. }
    destruct (initialize_use_ray _).
    + destruct (distributed_path_fails (map row_orbit_id vo) (given_ref orbits) vo
                  (given_ref_optional orbit_members) vm
                  (given_ref_optional observations) vb params dir chunk_size
                  (default cpu_count max_processes) st orbit_id e
                  (fun r Hr => holds_given _ _ _ _ _ Hvo Hr)
                  (fun r Hr => holds_optional_given _ _ _ _ _ Hvm Hr)
                  (fun r Hr => holds_optional_given _ _ _ _ _ Hvb Hr)
                  Hw Hsize Hin He)
        as (st' & tr & id' & e' & -> & Hin' & He').
      eexists _, _, id', e'. split_and!; [done..|]. intros Hothers. by eapply Hsame.
    + destruct (sequential_path_fails (map row_orbit_id vo) vo vm vb params dir
                  chunk_size st orbit_id e Hsize Hin He)
        as (tr & id' & e' & -> & Hin' & He').
      eexists _, _, id', e'. split_and!; [done..|]. intros Hothers. by eapply Hsame.
Qed.

(** C7: on readable inputs for which no call of the refinement routine
    fails, with a positive chunk size and at least one worker, a run on the
    distributed path (whatever the order in which [ray.wait] reports the
    tasks) and a run on the sequential path both return, and their results
    are equal as multisets, collection by collection; the sequential result
    is the concatenation of the results in the order of the identifiers. *)
Theorem paths_agree (R1 R2 : Runtime) orbits orbit_members observations params dir
    chunk_size max_processes st vo vm vb :
  let db := {| db_directory := dir |} in
  let w1 := default (@cpu_count R1) max_processes in
  let w2 := default (@cpu_count R2) max_processes in
  holds OOrbits st orbits vo ->
  holds_optional OMembers st orbit_members vm ->
  holds_optional OObservations st observations vb ->
  1 <= chunk_size -> 1 <= w1 ->
  @initialize_use_ray R1 w1 = true ->
  @initialize_use_ray R2 w2 = false ->
  Forall (succeeds vo vm vb params db) (map row_orbit_id vo) ->
  exists st1 tr1 q1 tr2 q2,
    iterative_precovery_and_differential_correction (R := R1) orbits orbit_members
      observations params dir chunk_size max_processes st = (st1, tr1, Ok q1) /\
    iterative_precovery_and_differential_correction (R := R2) orbits orbit_members
      observations params dir chunk_size max_processes st = (st, tr2, Ok q2) /\
    quad_perm q1 q2 /\
    q2 = batch vo vm vb params db (map row_orbit_id vo).
Proof.
  intros db w1 w2 Hvo Hvm Hvb Hsize Hw Hray1 Hray2 Hall.
  rewrite !(entry_point_valid _ _ _ _ _ _ _ _ vo vm vb) by done. cbv zeta.
  fold w1 w2. rewrite Hray1, Hray2.
  destruct (Nat.eqb_spec (length vo) 0) as [Hlen|Hlen].
  { destruct vo; [|done]. by eexists _, _, _, _, _. }
  assert (map row_orbit_id vo <> []) as Hne by (by destruct vo).
  destruct (distributed_path_ok (R := R1) (map row_orbit_id vo) (given_ref orbits) vo
              (given_ref_optional orbit_members) vm
              (given_ref_optional observations) vb params dir chunk_size w1 st
              (fun r Hr => holds_given _ _ _ _ _ Hvo Hr)
              (fun r Hr => holds_optional_given _ _ _ _ _ Hvm Hr)
              (fun r Hr => holds_optional_given _ _ _ _ _ Hvb Hr)
              Hw Hsize Hne Hall)
    as (st1 & tr1 & q1 & -> & Hperm).
  destruct (sequential_path_ok (map row_orbit_id vo) vo vm vb params dir chunk_size st
              Hsize Hall) as [tr2 ->].
  by eexists _, _, _, _, _.
Qed.

End RunClaims.

(** ** The claims on the concrete instance *)

Section Instances.
Import Demo.
Local Open Scope string_scope.

Lemma ipod_worker_remote_leaks_on_failure_witness :
  count is_open
    (ipod_worker_remote (E := externals) bad_chunk (0, 3) bad_chunk None None tt "db" ∅).1.2
    = 1%nat /\
  count is_close
    (ipod_worker_remote (E := externals) bad_chunk (0, 3) bad_chunk None None tt "db" ∅).1.2
    = 0%nat.
Proof.
  refine (ipod_worker_remote_leaks_on_failure (E := externals) bad_chunk (0, 3)
            bad_chunk None None tt "db" ∅ _ _ (RefinementError "bad orbit") _).
  vm_compute. reflexivity.
Defined.

Lemma co_occurrence_degradation_witness :
  let out := ipod_worker (E := externals) five five (Some [("a", "o1")]) None tt
               (DbDirectory "db") ∅ in
  ipod_calls out.1.2
  = map (fun orbit_id : string =>
           EvIpod (E := externals) (select_orbit (E := externals) five orbit_id) None)
      five /\
  Forall (fun ev => forall orbit obs, ev = EvIpod orbit obs -> obs = None) out.1.2.
Proof.
  intros out.
  destruct (co_occurrence_degradation (E := externals) five five (Some [("a", "o1")])
              None tt (DbDirectory "db") ∅ (or_intror eq_refl))
    as [(processed & rest & Hsplit & Hcalls & Hok & _) Hall].
  split; [|exact Hall].
  assert (rest = []) as Hrest by (eapply Hok; vm_compute; reflexivity).
  rewrite Hrest, app_nil_r in Hsplit. rewrite <- Hsplit in Hcalls. exact Hcalls.
Defined.



Lemma empty_input_returns_empty_witness :
  exists tr,
    iterative_precovery_and_differential_correction (E := externals)
      (R := runtime true 0) (Value []) None None tt "db" 2 (Some 2) ∅
    = (∅, tr, Ok empty_quad) /\
    Forall (fun ev => is_get ev = true) tr /\
    count is_ipod tr = 0%nat /\ count is_submit tr = 0%nat.
Proof.
  refine (empty_input_returns_empty (E := externals) (R := runtime true 0) (Value [])
            None None tt "db" 2 (Some 2) ∅ None None _ _ _); reflexivity.
Defined.

Lemma placement_at_most_once_witness :
  count is_put_orbits reference_run.1.2 = 0%nat /\
  EvGet 7%nat ∈ reference_run.1.2 /\
  forall t, EvSubmit t ∈ reference_run.1.2 -> t_orbits_ref t = 7%nat.
Proof.
  exact (proj1 (proj2 (placement_at_most_once (E := externals) (R := runtime true 0)
                         (Reference 7%nat) None None tt "db" 2 (Some 2) caller_store))
           7%nat eq_refl).
Defined.

Lemma caller_references_survive_witness :
  reference_run.1.1 !! 7%nat = Some (OOrbits (E := externals) five) /\ 7%nat ∉ freed_refs reference_run.1.2.
Proof.
  pose proof (caller_references_survive (E := externals) (R := runtime true 0)
                (Reference 7%nat) None None tt "db" 2 (Some 2) caller_store)
    as (Hkept & _ & Hnot & _).
  split.
  - apply Hkept. reflexivity.
  - apply Hnot. left. reflexivity.
Defined.

Lemma refinement_failure_aborts_witness :
  ipod_worker_remote (E := externals) bad_chunk (0, 3) bad_chunk None None tt "db" ∅
  = (∅, [EvOpen "db"; EvWorker bad_chunk; EvIpod (E := externals) one_orbit None;
         EvIpod (E := externals) (["bad"] : list string) None;
         EvLogError "bad" (RefinementError "bad orbit");
         EvPrint "bad" (RefinementError "bad orbit")],
     Raise (RefinementError "bad orbit")) /\
  exists st' tr orbit_id' e',
    iterative_precovery_and_differential_correction (E := externals)
      (R := runtime true 1) (Value bad_chunk) None None tt "db" 2 (Some 2) ∅
    = (st', tr, Raise e') /\
    orbit_id' ∈ bad_chunk /\
    refine (E := externals) bad_chunk None None tt {| db_directory := "db" |} orbit_id'
    = Raise e' /\
    ((forall x, x ∈ bad_chunk -> x <> "bad" ->
        succeeds (E := externals) bad_chunk None None tt {| db_directory := "db" |} x) ->
     e' = RefinementError "bad orbit").
Proof.
  pose proof (refinement_failure_aborts (E := externals) (R := runtime true 1)
                (Value bad_chunk) None None tt "db" 2 (Some 2) ∅ bad_chunk None None
                ["a"] "bad" ["c"] (RefinementError "bad orbit")) as H.
  destruct H as (_ & _ & Hremote & Hrun).
  - repeat constructor. by eexists.
  - reflexivity.
  - split.
    + apply (Hremote bad_chunk (0, 3) ∅). reflexivity.
    + apply Hrun; try reflexivity; try (simpl; lia).
      apply list_elem_of_In. simpl. tauto.
Defined.

Lemma paths_agree_witness :
  exists st1 tr1 q1 tr2 q2,
    iterative_precovery_and_differential_correction (E := externals)
      (R := runtime true 1) (Value five) None None tt "db" 2 (Some 2) ∅
    = (st1, tr1, Ok q1) /\
    iterative_precovery_and_differential_correction (E := externals)
      (R := runtime false 0) (Value five) None None tt "db" 2 (Some 2) ∅
    = (∅, tr2, Ok q2) /\
    quad_perm q1 q2 /\
    q2 = batch (E := externals) five None None tt {| db_directory := "db" |} five.
Proof.
  refine (paths_agree (E := externals) (runtime true 1) (runtime false 0) (Value five)
            None None tt "db" 2 (Some 2) ∅ five None None _ _ _ _ _ _ _ _);
    try reflexivity; try (simpl; lia).
  repeat constructor; by eexists.
Defined.

End Instances.

(** * Further properties of the worker and the driver *)

Section WorkerProperties.
Context `{E : Externals}.

(** X1: when the refinement routine returns for every identifier of a chunk,
    the worker calls it exactly once per identifier, in the order of the
    chunk, and returns the four collections concatenated in that order.
    Called with a directory it opens the database and does not close it;
    the remote worker does this for the slice of its index range, between
    one open and one close of the database. *)
Theorem ipod_worker_success chunk orbits orbit_members observations params dir st :
  let db := {| db_directory := dir |} in
  let calls := map (ipod_event orbits orbit_members observations) chunk in
  let result := batch orbits orbit_members observations params db chunk in
  Forall (succeeds orbits orbit_members observations params db) chunk ->
  ipod_worker chunk orbits orbit_members observations params (DbDirectory dir) st
    = (st, EvWorker chunk :: EvOpen dir :: calls, Ok result) /\
  ipod_worker chunk orbits orbit_members observations params (DbOpen db) st
    = (st, EvWorker chunk :: calls, Ok result) /\
  (forall orbit_ids idx,
     py_slice orbit_ids idx.1 idx.2 = chunk ->
     ipod_worker_remote orbit_ids idx orbits orbit_members observations params dir st
     = (st, EvOpen dir :: EvWorker chunk :: calls ++ [EvClose db], Ok result)).
Proof.
  intros db calls result Hok. split_and!.
  - rewrite ipod_worker_run, ipod_worker_loop_ok by done. by rewrite merge_empty_l.
  - rewrite ipod_worker_run, ipod_worker_loop_ok by done. by rewrite merge_empty_l.
  - intros orbit_ids idx Hslice. rewrite ipod_worker_remote_run. cbv zeta.
    rewrite Hslice, ipod_worker_loop_ok by done. by rewrite merge_empty_l.
Qed.

(** X2: when both the membership table and the observation table are
    supplied, the worker calls the refinement routine once for each
    identifier it processes, in the order of the chunk (all of the chunk
    when it returns), each time with the rows selected for the identifier
    and with an observation set, never [None].  That set is built from rows
    of the observation table only, in the order of the table: exactly the
    rows whose id is the [obs_id] of a member row of this identifier, so
    that no observation of another orbit is handed to the routine; the rows
    go through the table's sort, and the observers are those of the sorted
    rows, sorted in turn. *)
Theorem observations_built_per_identifier chunk orbits members obs params database st :
  let out := ipod_worker chunk orbits (Some members) (Some obs) params database st in
  exists processed rest,
    chunk = processed ++ rest /\
    (forall q, out.2 = Ok q -> rest = []) /\
    Forall2 (fun orbit_id ev =>
               exists rows,
                 observations_of members obs orbit_id rows /\
                 ev = EvIpod (select_orbit orbits orbit_id)
                        (Some (od_from_kwargs (sort_observations rows)
                                 (sort_observers
                                    (get_observers (sort_observations rows))))))
      processed (ipod_calls out.1.2).
Proof.
  cbv zeta.
  destruct (ipod_worker_calls chunk orbits (Some members) (Some obs) params database st)
    as [-> ->].
  destruct (ipod_worker_loop_calls chunk orbits (Some members) (Some obs) params
              (match database with
               | DbDirectory dir => {| db_directory := dir |}
               | DbOpen db => db
               end) empty_quad st)
    as (processed & rest & Hsplit & Hcalls & Hok & _).
  exists processed, rest. split_and!; [done..|].
  rewrite Hcalls. apply Forall2_fmap_r, Forall_Forall2_diag, Forall_forall.
  intros orbit_id _.
  exists (filter (fun o => observation_id o ∈
                    map member_obs_id
                      (filter (fun m => member_orbit_id m = orbit_id) members)) obs).
  split; [|done]. split; [apply sublist_filter|].
  intros o. rewrite list_elem_of_filter. split.
  - intros [(m & Hid & [Hm Hin]%list_elem_of_filter)%list_elem_of_fmap Ho].
    split; [done|]. by exists m.
  - intros [Ho (m & Hin & Hm & Hid)]. split; [|done].
    apply list_elem_of_fmap. exists m. split; [done|].
    apply list_elem_of_filter. by split.
Qed.

End WorkerProperties.

Section PlacementProperties.
Context `{E : Externals} `{R : Runtime}.
Implicit Types (st : store).

Local Ltac new_refs :=
  repeat match goal with
  | H : <[_ := _]> _ !! _ = None |- _ => apply lookup_insert_None in H as [? ?]
  end.

Local Ltac find_in_store :=
  repeat first
    [ rewrite lookup_insert_eq
    | rewrite lookup_insert_ne by congruence ];
  try done.

Local Ltac frame_cases :=
  split;
  [ intros r Hr; simpl in Hr; rewrite ?not_elem_of_cons in Hr; destruct_and?;
    by rewrite ?lookup_insert_ne by congruence
  | intros r Hr; simpl in Hr;
    repeat (apply elem_of_cons in Hr as [->|Hr]);
    [ new_refs; find_in_store; by eexists .. | by apply elem_of_nil in Hr ] ].

(** The placement changes the store at the references it places, which it
    fills, and nowhere else. *)
Lemma place_inputs_frame orbit_ids orbits_ref orbits orbit_members_ref orbit_members
    observations_ref observations st st1 tra pl :
  place_inputs orbit_ids orbits_ref orbits orbit_members_ref orbit_members
    observations_ref observations st = (st1, tra, Ok pl) ->
  (forall r, r ∉ put_refs tra -> st1 !! r = st !! r) /\
  (forall r, r ∈ put_refs tra -> is_Some (st1 !! r)).
Proof.
  unfold place_inputs. rewrite bind_run, ray_put_run.
  pose proof (fresh_not_in_store st) as H0. revert H0.
  generalize (fresh (dom st)). intros r0 H0.
  rewrite bind_run.
  rewrite (ray_get_as_run OIds as_ids as_ids_wrap _ r0 orbit_ids)
    by apply lookup_insert_eq.
  rewrite bind_run, (place_run OOrbits as_orbits as_orbits_wrap).
  set (st0 := <[r0 := OIds orbit_ids]> st) in *.
  destruct orbits_ref as [ro|]; cbn zeta.
  - rewrite bind_run, (place_optional_run OMembers as_members as_members_wrap).
    destruct orbit_members_ref as [rm|], orbit_members as [vm|]; cbn zeta;
      try (pose proof (fresh_not_in_store st0) as H1; revert H1;
           generalize (fresh (dom st0)); intros r1 H1);
      (rewrite bind_run,
         (place_optional_run OObservations as_observations as_observations_wrap);
       destruct observations_ref as [rb|], observations as [vb|]; cbn zeta;
       try match goal with
           | |- context [fresh (dom ?m)] =>
               let H := fresh "H2" in
               pose proof (fresh_not_in_store m) as H; revert H;
               generalize (fresh (dom m)); intros r2 H
           end);
      unfold ret; simpl; subst st0; intros [= <- <- <-]; frame_cases.
  - pose proof (fresh_not_in_store st0) as Ho. revert Ho.
    generalize (fresh (dom st0)). intros ro Ho.
    set (st1' := <[ro := OOrbits orbits]> st0) in *.
    rewrite bind_run, (place_optional_run OMembers as_members as_members_wrap).
    destruct orbit_members_ref as [rm|], orbit_members as [vm|]; cbn zeta;
      try (pose proof (fresh_not_in_store st1') as H1; revert H1;
           generalize (fresh (dom st1')); intros r1 H1);
      (rewrite bind_run,
         (place_optional_run OObservations as_observations as_observations_wrap);
       destruct observations_ref as [rb|], observations as [vb|]; cbn zeta;
       try match goal with
           | |- context [fresh (dom ?m)] =>
               let H := fresh "H2" in
               pose proof (fresh_not_in_store m) as H; revert H;
               generalize (fresh (dom m)); intros r2 H
           end);
      unfold ret; simpl; subst st1' st0; intros [= <- <- <-]; frame_cases.
Qed.

End PlacementProperties.

Section RunShape.
Context `{E : Externals} `{R : Runtime}.
Implicit Types (st : store).

Local Ltac of_class H := eapply Forall_impl; [exact H|]; by intros [].

(** The distributed path, with the run of the placement it starts with. *)
Lemma distributed_path_shape orbit_ids orbits_ref orbits orbit_members_ref
    orbit_members observations_ref observations params dir chunk_size w st :
  exists st1 tra pl trb r,
    place_inputs orbit_ids orbits_ref orbits orbit_members_ref orbit_members
      observations_ref observations st = (st1, tra, Ok pl) /\
    placed_ok st orbit_ids orbits_ref orbits orbit_members_ref orbit_members
      observations_ref observations st1 tra pl /\
    dispatch_run st1 pl params dir chunk_size w trb r /\
    distributed_path orbit_ids orbits_ref orbits orbit_members_ref orbit_members
      observations_ref observations params dir chunk_size w st =
    match r with
    | Ok q => (foldr delete st1 (p_refs_to_free pl),
               tra ++ trb ++ [EvFree (p_refs_to_free pl)], Ok q)
    | Raise e => (st1, tra ++ trb, Raise e)
    end.
Proof.
  destruct (place_inputs_run orbit_ids orbits_ref orbits orbit_members_ref
              orbit_members observations_ref observations st)
    as (st1 & tra & pl & Hplace & Hok).
  destruct (dispatch_loop_run st1 pl params dir chunk_size w)
    as (trb & r & Hdispatch & Hrun).
  exists st1, tra, pl, trb, r. split_and!; [done..|].
  unfold distributed_path. rewrite bind_run, Hplace, bind_run, Hdispatch.
  destruct r as [q|e]; [|done].
  unfold bind, free_placed, ray_free, ret.
  destruct (placed_ids_first _ _ _ _ _ _ _ _ _ _ _ Hok) as [rest Hrest].
  rewrite (placed_refs _ _ _ _ _ _ _ _ _ _ _ Hok), Hrest. by simpl.
Qed.

(** The four ways a run can go: it fails to read an input back; it returns
    at once on an empty orbit table; it takes the sequential path; it takes
    the distributed path. *)
Lemma run_shape orbits orbit_members observations params dir chunk_size
    max_processes st :
  let w := default cpu_count max_processes in
  let out := iterative_precovery_and_differential_correction orbits orbit_members
               observations params dir chunk_size max_processes st in
  (exists tr e, out = (st, tr, Raise e) /\ Forall (fun ev => is_get ev = true) tr) \/
  (exists tr, holds OOrbits st orbits [] /\ out = (st, tr, Ok empty_quad) /\
     Forall (fun ev => is_get ev = true) tr) \/
  (exists vo vm vb tr0 tr r,
     initialize_use_ray w = false /\
     holds OOrbits st orbits vo /\ vo <> [] /\
     Forall (fun ev => is_get ev = true) tr0 /\
     sequential_path (map row_orbit_id vo) vo vm vb params dir chunk_size st
       = (st, tr, r) /\
     out = (st, tr0 ++ [EvInitRay w] ++ tr, r)) \/
  (exists vo vm vb tr0 st1 tra pl trb r,
     initialize_use_ray w = true /\
     holds OOrbits st orbits vo /\ vo <> [] /\
     Forall (fun ev => is_get ev = true) tr0 /\
     place_inputs (map row_orbit_id vo) (given_ref orbits) vo
       (given_ref_optional orbit_members) vm (given_ref_optional observations) vb st
       = (st1, tra, Ok pl) /\
     placed_ok st (map row_orbit_id vo) (given_ref orbits) vo
       (given_ref_optional orbit_members) vm (given_ref_optional observations) vb
       st1 tra pl /\
     dispatch_run st1 pl params dir chunk_size w trb r /\
     out = match r with
           | Ok q => (foldr delete st1 (p_refs_to_free pl),
                      tr0 ++ [EvInitRay w] ++ tra ++ trb ++
                      [EvFree (p_refs_to_free pl)], Ok q)
           | Raise e => (st1, tr0 ++ [EvInitRay w] ++ tra ++ trb, Raise e)
           end).
Proof.
  intros w out. subst out.
  destruct (read_back_events orbits orbit_members observations) as (Hg1 & Hg2 & Hg3).
  destruct (entry_point_run orbits orbit_members observations params dir chunk_size
              max_processes st)
    as [(e & _ & ->)|[(e & _ & ->)|[(e & _ & ->)
       |(vo & vm & vb & Hvo & Hvm & Hvb & Hshape)]]].
  1-3: left; by eexists _, _.
  cbv zeta in Hshape. fold w in Hshape.
  remember (read_back orbits ++ read_back_optional orbit_members ++
            read_back_optional observations) as tr0 eqn:Htr0. clear Htr0.
  destruct (Nat.eqb_spec (length vo) 0) as [Hlen|Hlen].
  { right. left. exists tr0. destruct vo; [|done]. done. }
  assert (vo <> []) as Hne by (by destruct vo).
  destruct Hshape as (st' & tr & r & -> & Hpath).
  rewrite (cons_as_app (EvInitRay w)).
  destruct (initialize_use_ray w) eqn:Hray.
  - right. right. right.
    destruct (distributed_path_shape (map row_orbit_id vo) (given_ref orbits) vo
                (given_ref_optional orbit_members) vm
                (given_ref_optional observations) vb params dir chunk_size w st)
      as (st1 & tra & pl & trb & r' & Hplace & Hok & Hdisp & Heq).
    rewrite Hpath in Heq.
    exists vo, vm, vb, tr0, st1, tra, pl, trb, r'. split_and!; [done..|].
    by destruct r'; injection Heq as -> -> ->.
  - right. right. left.
    pose proof (sequential_path_store (map row_orbit_id vo) vo vm vb params dir
      chunk_size st) as Hst. rewrite Hpath in Hst. simpl in Hst. subst st'.
    by exists vo, vm, vb, tr0, tr, r.
Qed.

Lemma lookup_foldr_delete_in st (rs : list ref) r :
  r ∈ rs -> foldr delete st rs !! r = None.
Proof.
  induction rs as [|r' rs IH]; [by intros ?%elem_of_nil|]. simpl.
  destruct (decide (r' = r)) as [->|Hne]; [by rewrite lookup_delete_eq|].
  intros [?|Hin]%elem_of_cons; [congruence|].
  rewrite lookup_delete_ne by done. by apply IH.
Qed.

End RunShape.

Section StoreProperties.
Context `{E : Externals} `{R : Runtime}.
Implicit Types (st : store).

Local Ltac of_class H := eapply Forall_impl; [exact H|]; by intros [].
Local Ltac by_segments :=
  repeat first [apply Forall_nil | apply Forall_cons; split; [done|]
               | apply Forall_app; split];
  match goal with
  | H : Forall _ ?l |- Forall _ ?l => eapply Forall_impl; [exact H|]; by intros []
  end.

(** X3: when the runtime declines Ray, the run works in the calling process
    only: it leaves the object store as it found it, and apart from reading
    its inputs back it places nothing in the store, submits no task, waits
    for none and frees nothing. *)
Theorem sequential_run_is_local orbits orbit_members observations params dir
    chunk_size max_processes st :
  initialize_use_ray (default cpu_count max_processes) = false ->
  let out := iterative_precovery_and_differential_correction orbits orbit_members
               observations params dir chunk_size max_processes st in
  out.1.1 = st /\ Forall (fun ev => is_local_event ev = true) out.1.2.
Proof.
  intros Hray out. subst out.
  destruct (run_shape orbits orbit_members observations params dir chunk_size
              max_processes st)
    as [(tr & e & -> & Hg)|[(tr & _ & -> & Hg)
       |[(vo & vm & vb & tr0 & tr & r & _ & _ & _ & Hg & Hpath & ->)
        |(vo & vm & vb & tr0 & st1 & tra & pl & trb & r & Hray' & _)]]];
    cbn [fst snd]; try congruence.
  - split; [done|]. of_class Hg.
  - split; [done|]. of_class Hg.
  - split; [done|].
    pose proof (sequential_path_events (map row_orbit_id vo) vo vm vb params dir
      chunk_size st) as Hev. rewrite Hpath in Hev. simpl in Hev.
    by_segments.
Qed.

(** X4: a run that returns leaves the object store exactly as it found it:
    on the distributed path everything it placed is freed again, and nothing
    else is removed or changed. *)
Theorem returning_run_restores_store orbits orbit_members observations params dir
    chunk_size max_processes st st' tr q :
  iterative_precovery_and_differential_correction orbits orbit_members observations
    params dir chunk_size max_processes st = (st', tr, Ok q) ->
  st' = st.
Proof.
  intros Hrun.
  destruct (run_shape orbits orbit_members observations params dir chunk_size
              max_processes st)
    as [(tr1 & e & Heq & _)|[(tr1 & _ & Heq & _)
       |[(vo & vm & vb & tr0 & tr1 & r & _ & _ & _ & _ & _ & Heq)
        |(vo & vm & vb & tr0 & st1 & tra & pl & trb & r & _ & _ & _ & _ & Hplace & Hok
          & _ & Heq)]]];
    rewrite Hrun in Heq; try congruence.
  destruct r as [q'|e]; [|done]. injection Heq as -> _ _.
  destruct (place_inputs_frame _ _ _ _ _ _ _ _ _ _ _ Hplace) as [Hframe _].
  pose proof (placed_fresh _ _ _ _ _ _ _ _ _ _ _ Hok) as Hfresh.
  rewrite Forall_forall in Hfresh.
  rewrite (placed_refs _ _ _ _ _ _ _ _ _ _ _ Hok).
  apply map_eq. intros r. destruct (decide (r ∈ put_refs tra)) as [Hin|Hnot].
  - rewrite lookup_foldr_delete_in by done. symmetry. by apply Hfresh.
  - rewrite lookup_foldr_delete by done. by apply Hframe.
Qed.

(** X5: a run that raises frees nothing.  What the store held before is
    still there, and so is every object the run had placed by then under a
    new reference: on the distributed path a failing task leaves the shared
    inputs of the run in the object store. *)
Theorem failed_run_frees_nothing orbits orbit_members observations params dir
    chunk_size max_processes st st' tr e :
  iterative_precovery_and_differential_correction orbits orbit_members observations
    params dir chunk_size max_processes st = (st', tr, Raise e) ->
  Forall (fun ev => is_not_free ev = true) tr /\
  (forall r o, st !! r = Some o -> st' !! r = Some o) /\
  (forall r, r ∈ put_refs tr -> st !! r = None /\ is_Some (st' !! r)).
Proof.
  intros Hrun.
  destruct (run_shape orbits orbit_members observations params dir chunk_size
              max_processes st)
    as [(tr1 & e1 & Heq & Hg)|[(tr1 & _ & Heq & _)
       |[(vo & vm & vb & tr0 & tr1 & r & _ & _ & _ & Hg & Hpath & Heq)
        |(vo & vm & vb & tr0 & st1 & tra & pl & trb & r & _ & _ & _ & Hg & Hplace & Hok
          & Hdisp & Heq)]]];
    rewrite Hrun in Heq; try congruence.
  - injection Heq as -> -> _. split_and!; [of_class Hg|done|].
    intros r Hr. rewrite (put_refs_gets _ Hg) in Hr. by apply elem_of_nil in Hr.
  - injection Heq as -> -> _.
    pose proof (sequential_path_events (map row_orbit_id vo) vo vm vb params dir
      chunk_size st) as Hev. rewrite Hpath in Hev. simpl in Hev.
    split_and!; [|done|].
    + by_segments.
    + intros r' Hr. rewrite (cons_as_app (EvInitRay _)), !put_refs_app in Hr.
      rewrite (put_refs_gets _ Hg), (put_refs_none tr1) in Hr by of_class Hev.
      by apply elem_of_nil in Hr.
  - destruct r as [q|e']; [done|]. injection Heq as -> -> _.
    pose proof (dispatch_run_events _ _ _ _ _ _ _ _ Hdisp) as Hdev.
    pose proof (placed_events _ _ _ _ _ _ _ _ _ _ _ Hok) as Hacc.
    destruct (place_inputs_frame _ _ _ _ _ _ _ _ _ _ _ Hplace) as [_ Hfilled].
    pose proof (placed_fresh _ _ _ _ _ _ _ _ _ _ _ Hok) as Hfresh.
    rewrite Forall_forall in Hfresh.
    split_and!.
    + by_segments.
    + intros r' o Hr. eapply lookup_weaken; [exact Hr|].
      exact (placed_store _ _ _ _ _ _ _ _ _ _ _ Hok).
    + intros r' Hr.
      rewrite (cons_as_app (EvInitRay _)), !put_refs_app in Hr.
      rewrite (put_refs_gets _ Hg), (put_refs_none trb) in Hr by of_class Hdev.
      simpl in Hr. rewrite app_nil_r in Hr.
      split; [by apply Hfresh|by apply Hfilled].
Qed.

End StoreProperties.

Section DispatcherProperties.
Context `{E : Externals} `{R : Runtime}.
Implicit Types (st : store).

Lemma submitted_tasks_app (tr1 tr2 : list event) :
  submitted_tasks (tr1 ++ tr2) = submitted_tasks tr1 ++ submitted_tasks tr2.
Proof. apply omap_app. Qed.

Lemma waited_tasks_app (tr1 tr2 : list event) :
  waited_tasks (tr1 ++ tr2) = waited_tasks tr1 ++ waited_tasks tr2.
Proof. apply omap_app. Qed.

Lemma fetched_tasks_app (tr1 tr2 : list event) :
  fetched_tasks (tr1 ++ tr2) = fetched_tasks tr1 ++ fetched_tasks tr2.
Proof. apply omap_app. Qed.

Lemma submitted_tasks_cons ev (tr : list event) :
  submitted_tasks (ev :: tr)
  = match ev with EvSubmit t => t :: submitted_tasks tr | _ => submitted_tasks tr end.
Proof. by destruct ev. Qed.

Lemma waited_tasks_cons ev (tr : list event) :
  waited_tasks (ev :: tr)
  = match ev with EvWait t => t :: waited_tasks tr | _ => waited_tasks tr end.
Proof. by destruct ev. Qed.

Lemma fetched_tasks_cons ev (tr : list event) :
  fetched_tasks (ev :: tr)
  = match ev with EvGetResult t => t :: fetched_tasks tr | _ => fetched_tasks tr end.
Proof. by destruct ev. Qed.

Lemma waited_tasks_init w : waited_tasks [EvInitRay w] = [].
Proof. done. Qed.

Lemma waited_tasks_free rs : waited_tasks [EvFree rs] = [].
Proof. done. Qed.

Lemma tasks_none (tr : list event) :
  Forall (fun ev => is_dispatch_event ev = false) tr ->
  submitted_tasks tr = [] /\ waited_tasks tr = [] /\ fetched_tasks tr = [].
Proof.
  induction 1 as [|ev tr Hev _ IH]; [done|]. by destruct ev.
Qed.

(** The submission loop: what was outstanding at its start and what it
    submitted is what it waited for and what it leaves outstanding. *)
Lemma submit_run_tasks st mk w chunks futures totals tr r :
  submit_run st mk w chunks futures totals tr r ->
  fetched_tasks tr = waited_tasks tr /\
  exists pend,
    futures ++ submitted_tasks tr ≡ₚ waited_tasks tr ++ pend /\
    forall futures' totals', r = Ok (futures', totals') -> pend = futures'.
Proof.
  induction 1 as [futures totals
                 |idx rest futures totals tr r Hcap _ (IHf & pend & IHp & IHr)
                 |idx rest futures totals i t q tr r Hcap Ht Hq _
                    (IHf & pend & IHp & IHr)
                 |idx rest futures totals i t e Hcap Ht Hq].
  all: rewrite ?submitted_tasks_cons, ?waited_tasks_cons, ?fetched_tasks_cons;
    cbv iota.
  - split; [done|]. exists futures. split; [by rewrite app_nil_r|]. by intros ?? [= <- _].
  - split; [done|]. exists pend. split; [|done].
    rewrite <- IHp. by rewrite <- app_assoc.
  - split; [by rewrite IHf|]. exists pend. split; [|done].
    rewrite (cons_as_app (mk idx)), app_assoc.
    rewrite (delete_Permutation _ _ _ Ht) at 1. simpl. by rewrite IHp.
  - split; [done|]. exists (delete i (futures ++ [mk idx])). split; [|done].
    change (submitted_tasks []) with (@nil Task).
    change (waited_tasks []) with (@nil Task).
    by rewrite (delete_Permutation _ _ _ Ht) at 1.
Qed.

(** The drain loop submits nothing and waits for the outstanding tasks, each
    once. *)
Lemma drain_run_tasks st futures totals tr r :
  drain_run st futures totals tr r ->
  submitted_tasks tr = [] /\
  fetched_tasks tr = waited_tasks tr /\
  exists pend,
    futures ≡ₚ waited_tasks tr ++ pend /\
    forall d, r = Ok d -> pend = [].
Proof.
  induction 1 as [totals
                 |futures totals i t q tr r Ht Hq _ (IHs & IHf & pend & IHp & IHr)
                 |futures totals i t e Ht Hq].
  all: rewrite ?submitted_tasks_cons, ?waited_tasks_cons, ?fetched_tasks_cons;
    cbv iota.
  - split_and!; [done..|]. by exists [].
  - split_and!; [done|by rewrite IHf|]. exists pend. split; [|done].
    rewrite (delete_Permutation _ _ _ Ht). simpl. by rewrite IHp.
  - split_and!; [done..|]. exists (delete i futures). split; [|done].
    apply (delete_Permutation _ _ _ Ht).
Qed.

Lemma dispatch_run_tasks st pl params dir chunk_size w tr r :
  dispatch_run st pl params dir chunk_size w tr r ->
  fetched_tasks tr = waited_tasks tr /\
  exists pend,
    submitted_tasks tr ≡ₚ waited_tasks tr ++ pend /\
    forall q, r = Ok q -> pend = [].
Proof.
  destruct 1 as [e He|size e Hsize He|size chunks tr e Hsize Hchunks Hs
                |size chunks tr1 futures totals tr2 r Hsize Hchunks Hs Hd].
  - split; [done|]. by exists [].
  - split; [done|]. by exists [].
  - destruct (submit_run_tasks _ _ _ _ _ _ _ _ Hs) as (Hf & pend & Hp & _).
    split; [done|]. by exists pend.
  - destruct (submit_run_tasks _ _ _ _ _ _ _ _ Hs) as (Hf1 & pend1 & Hp1 & Hr1).
    destruct (drain_run_tasks _ _ _ _ _ Hd) as (Hs2 & Hf2 & pend2 & Hp2 & Hr2).
    rewrite (Hr1 _ _ eq_refl) in Hp1. simpl in Hp1.
    rewrite submitted_tasks_app, waited_tasks_app, fetched_tasks_app.
    split; [by rewrite Hf1, Hf2|]. exists pend2. split.
    + by rewrite Hs2, app_nil_r, Hp1, Hp2, app_assoc.
    + intros q Hq. destruct r as [d|e]; [by eapply Hr2|done].
Qed.

(** X6: in every run the tasks whose results are fetched are the tasks that
    [ray.wait] reported, in that order; every task waited for was submitted,
    and none is waited for more often than it was submitted; when the run
    returns, every submitted task has been waited for and fetched. *)
Theorem tasks_accounted orbits orbit_members observations params dir chunk_size
    max_processes st :
  let out := iterative_precovery_and_differential_correction orbits orbit_members
               observations params dir chunk_size max_processes st in
  fetched_tasks out.1.2 = waited_tasks out.1.2 /\
  exists pend,
    submitted_tasks out.1.2 ≡ₚ waited_tasks out.1.2 ++ pend /\
    forall q, out.2 = Ok q -> pend = [].
Proof.
  intros out. subst out.
  assert (forall tr : list event, Forall (fun ev => is_get ev = true) tr ->
            Forall (fun ev => is_dispatch_event ev = false) tr) as Hgets.
  { intros tr Hg. eapply Forall_impl; [exact Hg|]. by intros []. }
  destruct (run_shape orbits orbit_members observations params dir chunk_size
              max_processes st)
    as [(tr & e & -> & Hg)|[(tr & _ & -> & Hg)
       |[(vo & vm & vb & tr0 & tr & r & _ & _ & _ & Hg & Hpath & ->)
        |(vo & vm & vb & tr0 & st1 & tra & pl & trb & r & _ & _ & _ & Hg & _ & Hok
          & Hdisp & ->)]]];
    cbn [fst snd].
  - destruct (tasks_none _ (Hgets _ Hg)) as (-> & -> & ->). split; [done|]. by exists [].
  - destruct (tasks_none _ (Hgets _ Hg)) as (-> & -> & ->). split; [done|]. by exists [].
  - pose proof (sequential_path_events (map row_orbit_id vo) vo vm vb params dir
      chunk_size st) as Hev. rewrite Hpath in Hev. simpl in Hev.
    assert (Forall (fun ev => is_dispatch_event ev = false)
              (tr0 ++ [EvInitRay (default cpu_count max_processes)] ++ tr)) as Hall.
    { repeat (apply Forall_app; split); [by apply Hgets|by repeat constructor|].
      eapply Forall_impl; [exact Hev|]. by intros []. }
    destruct (tasks_none _ Hall) as (-> & -> & ->). split; [done|]. by exists [].
  - destruct (dispatch_run_tasks _ _ _ _ _ _ _ _ Hdisp) as (Hf & pend & Hp & Hr).
    pose proof (placed_events _ _ _ _ _ _ _ _ _ _ _ Hok) as Hacc.
    destruct (tasks_none _ (Hgets _ Hg)) as (Hs0 & Hw0 & Hf0).
    assert (Forall (fun ev => is_dispatch_event ev = false) tra) as Ha.
    { eapply Forall_impl; [exact Hacc|]. by intros []. }
    destruct (tasks_none _ Ha) as (Hsa & Hwa & Hfa).
    assert (forall tail : list event,
              Forall (fun ev => is_dispatch_event ev = false) tail ->
              let tr := tr0 ++ [EvInitRay (default cpu_count max_processes)] ++ tra
                        ++ trb ++ tail in
              submitted_tasks tr = submitted_tasks trb /\
              waited_tasks tr = waited_tasks trb /\
              fetched_tasks tr = fetched_tasks trb) as Hsame.
    { intros tail Htail. destruct (tasks_none _ Htail) as (Hst & Hwt & Hft).
      cbv zeta.
      rewrite !submitted_tasks_app, !waited_tasks_app, !fetched_tasks_app.
      rewrite Hs0, Hw0, Hf0, Hsa, Hwa, Hfa, Hst, Hwt, Hft.
      rewrite !app_nil_r. done. }
    destruct r as [q|e]; cbn [fst snd].
    + destruct (Hsame [EvFree (p_refs_to_free pl)]) as (-> & -> & ->);
        [by repeat constructor|].
      split; [done|]. by exists pend.
    + destruct (Hsame []) as (Hs1 & Hw1 & Hf1); [by constructor|].
      rewrite !app_nil_r in Hs1, Hw1, Hf1. rewrite Hs1, Hw1, Hf1.
      split; [done|]. by exists pend.
Qed.

(** *** Waiting only with a full pipeline *)

Lemma waits_at_idle cap n (tr : list event) : Forall idle tr -> waits_at cap n tr.
Proof.
  intros Hidle. revert n. induction Hidle as [|ev tr [Hs Hw] _ IH]; intros n; [done|].
  split; [congruence|]. apply IH.
Qed.

Lemma waits_early_never_no_submit cap n (tr : list event) :
  Forall (fun ev => is_submit ev = false) tr -> waits_early_never cap n tr.
Proof.
  intros Hno. revert n. induction Hno as [|ev tr Hev Hno IH]; intros n; [done|].
  split; [|apply IH]. intros _ [t Ht]. rewrite Forall_forall in Hno.
  by specialize (Hno _ Ht).
Qed.

Lemma waits_early_never_app cap n (tr1 tr2 : list event) :
  waits_at cap n tr1 ->
  waits_early_never cap (n + outstanding tr1) tr2 ->
  waits_early_never cap n (tr1 ++ tr2).
Proof.
  revert n. induction tr1 as [|ev tr1 IH]; intros n.
  - rewrite outstanding_nil, Z.add_0_r. tauto.
  - rewrite outstanding_cons, Z.add_assoc. intros [Hw Hrest] H2.
    cbn [app waits_early_never]. split; [tauto|by apply IH].
Qed.

Lemma waits_early_never_split cap n (tr p rest : list event) t :
  waits_early_never cap n tr -> tr = p ++ EvWait t :: rest ->
  (exists t', EvSubmit t' ∈ rest) -> n + outstanding p = cap.
Proof.
  revert n tr. induction p as [|ev p IH]; intros n tr Hok -> Hsub.
  - rewrite outstanding_nil, Z.add_0_r. destruct Hok as [Hw _]. by apply Hw.
  - destruct Hok as [_ Hok]. rewrite outstanding_cons, Z.add_assoc.
    by eapply IH.
Qed.

(** The submission loop waits only when the task it has just submitted
    fills the pipeline. *)
Lemma submit_run_waits_at st mk w chunks futures totals tr r :
  submit_run st mk w chunks futures totals tr r ->
  Z.of_nat (length futures) < in_flight_cap w ->
  waits_at (in_flight_cap w) (Z.of_nat (length futures)) tr.
Proof.
  induction 1 as [futures totals
                 |idx rest futures totals tr r Hcap _ IH
                 |idx rest futures totals i t q tr r Hcap Ht Hq _ IH
                 |idx rest futures totals i t e Hcap Ht Hq]; intros Hn; [done|..].
  - apply at_capacity_false in Hcap. rewrite length_app in *. simpl in *.
    split; [done|]. unfold in_flight_delta. simpl.
    replace (Z.of_nat (length futures) + 1)
      with (Z.of_nat (length futures + 1)) by lia.
    by apply IH.
  - assert (Z.of_nat (length futures) + 1 = in_flight_cap w) as Hfull.
    { destruct (at_capacity (futures ++ [mk idx]) w) eqn:Hc; [|done].
      assert (~ Z.of_nat (length (futures ++ [mk idx])) < in_flight_cap w) as Hge.
      { intros Hlt%at_capacity_false. congruence. }
      rewrite length_app in Hge. simpl in Hge. lia. }
    pose proof (lookup_lt_Some _ _ _ Ht) as Hi.
    rewrite length_delete, length_app in IH by (by eexists).
    rewrite length_app in Hi. simpl in IH, Hi.
    split; [done|]. split; [intros _; unfold in_flight_delta; simpl; lia|].
    split; [done|]. unfold in_flight_delta. simpl.
    replace (Z.of_nat (length futures) + 1 + -1 + 0)
      with (Z.of_nat (length futures + 1 - 1)) by lia.
    apply IH. lia.
  - assert (Z.of_nat (length futures) + 1 = in_flight_cap w) as Hfull.
    { destruct (at_capacity (futures ++ [mk idx]) w) eqn:Hc; [|done].
      assert (~ Z.of_nat (length (futures ++ [mk idx])) < in_flight_cap w) as Hge.
      { intros Hlt%at_capacity_false. congruence. }
      rewrite length_app in Hge. simpl in Hge. lia. }
    split; [done|]. split; [intros _; unfold in_flight_delta; simpl; lia|].
    by split.
Qed.

Lemma dispatch_run_waits st pl params dir chunk_size w tr r (tail : list event) :
  1 <= w ->
  dispatch_run st pl params dir chunk_size w tr r ->
  Forall (fun ev => is_submit ev = false) tail ->
  waits_early_never (in_flight_cap w) 0 (tr ++ tail).
Proof.
  intros Hw Hrun Htail.
  assert (0 < in_flight_cap w) as Hcap.
  { unfold in_flight_cap. Z.div_mod_to_equations. lia. }
  destruct Hrun as [e He|size e Hsize He|size chunks tr e Hsize Hchunks Hs
                   |size chunks tr1 futures totals tr2 r Hsize Hchunks Hs Hd].
  - by apply waits_early_never_no_submit.
  - by apply waits_early_never_no_submit.
  - apply waits_early_never_app; [by apply (submit_run_waits_at _ _ _ _ _ _ _ _ Hs)|].
    by apply waits_early_never_no_submit.
  - rewrite <- app_assoc.
    apply waits_early_never_app; [by apply (submit_run_waits_at _ _ _ _ _ _ _ _ Hs)|].
    apply waits_early_never_no_submit. apply Forall_app. split; [|done].
    apply drain_run_events in Hd. eapply Forall_impl; [exact Hd|].
    by intros ev [[? ->]|[? ->]].
Qed.

(** X7: with at least one worker, the dispatcher waits for a task while
    chunks are still to be submitted only when the pipeline is full: before
    every [ray.wait] that is followed by a submission, exactly
    ceil(1.5 W) tasks are outstanding. *)
Theorem waits_only_when_full orbits orbit_members observations params dir chunk_size
    max_processes st p t rest :
  let w := default cpu_count max_processes in
  let out := iterative_precovery_and_differential_correction orbits orbit_members
               observations params dir chunk_size max_processes st in
  1 <= w ->
  out.1.2 = p ++ EvWait t :: rest ->
  (exists t', EvSubmit t' ∈ rest) ->
  outstanding p = in_flight_cap w.
Proof.
  intros w out Hw Htr Hsub. subst out.
  assert (forall tr : list event, Forall (fun ev => is_get ev = true) tr ->
            Forall idle tr) as Hgets.
  { intros tr Hg. eapply Forall_impl; [exact Hg|]. by intros []. }
  assert (forall tr : list event, Forall idle tr -> tr = p ++ EvWait t :: rest -> False)
    as Hnowait.
  { intros tr Hidle ->. apply Forall_app in Hidle as [_ Hidle].
    apply Forall_cons in Hidle as [[_ Hwait] _]. done. }
  destruct (run_shape orbits orbit_members observations params dir chunk_size
              max_processes st)
    as [(tr & e & Heq & Hg)|[(tr & _ & Heq & Hg)
       |[(vo & vm & vb & tr0 & tr & r & _ & _ & _ & Hg & Hpath & Heq)
        |(vo & vm & vb & tr0 & st1 & tra & pl & trb & r & _ & _ & _ & Hg & _ & Hok
          & Hdisp & Heq)]]];
    rewrite Heq in Htr; cbn [fst snd] in Htr.
  - by destruct (Hnowait _ (Hgets _ Hg) Htr).
  - by destruct (Hnowait _ (Hgets _ Hg) Htr).
  - exfalso. eapply Hnowait; [|exact Htr].
    pose proof (sequential_path_events (map row_orbit_id vo) vo vm vb params dir
      chunk_size st) as Hev. rewrite Hpath in Hev. simpl in Hev.
    repeat (apply Forall_app; split); [by apply Hgets|by repeat constructor|].
    eapply Forall_impl; [exact Hev|]. by intros [].
  - fold w in Hdisp, Htr.
    pose proof (placed_events _ _ _ _ _ _ _ _ _ _ _ Hok) as Hacc.
    assert (Forall idle (tr0 ++ [EvInitRay w] ++ tra)) as Hidle.
    { repeat (apply Forall_app; split); [by apply Hgets|by repeat constructor|].
      eapply Forall_impl; [exact Hacc|]. by intros []. }
    assert (exists tail, Forall (fun ev => is_submit ev = false) tail /\
              (tr0 ++ [EvInitRay w] ++ tra) ++ trb ++ tail = p ++ EvWait t :: rest)
      as (tail & Htail & Htr').
    { destruct r as [q|e]; cbn [fst snd] in Htr.
      - exists [EvFree (p_refs_to_free pl)]. split; [by repeat constructor|].
        rewrite <- Htr. by rewrite <- !app_assoc.
      - exists []. split; [by constructor|].
        rewrite <- Htr. by rewrite app_nil_r, <- !app_assoc. }
    pose proof (dispatch_run_waits _ _ _ _ _ _ _ _ tail Hw Hdisp Htail) as Hnever.
    assert (waits_early_never (in_flight_cap w) 0
              ((tr0 ++ [EvInitRay w] ++ tra) ++ trb ++ tail)) as Hall.
    { apply waits_early_never_app; [by apply waits_at_idle|].
      by rewrite (outstanding_idle _ Hidle). }
    pose proof (waits_early_never_split _ _ _ _ _ _ Hall Htr' Hsub) as Hfin.
    lia.
Qed.

End DispatcherProperties.

Section SequentialProperties.
Context `{E : Externals} `{R : Runtime}.
Implicit Types (st : store).

(** Each call of the worker by the sequential loop opens one handle, and
    none is closed. *)
Lemma sequential_loop_handles chunks orbits orbit_members observations params dir
    totals st :
  let tr := (sequential_loop chunks orbits orbit_members observations params dir
               totals st).1.2 in
  count is_close tr = 0%nat /\ count is_open tr = length (worker_chunks tr).
Proof.
  revert totals. induction chunks as [|chunk rest IH]; intros totals; [done|].
  cbv zeta. rewrite sequential_loop_cons.
  pose proof (worker_chunks_worker_loop chunk orbits orbit_members observations params
                {| db_directory := dir |} empty_quad st) as Hnone.
  destruct (ipod_worker_loop chunk orbits orbit_members observations params
              {| db_directory := dir |} empty_quad st) as [[st1 tr1] r1] eqn:Hloop.
  destruct (ipod_worker_loop_handle_counts _ _ _ _ _ _ _ _ _ _ _ Hloop)
    as [Hopen Hclose].
  simpl in Hnone.
  destruct r1 as [q|e].
  - specialize (IH (merge totals q)). cbv zeta in IH.
    destruct (sequential_loop rest orbits orbit_members observations params dir
                (merge totals q) st) as [[st2 tr2] r2].
    cbn [fst snd] in *. destruct IH as [IHclose IHopen].
    rewrite (cons_as_app (EvWorker chunk)), (cons_as_app (EvOpen dir)).
    rewrite !count_app, !worker_chunks_app, !length_app, Hopen, Hclose, Hnone.
    rewrite IHclose, IHopen. by simpl.
  - cbn [fst snd].
    rewrite (cons_as_app (EvWorker chunk)), (cons_as_app (EvOpen dir)).
    rewrite !count_app, !worker_chunks_app, !length_app, Hopen, Hclose, Hnone.
    by simpl.
Qed.

(** A sequential loop that comes to its end has called the refinement
    routine once per identifier, in the order of the chunks. *)
Lemma sequential_loop_returns chunks orbits orbit_members observations params dir
    totals st st' tr q :
  sequential_loop chunks orbits orbit_members observations params dir totals st
    = (st', tr, Ok q) ->
  Forall (succeeds orbits orbit_members observations params {| db_directory := dir |})
    (concat chunks) /\
  ipod_calls tr = map (ipod_event orbits orbit_members observations) (concat chunks).
Proof.
  revert totals tr. induction chunks as [|chunk rest IH]; intros totals tr.
  { intros [= _ <- _]. by split. }
  rewrite sequential_loop_cons.
  destruct (first_failure orbits orbit_members observations params
              {| db_directory := dir |} chunk)
    as [Hall|(pre & x & post & e & -> & Hpre & Hx)].
  2:{ by rewrite (ipod_worker_loop_raise _ _ _ _ _ _ _ _ _ _ _ Hpre Hx). }
  rewrite (ipod_worker_loop_ok _ _ _ _ _ _ _ _ Hall).
  destruct (sequential_loop rest orbits orbit_members observations params dir _ st)
    as [[st2 tr2] r2] eqn:Hrest.
  intros [= -> <- ->]. destruct (IH _ _ Hrest) as [IHall IHcalls].
  split; [simpl; by apply Forall_app|].
  rewrite (cons_as_app (EvWorker chunk)), (cons_as_app (EvOpen dir)).
  rewrite !ipod_calls_app, ipod_calls_events, IHcalls. simpl.
  by rewrite map_app.
Qed.

(** The run on the sequential path, for inputs that can be read. *)
Lemma sequential_run_shape orbits orbit_members observations params dir chunk_size
    max_processes st vo vm vb :
  holds OOrbits st orbits vo ->
  holds_optional OMembers st orbit_members vm ->
  holds_optional OObservations st observations vb ->
  vo <> [] ->
  initialize_use_ray (default cpu_count max_processes) = false ->
  exists tr0,
    Forall (fun ev => is_get ev = true) tr0 /\
    iterative_precovery_and_differential_correction orbits orbit_members observations
      params dir chunk_size max_processes st =
    match sequential_path (map row_orbit_id vo) vo vm vb params dir chunk_size st with
    | (st', tr, r) =>
        (st', tr0 ++ [EvInitRay (default cpu_count max_processes)] ++ tr, r)
    end.
Proof.
  intros Hvo Hvm Hvb Hne Hray.
  destruct (read_back_events orbits orbit_members observations) as (_ & _ & Hg).
  eexists. split; [exact Hg|].
  rewrite (entry_point_valid _ _ _ _ _ _ _ _ _ _ _ Hvo Hvm Hvb). cbv zeta.
  destruct vo; [done|]. simpl length. cbn [Nat.eqb]. by rewrite Hray.
Qed.

(** X8: on the sequential path every call of the worker opens a database
    handle and no handle is ever closed, whatever the result of the run; a
    run that returns has opened one handle per chunk of the planner. *)
Theorem sequential_run_handles orbits orbit_members observations params dir chunk_size
    max_processes st :
  initialize_use_ray (default cpu_count max_processes) = false ->
  let out := iterative_precovery_and_differential_correction orbits orbit_members
               observations params dir chunk_size max_processes st in
  count is_close out.1.2 = 0%nat /\
  count is_open out.1.2 = length (worker_chunks out.1.2) /\
  (forall vo q, holds OOrbits st orbits vo -> vo <> [] -> out.2 = Ok q ->
     exists chunks,
       _iterate_chunks (map row_orbit_id vo) chunk_size = Ok chunks /\
       count is_open out.1.2 = length chunks).
Proof.
  intros Hray out. subst out.
  assert (forall tr : list event, Forall (fun ev => is_get ev = true) tr ->
            count is_close tr = 0%nat /\ count is_open tr = 0%nat /\
            worker_chunks tr = []) as Hgets.
  { intros tr Hg. split_and!.
    - apply count_none. eapply Forall_impl; [exact Hg|]. by intros [].
    - apply count_none. eapply Forall_impl; [exact Hg|]. by intros [].
    - induction Hg as [|ev tr Hev _ IH]; [done|]. by destruct ev. }
  destruct (run_shape orbits orbit_members observations params dir chunk_size
              max_processes st)
    as [(tr & e & -> & Hg)|[(tr & Hempty & -> & Hg)
       |[(vo & vm & vb & tr0 & tr & r & _ & Hvo & Hne & Hg & Hpath & ->)
        |(vo & vm & vb & tr0 & st1 & tra & pl & trb & r & Hray' & _)]]];
    cbn [fst snd]; try congruence.
  - destruct (Hgets _ Hg) as (-> & -> & ->). by split_and!.
  - destruct (Hgets _ Hg) as (-> & -> & ->). split_and!; [done..|].
    intros vo q Hvo Hne _. by rewrite (holds_orbits_inj _ _ _ _ Hvo Hempty) in Hne.
  - destruct (Hgets _ Hg) as (Hc0 & Ho0 & Hw0).
    rewrite sequential_path_run in Hpath.
    rewrite !count_app, !worker_chunks_app, !length_app, Hc0, Ho0, Hw0.
    destruct (_iterate_chunks (map row_orbit_id vo) chunk_size) as [chunks|e] eqn:Hplan.
    + pose proof (sequential_loop_handles chunks vo vm vb params dir empty_quad st)
        as Hh. cbv zeta in Hh. rewrite Hpath in Hh. cbn [fst snd] in Hh.
      destruct Hh as [Hclose Hopen]. rewrite Hclose, Hopen. split_and!; [done..|].
      intros vo' q Hvo' _ ->.
      rewrite (holds_orbits_inj _ _ _ _ Hvo' Hvo), Hplan.
      exists chunks. split; [done|].
      by rewrite (sequential_loop_chunks _ _ _ _ _ _ _ _ _ _ _ Hpath).
    + injection Hpath as <- <-. split_and!; [done..|]. by intros vo' q _ _ [=].
Qed.

(** X9: a run on the sequential path that returns has called the refinement
    routine exactly once for every orbit identifier, in the order of the
    orbit table, each call returned, and the result of the run is the
    concatenation of what the calls returned, in that order. *)
Theorem sequential_run_calls_in_order orbits orbit_members observations params dir
    chunk_size max_processes st vo vm vb st' tr q :
  holds OOrbits st orbits vo ->
  holds_optional OMembers st orbit_members vm ->
  holds_optional OObservations st observations vb ->
  1 <= chunk_size ->
  initialize_use_ray (default cpu_count max_processes) = false ->
  iterative_precovery_and_differential_correction orbits orbit_members observations
    params dir chunk_size max_processes st = (st', tr, Ok q) ->
  let orbit_ids := map row_orbit_id vo in
  let db := {| db_directory := dir |} in
  ipod_calls tr = map (ipod_event vo vm vb) orbit_ids /\
  Forall (succeeds vo vm vb params db) orbit_ids /\
  q = batch vo vm vb params db orbit_ids.
Proof.
  intros Hvo Hvm Hvb Hsize Hray Hrun orbit_ids db.
  assert (forall tr0 : list event, Forall (fun ev => is_get ev = true) tr0 ->
            ipod_calls tr0 = []) as Hgets.
  { intros tr0 Hg. apply ipod_calls_none. eapply Forall_impl; [exact Hg|].
    by intros []. }
  assert (vo = [] \/ vo <> []) as [Hnil|Hne] by (destruct vo; [by left|by right]).
  { rewrite (entry_point_valid _ _ _ _ _ _ _ _ _ _ _ Hvo Hvm Hvb) in Hrun.
    subst orbit_ids. rewrite Hnil in *.
    simpl in Hrun. injection Hrun as _ <- <-.
    destruct (read_back_events orbits orbit_members observations) as (_ & _ & Hg).
    rewrite (Hgets _ Hg). by split_and!. }
  destruct (sequential_run_shape _ _ _ params dir chunk_size max_processes _ _ _ _
              Hvo Hvm Hvb Hne Hray) as (tr0 & Hg & Heq).
  rewrite Hrun in Heq. rewrite sequential_path_run in Heq.
  destruct (iterate_chunks_total orbit_ids chunk_size Hsize) as [chunks Hplan].
  fold orbit_ids in Heq. rewrite Hplan in Heq.
  pose proof (iterate_chunks_concat _ _ _ Hsize Hplan) as Hconcat.
  destruct (sequential_loop chunks vo vm vb params dir empty_quad st)
    as [[st1 tr1] r1] eqn:Hloop.
  injection Heq as -> -> <-.
  destruct (sequential_loop_returns _ _ _ _ _ _ _ _ _ _ _ Hloop) as [Hall Hcalls].
  rewrite Hconcat in Hall, Hcalls.
  split_and!; [|done|].
  - rewrite (cons_as_app (EvInitRay _)), !ipod_calls_app, (Hgets _ Hg), Hcalls.
    by simpl.
  - destruct (sequential_loop_ok chunks vo vm vb params dir empty_quad st) as [tr' Hok];
      [by rewrite Hconcat|].
    rewrite Hloop in Hok. injection Hok as _ _ ->.
    by rewrite merge_empty_l, Hconcat.
Qed.

End SequentialProperties.

Section CompletionOrder.
Context `{E : Externals} `{R : Runtime}.
Implicit Types (st : store).

(** The results of a list of tasks, merged in its order, when [tq] gives the
    result of each task. *)
Lemma merge_foldr_app (tq : Task -> Quad) (ts1 ts2 : list Task) :
  foldr (fun t acc => merge (tq t) acc) empty_quad (ts1 ++ ts2)
  = merge (foldr (fun t acc => merge (tq t) acc) empty_quad ts1)
          (foldr (fun t acc => merge (tq t) acc) empty_quad ts2).
Proof.
  induction ts1 as [|t ts1 IH]; simpl; [by rewrite merge_empty_l|].
  by rewrite IH, merge_assoc.
Qed.

Section Loops.
Variables (st : store) (mk : Z * Z -> Task) (w : Z) (tq : Task -> Quad).
Hypothesis results : forall idx q, (run_task st (mk idx)).2 = Ok q -> q = tq (mk idx).

Let known (t : Task) : Prop := forall q, (run_task st t).2 = Ok q -> q = tq t.

(** The submission loop merges the results in the order of the waits. *)
Lemma submit_run_order chunks futures totals tr futures' totals' :
  submit_run st mk w chunks futures totals tr (Ok (futures', totals')) ->
  Forall known futures ->
  Forall known futures' /\
  totals' = merge totals
              (foldr (fun t acc => merge (tq t) acc) empty_quad (waited_tasks tr)).
Proof.
  remember (Ok (futures', totals')) as r eqn:Hr. intros Hrun. revert Hr.
  induction Hrun as [futures totals
                    |idx rest futures totals tr r Hcap _ IH
                    |idx rest futures totals i t q tr r Hcap Ht Hq _ IH
                    |idx rest futures totals i t e Hcap Ht Hq]; intros Hr Hknown.
  - injection Hr as <- <-. split; [done|]. simpl. by rewrite merge_empty_r.
  - rewrite waited_tasks_cons. apply IH; [done|].
    apply Forall_app. split; [done|]. constructor; [|done]. intros q. apply results.
  - assert (Forall known (futures ++ [mk idx])) as Hall.
    { apply Forall_app. split; [done|]. constructor; [|done]. intros q'. apply results. }
    destruct (IH Hr (Forall_delete _ _ _ Hall)) as [IHk ->]. split; [done|].
    rewrite !waited_tasks_cons. cbv iota. simpl.
    rewrite Forall_forall in Hall.
    rewrite (Hall t (list_elem_of_lookup_2 _ _ _ Ht) q Hq).
    by rewrite merge_assoc.
  - done.
Qed.

(** So does the drain loop. *)
Lemma drain_run_order futures totals tr d :
  drain_run st futures totals tr (Ok d) ->
  Forall known futures ->
  d.2 = merge totals
          (foldr (fun t acc => merge (tq t) acc) empty_quad (waited_tasks tr)).
Proof.
  remember (Ok d) as r eqn:Hr. intros Hrun. revert Hr.
  induction Hrun as [totals
                    |futures totals i t q tr r Ht Hq _ IH
                    |futures totals i t e Ht Hq]; intros Hr Hknown.
  - injection Hr as <-. simpl. by rewrite merge_empty_r.
  - rewrite (IH Hr (Forall_delete _ _ _ Hknown)).
    rewrite !waited_tasks_cons. cbv iota. simpl.
    rewrite Forall_forall in Hknown.
    rewrite (Hknown t (list_elem_of_lookup_2 _ _ _ Ht) q Hq).
    by rewrite merge_assoc.
  - done.
Qed.

End Loops.

(** The run on the distributed path, for inputs that can be read. *)
Lemma distributed_run_shape orbits orbit_members observations params dir chunk_size
    max_processes st vo vm vb :
  let w := default cpu_count max_processes in
  holds OOrbits st orbits vo ->
  holds_optional OMembers st orbit_members vm ->
  holds_optional OObservations st observations vb ->
  vo <> [] ->
  initialize_use_ray w = true ->
  exists tr0 st1 tra pl trb r,
    Forall (fun ev => is_get ev = true) tr0 /\
    placed_ok st (map row_orbit_id vo) (given_ref orbits) vo
      (given_ref_optional orbit_members) vm (given_ref_optional observations) vb
      st1 tra pl /\
    dispatch_run st1 pl params dir chunk_size w trb r /\
    iterative_precovery_and_differential_correction orbits orbit_members observations
      params dir chunk_size max_processes st =
    match r with
    | Ok q => (foldr delete st1 (p_refs_to_free pl),
               tr0 ++ [EvInitRay w] ++ tra ++ trb ++ [EvFree (p_refs_to_free pl)],
               Ok q)
    | Raise e => (st1, tr0 ++ [EvInitRay w] ++ tra ++ trb, Raise e)
    end.
Proof.
  intros w Hvo Hvm Hvb Hne Hray.
  destruct (read_back_events orbits orbit_members observations) as (_ & _ & Hg).
  destruct (distributed_path_shape (map row_orbit_id vo) (given_ref orbits) vo
              (given_ref_optional orbit_members) vm
              (given_ref_optional observations) vb params dir chunk_size w st)
    as (st1 & tra & pl & trb & r & _ & Hok & Hdisp & Heq).
  eexists _, st1, tra, pl, trb, r. split_and!; [exact Hg|done..|].
  rewrite (entry_point_valid _ _ _ _ _ _ _ _ _ _ _ Hvo Hvm Hvb). cbv zeta.
  destruct vo; [done|]. simpl length. cbn [Nat.eqb]. fold w. rewrite Hray, Heq.
  by destruct r.
Qed.

(** X10: on the distributed path the result of a run that returns is the
    concatenation of the results of the tasks in the order in which
    [ray.wait] reported them: what the refinement routine returned for the
    identifiers of the first finished chunk, then for those of the second,
    and so on. *)
Theorem distributed_result_in_completion_order orbits orbit_members observations
    params dir chunk_size max_processes st vo vm vb st' tr q :
  holds OOrbits st orbits vo ->
  holds_optional OMembers st orbit_members vm ->
  holds_optional OObservations st observations vb ->
  initialize_use_ray (default cpu_count max_processes) = true ->
  iterative_precovery_and_differential_correction orbits orbit_members observations
    params dir chunk_size max_processes st = (st', tr, Ok q) ->
  let orbit_ids := map row_orbit_id vo in
  let chunk_of (t : Task) := py_slice orbit_ids (t_indices t).1 (t_indices t).2 in
  q = batch vo vm vb params {| db_directory := dir |}
        (concat (map chunk_of (waited_tasks tr))).
Proof.
  intros Hvo Hvm Hvb Hray Hrun orbit_ids chunk_of.
  assert (forall tr0 : list event, Forall (fun ev => is_dispatch_event ev = false) tr0 ->
            waited_tasks tr0 = []) as Hnone.
  { intros tr0 H0. by destruct (tasks_none _ H0) as (_ & -> & _). }
  destruct (read_back_events orbits orbit_members observations) as (_ & _ & Hg0).
  assert (vo = [] \/ vo <> []) as [Hnil|Hne] by (destruct vo; [by left|by right]).
  { rewrite (entry_point_valid _ _ _ _ _ _ _ _ _ _ _ Hvo Hvm Hvb) in Hrun.
    subst chunk_of orbit_ids. rewrite Hnil in *.
    simpl in Hrun. injection Hrun as _ <- <-.
    rewrite Hnone; [done|]. eapply Forall_impl; [exact Hg0|]. by intros []. }
  destruct (distributed_run_shape _ _ _ params dir chunk_size max_processes _ _ _ _
              Hvo Hvm Hvb Hne Hray)
    as (tr0 & st1 & tra & pl & trb & r & Hg & Hok & Hdisp & Heq).
  rewrite Hrun in Heq. destruct r as [q'|e]; [|done]. injection Heq as -> -> <-.
  pose proof (placed_events _ _ _ _ _ _ _ _ _ _ _ Hok) as Hacc.
  rewrite (cons_as_app (EvInitRay _)), !waited_tasks_app.
  rewrite (Hnone tr0) by (eapply Forall_impl; [exact Hg|]; by intros []).
  rewrite (Hnone tra) by (eapply Forall_impl; [exact Hacc|]; by intros []).
  rewrite waited_tasks_init, waited_tasks_free, !app_nil_l, app_nil_r.
  set (tq := fun t : Task => batch vo vm vb params {| db_directory := dir |} (chunk_of t)).
  assert (forall idx q0, (run_task st1 (mk_task pl params dir idx)).2 = Ok q0 ->
            q0 = tq (mk_task pl params dir idx)) as Hresults.
  { intros idx q0 Hq0.
    destruct (task_result_cases st st1 orbit_ids (given_ref orbits) vo
                (given_ref_optional orbit_members) vm
                (given_ref_optional observations) vb tra pl params dir Hok
                (fun r Hr => holds_given _ _ _ _ _ Hvo Hr)
                (fun r Hr => holds_optional_given _ _ _ _ _ Hvm Hr)
                (fun r Hr => holds_optional_given _ _ _ _ _ Hvb Hr) idx)
      as [[_ Hr]|(id' & e' & _ & _ & Hr)]; rewrite Hr in Hq0; [|done].
    by injection Hq0 as <-. }
  assert (forall ts : list Task,
            foldr (fun t acc => merge (tq t) acc) empty_quad ts
            = batch vo vm vb params {| db_directory := dir |} (concat (map chunk_of ts)))
    as Hbatch.
  { induction ts as [|t ts IH]; [done|]. simpl. by rewrite batch_app, IH. }
  rewrite <- Hbatch.
  remember (Ok q) as r eqn:Hr.
  destruct Hdisp as [e He|size e Hsize He|size chunks trs e Hsize Hchunks Hs
                    |size chunks trs futures totals trd rd Hsize Hchunks Hs Hd];
    try done.
  destruct rd as [d|e]; [|done]. injection Hr as <-.
  destruct (submit_run_order _ _ _ tq Hresults _ _ _ _ _ _ Hs) as [Hknown ->];
    [by constructor|].
  rewrite (drain_run_order _ tq _ _ _ _ Hd Hknown).
  by rewrite waited_tasks_app, merge_foldr_app, merge_empty_l.
Qed.

End CompletionOrder.

Section DispatcherClaim.
Context `{E : Externals} `{R : Runtime}.
Implicit Types (st : store).






End DispatcherClaim.

Section SetupProperties.
Context `{E : Externals} `{R : Runtime}.
Implicit Types (st : store).

Lemma init_calls_app (tr1 tr2 : list event) :
  init_calls (tr1 ++ tr2) = init_calls tr1 ++ init_calls tr2.
Proof. apply omap_app. Qed.

Lemma init_calls_init w (tr : list event) :
  init_calls (EvInitRay w :: tr) = w :: init_calls tr.
Proof. done. Qed.

Lemma init_calls_none (q : event -> bool) (tr : list event) :
  (forall w, q (EvInitRay w) = false) ->
  Forall (fun ev => q ev = true) tr -> init_calls tr = [].
Proof.
  intros Hq. induction 1 as [|ev tr Hev _ IH]; [done|].
  destruct ev; try done. by rewrite Hq in Hev.
Qed.

(** X11: the worker leaves the object store as it is and emits events of
    the worker only, whether it returns or raises; it never closes a
    database handle; it opens one when it is given a directory, and none
    when the caller hands it an open handle. *)
Theorem ipod_worker_store_and_handles orbit_ids orbits orbit_members observations
    params database st :
  let out := ipod_worker orbit_ids orbits orbit_members observations params database
               st in
  out.1.1 = st /\
  Forall (fun ev => is_worker_event ev = true) out.1.2 /\
  count is_close out.1.2 = 0%nat /\
  count is_open out.1.2
  = match database with DbDirectory _ => 1%nat | DbOpen _ => 0%nat end.
Proof.
  cbv zeta. rewrite ipod_worker_run.
  destruct database as [dir|db].
  - pose proof (ipod_worker_loop_store orbit_ids orbits orbit_members observations
                  params {| db_directory := dir |} empty_quad st) as Hst.
    pose proof (ipod_worker_loop_events orbit_ids orbits orbit_members observations
                  params {| db_directory := dir |} empty_quad st) as Hev.
    destruct (ipod_worker_loop _ _ _ _ _ _ _ _) as [[st1 tr1] r1] eqn:Hloop.
    apply ipod_worker_loop_handle_counts in Hloop as [Ho Hc]. cbn [fst snd] in *.
    split_and!; [done|by repeat constructor|..];
      rewrite !count_cons, ?Ho, ?Hc; done.
  - pose proof (ipod_worker_loop_store orbit_ids orbits orbit_members observations
                  params db empty_quad st) as Hst.
    pose proof (ipod_worker_loop_events orbit_ids orbits orbit_members observations
                  params db empty_quad st) as Hev.
    destruct (ipod_worker_loop _ _ _ _ _ _ _ _) as [[st1 tr1] r1] eqn:Hloop.
    apply ipod_worker_loop_handle_counts in Hloop as [Ho Hc]. cbn [fst snd] in *.
    split_and!; [done|by repeat constructor|..];
      rewrite !count_cons, ?Ho, ?Hc; done.
Qed.

(** X12: [initialize_use_ray] is called at most once in a run, with the
    worker count [max_processes], or the number of CPUs when that is [None];
    it is called exactly when all inputs could be read and the orbit table is
    not empty. *)
Theorem ray_initialised_once orbits orbit_members observations params dir chunk_size
    max_processes st :
  let w := default cpu_count max_processes in
  let out := iterative_precovery_and_differential_correction orbits orbit_members
               observations params dir chunk_size max_processes st in
  (init_calls out.1.2 = [] \/ init_calls out.1.2 = [w]) /\
  (forall vo vm vb,
     holds OOrbits st orbits vo ->
     holds_optional OMembers st orbit_members vm ->
     holds_optional OObservations st observations vb ->
     init_calls out.1.2 = if (length vo =? 0)%nat then [] else [w]).
Proof.
  intros w out. subst out.
  assert (forall tr : list event, Forall (fun ev => is_get ev = true) tr ->
            init_calls tr = []) as Hgets.
  { intros tr. by apply init_calls_none. }
  assert (forall tr0 tr : list event,
            Forall (fun ev => is_get ev = true) tr0 ->
            Forall (fun ev => is_not_free ev = true -> is_worker_event ev = true \/
                                is_store_access ev = true \/
                                is_dispatch_event ev = true) tr ->
            init_calls (tr0 ++ EvInitRay w :: tr) = [w]) as Hone.
  { intros tr0 tr H0 Htr. rewrite init_calls_app, init_calls_init, (Hgets _ H0).
    simpl. f_equal. induction Htr as [|ev tr Hev _ IH]; [done|].
    destruct ev; try done. simpl in Hev. by destruct Hev as [?|[?|?]]. }
  split.
  - destruct (run_shape orbits orbit_members observations params dir chunk_size
                max_processes st)
      as [(tr & e & -> & Hg)|[(tr & _ & -> & Hg)
         |[(vo & vm & vb & tr0 & tr & r & _ & _ & _ & Hg & Hpath & ->)
          |(vo & vm & vb & tr0 & st1 & tra & pl & trb & r & _ & _ & _ & Hg & _ & Hok
            & Hdisp & ->)]]];
      cbn [fst snd].
    + left. by apply Hgets.
    + left. by apply Hgets.
    + right. apply Hone; [done|].
      pose proof (sequential_path_events (map row_orbit_id vo) vo vm vb params dir
        chunk_size st) as Hev. rewrite Hpath in Hev. simpl in Hev.
      eapply Forall_impl; [exact Hev|]. intros ev Hw _. by left.
    + right. fold w.
      pose proof (placed_events _ _ _ _ _ _ _ _ _ _ _ Hok) as Hacc.
      pose proof (dispatch_run_events _ _ _ _ _ _ _ _ Hdisp) as Hdev.
      destruct r as [q|e]; cbn [fst snd]; apply Hone; try done.
      * repeat (apply Forall_app; split).
        -- eapply Forall_impl; [exact Hacc|]. intros ev Hs _. right. by left.
        -- eapply Forall_impl; [exact Hdev|]. intros ev Hd _. right. by right.
        -- by repeat constructor.
      * repeat (apply Forall_app; split).
        -- eapply Forall_impl; [exact Hacc|]. intros ev Hs _. right. by left.
        -- eapply Forall_impl; [exact Hdev|]. intros ev Hd _. right. by right.
  - intros vo vm vb Hvo Hvm Hvb.
    destruct (read_back_events orbits orbit_members observations) as (_ & _ & Hg0).
    rewrite (entry_point_valid _ _ _ _ _ _ _ _ _ _ _ Hvo Hvm Hvb). cbv zeta.
    destruct (length vo =? 0)%nat; [by apply Hgets|]. fold w.
    destruct (initialize_use_ray w).
    + destruct (distributed_path_shape (map row_orbit_id vo) (given_ref orbits) vo
                  (given_ref_optional orbit_members) vm
                  (given_ref_optional observations) vb params dir chunk_size w st)
        as (st1 & tra & pl & trb & r & _ & Hok & Hdisp & ->).
      pose proof (placed_events _ _ _ _ _ _ _ _ _ _ _ Hok) as Hacc.
      pose proof (dispatch_run_events _ _ _ _ _ _ _ _ Hdisp) as Hdev.
      destruct r as [q|e]; cbn [fst snd]; apply Hone; try done.
      * repeat (apply Forall_app; split).
        -- eapply Forall_impl; [exact Hacc|]. intros ev Hs _. right. by left.
        -- eapply Forall_impl; [exact Hdev|]. intros ev Hd _. right. by right.
        -- by repeat constructor.
      * repeat (apply Forall_app; split).
        -- eapply Forall_impl; [exact Hacc|]. intros ev Hs _. right. by left.
        -- eapply Forall_impl; [exact Hdev|]. intros ev Hd _. right. by right.
    + pose proof (sequential_path_events (map row_orbit_id vo) vo vm vb params dir
        chunk_size st) as Hev.
      destruct (sequential_path _ _ _ _ _ _ _ _) as [[st1 tr1] r1]. cbn [fst snd] in *.
      apply Hone; [done|].
      eapply Forall_impl; [exact Hev|]. intros ev Hw _. by left.
Qed.

End SetupProperties.

(** * The further properties on the demonstration runs *)

Section FurtherInstances.
Import Demo.
Local Open Scope string_scope.

Lemma ipod_worker_success_witness :
  ipod_worker (E := externals) five five None None tt
    (DbOpen {| db_directory := "db" |}) ∅
  = (∅, EvWorker five :: map (ipod_event (E := externals) five None None) five,
     Ok (batch (E := externals) five None None tt {| db_directory := "db" |} five)).
Proof.
  pose proof (ipod_worker_success (E := externals) five five None None tt "db" ∅) as H.
  cbv zeta in H. destruct H as (_ & Hopen & _); [|exact Hopen].
  repeat constructor; by eexists.
Defined.

Lemma sequential_run_is_local_witness :
  sequential_run.1.1 = ∅ /\
  Forall (fun ev => is_local_event (E := externals) ev = true) sequential_run.1.2.
Proof.
  apply (sequential_run_is_local (E := externals) (R := runtime false 0) (Value five)
           None None tt "db" 2 (Some 1) ∅).
  reflexivity.
Defined.

Lemma returning_run_restores_store_witness : reference_run.1.1 = caller_store.
Proof.
  refine (returning_run_restores_store (E := externals) (R := runtime true 0)
            (Reference 7%nat) None None tt "db" 2 (Some 2) caller_store
            reference_run.1.1 reference_run.1.2 _ _).
  vm_compute. reflexivity.
Defined.

Lemma failed_run_frees_nothing_witness :
  let out := iterative_precovery_and_differential_correction (E := externals)
               (R := runtime true 1) (Value bad_chunk) None None tt "db" 2 (Some 2) ∅ in
  Forall (fun ev => is_not_free ev = true) out.1.2 /\
  (forall r o, (∅ : gmap ref (obj (E := externals))) !! r = Some o ->
     out.1.1 !! r = Some o) /\
  (forall r, r ∈ put_refs out.1.2 ->
     (∅ : gmap ref (obj (E := externals))) !! r = None /\ is_Some (out.1.1 !! r)).
Proof.
  intros out.
  refine (failed_run_frees_nothing (E := externals) (R := runtime true 1)
            (Value bad_chunk) None None tt "db" 2 (Some 2) ∅ out.1.1 out.1.2 _ _).
  vm_compute. reflexivity.
Defined.

Lemma waits_only_when_full_witness :
  let out := iterative_precovery_and_differential_correction (E := externals)
               (R := runtime true 1) (Value five) None None tt "db" 1 (Some 2) ∅ in
  outstanding (take 8 out.1.2) = in_flight_cap 2.
Proof.
  intros out.
  refine (waits_only_when_full (E := externals) (R := runtime true 1) (Value five)
            None None tt "db" 1 (Some 2) ∅ (take 8 out.1.2) _ (drop 9 out.1.2) _ _ _).
  - simpl. lia.
  - vm_compute. reflexivity.
  - eexists. vm_compute. apply list_elem_of_In. simpl. right. left. reflexivity.
Defined.


Lemma sequential_run_handles_witness :
  count is_close sequential_run.1.2 = 0%nat /\
  count is_open sequential_run.1.2 = length (worker_chunks sequential_run.1.2).
Proof.
  pose proof (sequential_run_handles (E := externals) (R := runtime false 0)
                (Value five) None None tt "db" 2 (Some 1) ∅) as H.
  cbv zeta in H. destruct H as (Hclose & Hopen & _); [reflexivity|].
  split; [exact Hclose|exact Hopen].
Defined.

Lemma sequential_run_calls_in_order_witness :
  ipod_calls sequential_run.1.2 = map (ipod_event (E := externals) five None None) five /\
  Forall (succeeds (E := externals) five None None tt {| db_directory := "db" |}) five /\
  sequential_run.2
  = Ok (batch (E := externals) five None None tt {| db_directory := "db" |} five).
Proof.
  pose proof (sequential_run_calls_in_order (E := externals) (R := runtime false 0)
                (Value five) None None tt "db" 2 (Some 1) ∅ five None None
                sequential_run.1.1 sequential_run.1.2) as H.
  edestruct H as (Hcalls & Hall & Hq).
  - reflexivity.
  - exact I.
  - exact I.
  - lia.
  - reflexivity.
  - vm_compute. reflexivity.
  - split_and!; [exact Hcalls|exact Hall|]. vm_compute. reflexivity.
Defined.

Lemma distributed_result_in_completion_order_witness :
  distributed_run.2
  = Ok (batch (E := externals) five None None tt {| db_directory := "db" |}
          (concat (map (fun t => py_slice five (t_indices t).1 (t_indices t).2)
                     (waited_tasks distributed_run.1.2)))).
Proof.
  pose proof (distributed_result_in_completion_order (E := externals)
                (R := runtime true 1) (Value five) None None tt "db" 2 (Some 2) ∅
                five None None distributed_run.1.1 distributed_run.1.2) as H.
  refine (eq_trans _ (f_equal Ok (H _ _ _ _ _ _))).
  - vm_compute. reflexivity.
  - reflexivity.
  - exact I.
  - exact I.
  - reflexivity.
  - vm_compute. reflexivity.
Defined.

End FurtherInstances.
